(** * Pipelining of TMA stores: a shallow embedding of
      lib/Dialect/TritonGPU/Transforms/Pipeliner/TMAStoresPipeline.cpp

    The IR is kept as a tree of operations carrying their identity (the
    [Operation *] of the source); the builder is an insertion point, and
    insertion and erasure go by identity, as they do through pointers; the
    two [DenseMap]s are finite maps; the transform is a state-and-failure
    monad over the block that encloses the loop, a dangling dereference or
    a failed [cast] ending the run.  Besides the IR the state records, in
    order, which descriptors the transform inspects, which operations it
    erases and whether it calls the descriptor-pipelining pass.  Debug
    locations are left out. *)

From Stdlib Require Import ZArith Lia.
From stdpp Require Import gmap strings list fin_maps.

#[local] Set Warnings "-clear-no-such-hyp".

Open Scope Z_scope.
Open Scope nat_scope.

(** ** Values, types and operations *)

(** Identity of an operation (an [Operation *]). *)
Abbreviation OpId := nat (only parsing).

(** Uniqued attribute and element-type handles. *)
Abbreviation Attribute := nat (only parsing).
Abbreviation ElementType := string (only parsing).

(** An SSA value: the result of an operation, or a block argument. *)
Inductive Value : Type :=
| OpResult (owner : OpId)
| BlockArgument (index : nat).

#[global] Instance Value_eq_dec : EqDecision Value.
Proof. solve_decision. Defined.

Record RankedTensorType : Type := {
  getShape : list Z;
  getElementType : ElementType;
  getEncoding : Attribute
}.

Record TensorDescType : Type := { getBlockType : RankedTensorType }.

Inductive MemorySpace : Type := SharedMemorySpace | TensorMemorySpace.

Record MemDescType : Type := {
  memShape : list Z;
  memElementType : ElementType;
  memEncoding : Attribute;
  memMemorySpace : MemorySpace;
  mutableMemory : bool
}.

(** [mlir::TypedValue<T>]: a value together with its static type. *)
Record TypedValue (T : Type) : Type := { value : Value; getType : T }.
Arguments value {T} _.
Arguments getType {T} _.

Inductive DescriptorReduceKind : Type :=
| ADD | MIN | MAX | INC | DEC | AND | OR | XOR.

(** Operations without regions.  The three descriptor stores, together with
    [OtherStoreLikeOp], are the implementers of
    [DescriptorStoreLikeOpInterface]: the interface is open, so an
    implementer that is none of the three named operations is representable. *)
Inductive OpKind : Type :=
| DescriptorStoreOp (d : TypedValue TensorDescType)
                    (s : TypedValue RankedTensorType) (indices : list Value)
| DescriptorReduceOp (kind : DescriptorReduceKind)
                     (d : TypedValue TensorDescType)
                     (s : TypedValue RankedTensorType) (indices : list Value)
| DescriptorScatterOp (d : TypedValue TensorDescType)
                      (xOffsets yOffset : Value)
                      (s : TypedValue RankedTensorType)
| OtherStoreLikeOp (name : string) (d : TypedValue TensorDescType)
                   (s : TypedValue RankedTensorType)
| LocalAllocOp (ty : MemDescType)
| LocalDeallocOp (buffer : Value)
| LocalStoreOp (s : TypedValue RankedTensorType) (dst : Value)
| TMAStoreWaitOp (pendings : Z)
| FenceAsyncSharedOp (bCluster : bool)
| AsyncTMACopyLocalToGlobalOp (d : TypedValue TensorDescType)
                              (coord : list Value) (buffer : Value)
| AsyncTMAReduceOp (kind : DescriptorReduceKind)
                   (d : TypedValue TensorDescType)
                   (coord : list Value) (buffer : Value)
| AsyncTMAScatterOp (d : TypedValue TensorDescType)
                    (xOffsets yOffset : Value) (buffer : Value)
| OtherOp (name : string) (operands : list Value).

(** An operation: a region-free one, a nested [scf.for], or any other
    operation holding regions (whose operations are kept in walk order). *)
#[local] Unset Elimination Schemes.
Inductive Operation : Type :=
| Op (id : OpId) (k : OpKind)
| ForOp (id : OpId) (body : list Operation)
| RegionOp (id : OpId) (name : string) (nested : list Operation).
#[local] Set Elimination Schemes.

(** Induction over an operation tree, with the property of the nested
    operations available for both kinds of region holders. *)
Fixpoint Operation_tree_ind (P : Operation -> Prop)
    (HOp : forall id k, P (Op id k))
    (HFor : forall id body, Forall P body -> P (ForOp id body))
    (HRegion : forall id name nested, Forall P nested ->
                                      P (RegionOp id name nested))
    (o : Operation) {struct o} : P o :=
  let rec := Operation_tree_ind P HOp HFor HRegion in
  let all := fix all (l : list Operation) : Forall P l :=
               match l with
               | [] => List.Forall_nil P
               | x :: r => List.Forall_cons P x r (rec x) (all r)
               end in
  match o with
  | Op id k => HOp id k
  | ForOp id body => HFor id body (all body)
  | RegionOp id name nested => HRegion id name nested (all nested)
  end.

Definition opId (o : Operation) : OpId :=
  match o with
  | Op id _ => id
  | ForOp id _ => id
  | RegionOp id _ _ => id
  end.

(** ** The store collector *)

Record TMAStore : Type := {
  op : OpId;
  desc : TypedValue TensorDescType;
  src : TypedValue RankedTensorType
}.

(** [dyn_cast<tt::DescriptorStoreLikeOpInterface>]: the interface's
    [getDesc] and [getSrc], when the operation implements it. *)
Definition storeLike (k : OpKind)
  : option (TypedValue TensorDescType * TypedValue RankedTensorType) :=
  match k with
  | DescriptorStoreOp d s _ => Some (d, s)
  | DescriptorReduceOp _ d s _ => Some (d, s)
  | DescriptorScatterOp d _ _ s => Some (d, s)
  | OtherStoreLikeOp _ d s => Some (d, s)
  | _ => None
  end.

(** The pre-order walk with its callback: a store-like operation is pushed
    and the walk advances; a nested [scf.for] is skipped with its subtree;
    every other operation is descended into. *)
Fixpoint walk (o : Operation) : list TMAStore :=
  match o with
  | Op id k =>
      match storeLike k with
      | Some (d, s) => [ {| op := id; desc := d; src := s |} ]
      | None => []
      end
  | ForOp _ _ => []
  | RegionOp _ _ nested => flat_map walk nested
  end.

Definition getTMAStores (body : list Operation) : list TMAStore :=
  flat_map walk body.

(** ** Mutating the loop body *)

(** Identities of all operations of a subtree, in pre-order. *)
Fixpoint opIds (o : Operation) : list OpId :=
  match o with
  | Op id _ => [id]
  | ForOp id body => id :: flat_map opIds body
  | RegionOp id _ nested => id :: flat_map opIds nested
  end.

Definition allIds (l : list Operation) : list OpId := flat_map opIds l.

(** The first result a partial function yields along a list. *)
Definition firstSome {A B : Type} (f : A -> option B) : list A -> option B :=
  fix go (l : list A) : option B :=
    match l with
    | [] => None
    | x :: r => match f x with
                | Some y => Some y
                | None => go r
                end
    end.

(** Dereferencing an [Operation *]: the operation with that identity, if it
    is still part of the IR. *)
Fixpoint findIn (target : OpId) (o : Operation) : option Operation :=
  if decide (opId o = target) then Some o else
  match o with
  | Op _ _ => None
  | ForOp _ body => firstSome (findIn target) body
  | RegionOp _ _ nested => firstSome (findIn target) nested
  end.

Definition findOp (target : OpId) (l : list Operation) : option Operation :=
  firstSome (findIn target) l.

(** Insertion of [new] immediately before the operation identified by
    [target], wherever it sits in the tree. *)
Fixpoint insertBefore (target : OpId) (new : Operation) (o : Operation)
  : list Operation :=
  let o' := match o with
            | Op id k => Op id k
            | ForOp id body =>
                ForOp id (flat_map (insertBefore target new) body)
            | RegionOp id name nested =>
                RegionOp id name (flat_map (insertBefore target new) nested)
            end in
  if decide (opId o = target) then [new; o'] else [o'].

(** [Operation::erase]: the operation identified by [target] leaves the IR,
    together with whatever it holds. *)
Fixpoint eraseFrom (target : OpId) (o : Operation) : list Operation :=
  if decide (opId o = target) then [] else
  match o with
  | Op id k => [Op id k]
  | ForOp id body => [ForOp id (flat_map (eraseFrom target) body)]
  | RegionOp id name nested =>
      [RegionOp id name (flat_map (eraseFrom target) nested)]
  end.

(** ** The enclosing block, the builder and the transform's monad *)

(** [triton::CoarseSchedule], as far as this file constructs it. *)
Record CoarseSchedule : Type := { numStages : nat }.

(** What the transform does besides creating operations: the descriptor
    inspections it makes, the erasures, and the call of the
    descriptor-pipelining collaborator. *)
Inductive Event : Type :=
| EncodingFromDescriptor (store : OpId)
| HostSideTest (store : OpId)
| DescEncodingRead (store : OpId)
| Erased (id : OpId)
| LowerTMADescriptors (schedule : CoarseSchedule).

(** The block around the loop being pipelined, the loop body, the source of
    fresh operation identities, and the events so far (oldest first). *)
Record State : Type := {
  beforeLoop : list Operation;
  loopBody : list Operation;
  afterLoop : list Operation;
  nextId : OpId;
  events : list Event
}.

Inductive Failure : Type :=
| DanglingOperation (id : OpId)
| FailedCast (id : OpId)
| NullValue (id : OpId).

Inductive Outcome (A : Type) : Type :=
| Done (a : A) (st : State)
| Crash (f : Failure).
Arguments Done {A} _ _.
Arguments Crash {A} _.

Definition M (A : Type) : Type := State -> Outcome A.

Definition ret {A : Type} (a : A) : M A := fun st => Done a st.

Definition bind {A B : Type} (m : M A) (f : A -> M B) : M B :=
  fun st => match m st with
            | Done a st' => f a st'
            | Crash e => Crash e
            end.

Definition crash {A : Type} (e : Failure) : M A := fun _ => Crash e.

Declare Scope ir_scope.
Delimit Scope ir_scope with ir.
Notation "x <- m ;; k" := (bind m (fun x => k))
  (at level 100, m at next level, right associativity) : ir_scope.
Notation "m ;;; k" := (bind m (fun _ => k))
  (at level 100, right associativity) : ir_scope.
Open Scope ir_scope.

(** A range-based [for] over a container, for its effects. *)
Fixpoint forEach {A : Type} (l : list A) (f : A -> M unit) : M unit :=
  match l with
  | [] => ret tt
  | x :: r => f x ;;; forEach r f
  end.

(** A range-based [for] that updates local variables. *)
Fixpoint forFold {A S : Type} (l : list A) (f : S -> A -> M S) (acc : S)
  : M S :=
  match l with
  | [] => ret acc
  | x :: r => acc' <- f acc x ;; forFold r f acc'
  end.

(** [llvm::any_of]: stops at the first element satisfying the predicate. *)
Fixpoint any_of {A : Type} (l : list A) (p : A -> M bool) : M bool :=
  match l with
  | [] => ret false
  | x :: r => b <- p x ;; if b then ret true else any_of r p
  end.

Definition logEvent (e : Event) : M unit :=
  fun st => Done tt {| beforeLoop := beforeLoop st; loopBody := loopBody st;
                       afterLoop := afterLoop st; nextId := nextId st;
                       events := events st ++ [e] |}.

(** Dereferencing [store.op]. *)
Definition getOp (id : OpId) : M Operation :=
  fun st => match findOp id (loopBody st) with
            | Some o => Done o st
            | None => Crash (DanglingOperation id)
            end.

(** Where an [OpBuilder] inserts: before the loop, before an operation of
    the loop body, or before whatever followed the loop when the insertion
    point was set (kept as the distance of that place from the block's end,
    which insertions in front of it leave unchanged). *)
Inductive InsertPoint : Type :=
| BeforeLoop
| BeforeOp (target : OpId)
| AfterLoop (tail : nat).

(** [OpBuilder builder(op)] for an operation of the loop body. *)
Definition builderAt (id : OpId) : M InsertPoint :=
  _ <- getOp id ;; ret (BeforeOp id).

(** [builder.setInsertionPointAfter(forOp)]. *)
Definition setInsertionPointAfterLoop : M InsertPoint :=
  fun st => Done (AfterLoop (length (afterLoop st))) st.

Definition insertAtTail (tail : nat) (o : Operation) (l : list Operation)
  : list Operation :=
  take (length l - tail) l ++ o :: drop (length l - tail) l.

(** [builder.create<...>]: a new operation with a fresh identity, placed at
    the insertion point. *)
Definition create (builder : InsertPoint) (k : OpKind) : M OpId :=
  fun st =>
    let id := nextId st in
    let o := Op id k in
    Done id
      match builder with
      | BeforeLoop =>
          {| beforeLoop := beforeLoop st ++ [o]; loopBody := loopBody st;
             afterLoop := afterLoop st; nextId := S id;
             events := events st |}
      | BeforeOp target =>
          {| beforeLoop := beforeLoop st;
             loopBody := flat_map (insertBefore target o) (loopBody st);
             afterLoop := afterLoop st; nextId := S id;
             events := events st |}
      | AfterLoop tail =>
          {| beforeLoop := beforeLoop st; loopBody := loopBody st;
             afterLoop := insertAtTail tail o (afterLoop st); nextId := S id;
             events := events st |}
      end.

(** [op->erase()]. *)
Definition erase (id : OpId) : M unit :=
  fun st => Done tt {| beforeLoop := beforeLoop st;
                       loopBody := flat_map (eraseFrom id) (loopBody st);
                       afterLoop := afterLoop st; nextId := nextId st;
                       events := events st ++ [Erased id] |}.

(** ** Collaborators

    Functions of the repository that this file calls and does not define.
    [translateTMAIndices] receives the builder: besides the translated
    indices it yields the operations (name and operands) it creates through
    it, given the identity the first of them will get. *)
Class Collaborators : Type := {
  isHostSideDescriptor : TypedValue TensorDescType -> bool;
  getEncodingFromDescriptor :
    Operation -> RankedTensorType -> TypedValue TensorDescType -> Attribute;
  translateTMAIndices :
    Attribute -> list Value -> OpId ->
    list (string * list Value) * list Value
}.

Section Transform.
Context `{Collaborators}.

(** [getTMAStores(forOp)], run on the current loop body. *)
Definition getTMAStoresM : M (list TMAStore) :=
  fun st => Done (getTMAStores (loopBody st)) st.

Definition createAlloc (store : TMAStore) : M Value :=
  let builder := BeforeLoop in
  let ty := getType (src store) in
  o <- getOp (op store) ;;
  logEvent (EncodingFromDescriptor (op store)) ;;;
  let encoding := getEncodingFromDescriptor o ty (desc store) in
  let memdescType :=
    {| memShape := getShape ty; memElementType := getElementType ty;
       memEncoding := encoding; memMemorySpace := SharedMemorySpace;
       mutableMemory := true |} in
  alloc <- create builder (LocalAllocOp memdescType) ;;
  ret (OpResult alloc).

(** The call [ttng::translateTMAIndices(builder, loc, encoding, indices)]. *)
Definition translateTMAIndicesM (builder : InsertPoint)
    (encoding : Attribute) (indices : list Value) : M (list Value) :=
  fun st =>
    let '(created, translated) :=
      translateTMAIndices encoding indices (nextId st) in
    (forEach created
       (fun c => create builder (OtherOp (fst c) (snd c)) ;;; ret tt) ;;;
     ret translated) st.

Definition createTMAAsyncCopy (store : TMAStore) (alloc : Value) : M unit :=
  builder <- builderAt (op store) ;;
  create builder (TMAStoreWaitOp 0) ;;;
  create builder (LocalStoreOp (src store) alloc) ;;;
  create builder (FenceAsyncSharedOp false) ;;;
  let desc := desc store in
  o <- getOp (op store) ;;
  match o with
  | Op _ (DescriptorStoreOp d _ storeIndices) =>
      logEvent (DescEncodingRead (op store)) ;;;
      indices <- translateTMAIndicesM builder
                   (getEncoding (getBlockType (getType d))) storeIndices ;;
      create builder (AsyncTMACopyLocalToGlobalOp desc storeIndices alloc) ;;;
      ret tt
  | Op _ (DescriptorReduceOp kind d _ reduceIndices) =>
      logEvent (DescEncodingRead (op store)) ;;;
      indices <- translateTMAIndicesM builder
                   (getEncoding (getBlockType (getType d))) reduceIndices ;;
      create builder (AsyncTMAReduceOp kind desc reduceIndices alloc) ;;;
      ret tt
  | Op _ (DescriptorScatterOp _ xOffsets yOffset _) =>
      create builder (AsyncTMAScatterOp desc xOffsets yOffset alloc) ;;;
      ret tt
  | _ => crash (FailedCast (op store))
  end ;;;
  erase (op store).

(** The call of [triton::lowerTMADescriptors], a pass defined elsewhere, is
    recorded with its schedule; what that pass does to the loop is not
    modelled, so that the state after the call stands for the IR handed to
    the pass. *)
Definition lowerTMADescriptorCreation : M unit :=
  let schedule := {| numStages := 3 |} in
  logEvent (LowerTMADescriptors schedule).

(** The two maps of [pipelineTMAStores]. *)
Record Allocations : Type := {
  storeToAlloc : gmap nat Value;
  allocs : gmap (list Z * string) Value
}.

(** One iteration of the allocation loop. *)
Definition assignAlloc (maps : Allocations) (store : TMAStore)
  : M Allocations :=
  let srcTy := getType (src store) in
  let key := (getShape srcTy, getElementType srcTy) in
  match allocs maps !! key with
  | Some alloc =>
      ret {| storeToAlloc := <[op store := alloc]> (storeToAlloc maps);
             allocs := allocs maps |}
  | None =>
      alloc <- createAlloc store ;;
      ret {| storeToAlloc := <[op store := alloc]> (storeToAlloc maps);
             allocs := <[key := alloc]> (allocs maps) |}
  end.

(** [storeToAlloc[store.op]], a null [Value] being unusable. *)
Definition allocOf (maps : Allocations) (store : TMAStore) : M Value :=
  match storeToAlloc maps !! op store with
  | Some alloc => ret alloc
  | None => crash (NullValue (op store))
  end.

Definition pipelineTMAStores : M bool :=
  tmaStores <- getTMAStoresM ;;
  match tmaStores with
  | [] => ret false
  | _ :: _ =>
      maps <- forFold tmaStores assignAlloc
                {| storeToAlloc := ∅; allocs := ∅ |} ;;
      hasDeviceSideTMA <-
        any_of tmaStores
          (fun store =>
             logEvent (HostSideTest (op store)) ;;;
             ret (negb (isHostSideDescriptor (desc store)))) ;;
      forEach tmaStores
        (fun store =>
           alloc <- allocOf maps store ;; createTMAAsyncCopy store alloc) ;;;
      builder <- setInsertionPointAfterLoop ;;
      create builder (TMAStoreWaitOp 0) ;;;
      forEach (map_to_list (storeToAlloc maps))
        (fun it => create builder (LocalDeallocOp (snd it)) ;;; ret tt) ;;;
      (if hasDeviceSideTMA then lowerTMADescriptorCreation else ret tt) ;;;
      ret true
  end.

End Transform.

(** ** A sample instance of the collaborators and sample loops *)

(** An instance in which descriptors that are block arguments are host-side,
    the buffer encoding is that of the source tensor, and index translation
    doubles the last index, through a constant and a multiplication that it
    creates with the builder, when the descriptor's encoding is 1 (as for a
    layout that packs two elements into each coordinate step); it is the
    identity, and creates nothing, otherwise. *)
Definition sampleTranslate (encoding : Attribute) (indices : list Value)
    (next : OpId) : list (string * list Value) * list Value :=
  match encoding, reverse indices with
  | 1, last :: front =>
      ([("arith.constant"%string, []);
        ("arith.muli"%string, [last; OpResult next])],
       reverse front ++ [OpResult (S next)])
  | _, _ => ([], indices)
  end.

Definition sampleCollaborators : Collaborators := {|
  isHostSideDescriptor d :=
    match value d with BlockArgument _ => true | OpResult _ => false end;
  getEncodingFromDescriptor _ ty _ := getEncoding ty;
  translateTMAIndices := sampleTranslate
|}.

Definition tensorTy (shape : list Z) (elt : string) : RankedTensorType :=
  {| getShape := shape; getElementType := elt; getEncoding := 0 |}.

Definition hostDesc (n : nat) (enc : Attribute) : TypedValue TensorDescType :=
  {| value := BlockArgument n;
     getType := {| getBlockType :=
                     {| getShape := [64%Z; 64%Z]; getElementType := "f16";
                        getEncoding := enc |} |} |}.

Definition deviceDesc (owner : OpId) : TypedValue TensorDescType :=
  {| value := OpResult owner;
     getType := {| getBlockType :=
                     {| getShape := [64%Z; 64%Z]; getElementType := "f16";
                        getEncoding := 0 |} |} |}.

Definition tile (n : nat) (shape : list Z) (elt : string)
  : TypedValue RankedTensorType :=
  {| value := BlockArgument n; getType := tensorTy shape elt |}.

Definition stateOf (body : list Operation) (next : OpId) : State :=
  {| beforeLoop := []; loopBody := body; afterLoop := []; nextId := next;
     events := [] |}.

(** Two plain stores of 64x64 f16 tiles and a scatter of a 32x64 f16 tile. *)
Definition sampleBody : list Operation :=
  [ Op 0 (DescriptorStoreOp (hostDesc 0 0) (tile 10 [64%Z; 64%Z] "f16")
            [BlockArgument 20; BlockArgument 21]);
    RegionOp 1 "scf.if"
      [ Op 2 (DescriptorStoreOp (hostDesc 1 0) (tile 11 [64%Z; 64%Z] "f16")
                [BlockArgument 22; BlockArgument 23]) ];
    ForOp 3
      [ Op 4 (DescriptorStoreOp (hostDesc 0 0) (tile 12 [64%Z; 64%Z] "f16")
                [BlockArgument 24; BlockArgument 25]) ];
    Op 5 (DescriptorScatterOp (hostDesc 2 0) (BlockArgument 26)
            (BlockArgument 27) (tile 13 [32%Z; 64%Z] "f16")) ].

(** ** Vocabulary of the properties *)

(** The operations [news] placed before every operation identified by
    [target]; that operation is kept (with its regions treated likewise) or
    dropped. *)
Fixpoint spliceOp (target : OpId) (news : list Operation) (keep : bool)
    (o : Operation) : list Operation :=
  let o' := match o with
            | Op id k => Op id k
            | ForOp id body =>
                ForOp id (flat_map (spliceOp target news keep) body)
            | RegionOp id name nested =>
                RegionOp id name (flat_map (spliceOp target news keep) nested)
            end in
  if decide (opId o = target)
  then news ++ (if keep then [o'] else [])
  else [o'].

(** [ReplacedBy t k news l l']: the list [l'] is [l] with the region-free
    operation [Op t k], which lies outside every nested loop and is the only
    operation of [l] identified by [t], replaced on the spot by the
    operations [news]. *)
Inductive ReplacedBy (t : OpId) (k : OpKind) (news : list Operation)
  : list Operation -> list Operation -> Prop :=
| ReplacedHere (l1 l2 : list Operation) :
    t ∉ allIds l1 -> t ∉ allIds l2 ->
    ReplacedBy t k news (l1 ++ Op t k :: l2) (l1 ++ news ++ l2)
| ReplacedInRegion (l1 l2 : list Operation) (id : OpId) (name : string)
      (nested nested' : list Operation) :
    t ∉ allIds l1 -> t ∉ allIds l2 -> id ≠ t ->
    ReplacedBy t k news nested nested' ->
    ReplacedBy t k news (l1 ++ RegionOp id name nested :: l2)
                        (l1 ++ RegionOp id name nested' :: l2).

(** Number of region-free operations satisfying [p] in a whole subtree. *)
Fixpoint countIn (p : OpKind -> bool) (o : Operation) : nat :=
  match o with
  | Op _ k => if p k then 1 else 0
  | ForOp _ body => list_sum (map (countIn p) body)
  | RegionOp _ _ nested => list_sum (map (countIn p) nested)
  end.

Definition countOps (p : OpKind -> bool) (l : list Operation) : nat :=
  list_sum (map (countIn p) l).

(** The same count, leaving out what lies inside nested [scf.for] loops. *)
Fixpoint countOutsideIn (p : OpKind -> bool) (o : Operation) : nat :=
  match o with
  | Op _ k => if p k then 1 else 0
  | ForOp _ _ => 0
  | RegionOp _ _ nested => list_sum (map (countOutsideIn p) nested)
  end.

Definition countOutside (p : OpKind -> bool) (l : list Operation) : nat :=
  list_sum (map (countOutsideIn p) l).

Definition isPlainStore (k : OpKind) : bool :=
  match k with DescriptorStoreOp _ _ _ => true | _ => false end.
Definition isReduceStore (k : OpKind) : bool :=
  match k with DescriptorReduceOp _ _ _ _ => true | _ => false end.
Definition isScatterStore (k : OpKind) : bool :=
  match k with DescriptorScatterOp _ _ _ _ => true | _ => false end.
Definition isUnknownStore (k : OpKind) : bool :=
  match k with OtherStoreLikeOp _ _ _ => true | _ => false end.
Definition isStoreLike (k : OpKind) : bool :=
  match storeLike k with Some _ => true | None => false end.

Definition isAsyncCopy (k : OpKind) : bool :=
  match k with AsyncTMACopyLocalToGlobalOp _ _ _ => true | _ => false end.
Definition isAsyncReduce (k : OpKind) : bool :=
  match k with AsyncTMAReduceOp _ _ _ _ => true | _ => false end.
Definition isAsyncScatter (k : OpKind) : bool :=
  match k with AsyncTMAScatterOp _ _ _ _ => true | _ => false end.
Definition isIssue (k : OpKind) : bool :=
  isAsyncCopy k || isAsyncReduce k || isAsyncScatter k.
Definition isOtherOp (k : OpKind) : bool :=
  match k with OtherOp _ _ => true | _ => false end.

(** The store is one of the three operations the rewriter names. *)
Definition knownVariant (k : OpKind) : bool :=
  isPlainStore k || isReduceStore k || isScatterStore k.

(** Operation identities are pairwise distinct in the loop body, and the
    source of fresh identities lies above all of them. *)
Definition wellFormed (st : State) : Prop :=
  NoDup (allIds (loopBody st)) /\
  Forall (fun id => id < nextId st) (allIds (loopBody st)).

(** The key of the [allocs] map for a store. *)
Definition keyOf (store : TMAStore) : list Z * string :=
  (getShape (getType (src store)), getElementType (getType (src store))).

(** A state that differs in its loop body, identity source and events. *)
Definition withBody (st : State) (body : list Operation) (n : OpId)
    (ev : list Event) : State :=
  {| beforeLoop := beforeLoop st; loopBody := body; afterLoop := afterLoop st;
     nextId := n; events := ev |}.

(** The descriptor inspections the rewriter makes for a store of kind [k]. *)
Definition descReads (k : OpKind) (t : OpId) : list Event :=
  match k with
  | DescriptorStoreOp _ _ _ => [DescEncodingRead t]
  | DescriptorReduceOp _ _ _ _ => [DescEncodingRead t]
  | _ => []
  end.

Section Sequences.
Context `{Collaborators}.

(** The operations an index translation creates, with their identities. *)
Definition translationOps (encoding : Attribute) (indices : list Value)
    (first : OpId) : list Operation :=
  imap (fun i c => Op (first + i) (OtherOp (fst c) (snd c)))
       (fst (translateTMAIndices encoding indices first)).

(** The indices an index translation yields. *)
Definition translated (encoding : Attribute) (indices : list Value)
    (first : OpId) : list Value :=
  snd (translateTMAIndices encoding indices first).

Definition descEncoding (d : TypedValue TensorDescType) : Attribute :=
  getEncoding (getBlockType (getType d)).

(** What precedes the issue, after the fence, for each variant. *)
Definition translationFor (k : OpKind) (first : OpId) : list Operation :=
  match k with
  | DescriptorStoreOp d _ indices =>
      translationOps (descEncoding d) indices first
  | DescriptorReduceOp _ d _ indices =>
      translationOps (descEncoding d) indices first
  | _ => []
  end.

(** The issue operation of each variant, as the rewriter builds it. *)
Definition issueFor (store : TMAStore) (alloc : Value) (k : OpKind)
  : OpKind :=
  match k with
  | DescriptorStoreOp _ _ indices =>
      AsyncTMACopyLocalToGlobalOp (desc store) indices alloc
  | DescriptorReduceOp kind _ _ indices =>
      AsyncTMAReduceOp kind (desc store) indices alloc
  | DescriptorScatterOp _ xOffsets yOffset _ =>
      AsyncTMAScatterOp (desc store) xOffsets yOffset alloc
  | other => other
  end.

Definition asyncSequence (store : TMAStore) (alloc : Value) (k : OpKind)
    (n : OpId) : list Operation :=
  [ Op n (TMAStoreWaitOp 0);
    Op (S n) (LocalStoreOp (src store) alloc);
    Op (S (S n)) (FenceAsyncSharedOp false) ] ++
  translationFor k (3 + n) ++
  [ Op (3 + n + length (translationFor k (3 + n))) (issueFor store alloc k) ].
End Sequences.

(** The events of the rewriting loop: per store, in order, the read of the
    descriptor's encoding (when the variant translates indices) and the
    erasure. *)
Definition rewriteEvents (l : list (TMAStore * bool)) : list Event :=
  flat_map (fun sr : TMAStore * bool =>
              (if snd sr then [DescEncodingRead (op (fst sr))] else []) ++
              [Erased (op (fst sr))]) l.

(** [p] recognises the issue operation built for the stores that [q]
    recognises, and nothing else the rewriter deals with. *)
Definition issuePair (p q : OpKind -> bool) : Prop :=
  (forall (s : TMAStore) (a : Value) (k : OpKind),
     knownVariant k = true -> p (issueFor s a k) = q k) /\
  (forall k, isStoreLike k = true -> p k = false) /\
  (forall k, q k = true -> isStoreLike k = true) /\
  p (TMAStoreWaitOp 0) = false /\
  (forall s a, p (LocalStoreOp s a) = false) /\
  p (FenceAsyncSharedOp false) = false /\
  (forall name operands, p (OtherOp name operands) = false).

(** A state that differs in what precedes the loop and in its identity
    source. *)
Definition withBefore (st : State) (before : list Operation) (n : OpId)
  : State :=
  {| beforeLoop := before; loopBody := loopBody st; afterLoop := afterLoop st;
     nextId := n; events := events st |}.

(** A state that differs in what follows the loop and in its identity
    source. *)
Definition withAfter (st : State) (after : list Operation) (n : OpId)
  : State :=
  {| beforeLoop := beforeLoop st; loopBody := loopBody st; afterLoop := after;
     nextId := n; events := events st |}.

(** [o] is the allocation of the staging buffer that [allocs] holds for its
    shape and element type: mutable, in shared memory. *)
Definition allocatedFor (maps : Allocations) (o : Operation) : Prop :=
  exists id ty,
    o = Op id (LocalAllocOp ty) /\
    mutableMemory ty = true /\ memMemorySpace ty = SharedMemorySpace /\
    allocs maps !! (memShape ty, memElementType ty) = Some (OpResult id).

(** What holds of the two maps and of the state after the allocation loop
    has gone through the stores [seen], having started in [st0]. *)
Definition allocInv (st0 : State) (seen : list TMAStore) (maps : Allocations)
    (st : State) : Prop :=
  loopBody st = loopBody st0 /\ afterLoop st = afterLoop st0 /\
  (exists reads,
      events st = events st0 ++ reads /\
      Forall (fun e => exists s, s ∈ seen /\
                                 e = EncodingFromDescriptor (op s)) reads) /\
  (exists created,
      beforeLoop st = beforeLoop st0 ++ created /\
      length created = size (allocs maps) /\
      Forall (allocatedFor maps) created /\
      nextId st = nextId st0 + length created) /\
  dom (allocs maps) = list_to_set (keyOf <$> seen) /\
  dom (storeToAlloc maps) = list_to_set (op <$> seen) /\
  (forall s, s ∈ seen -> storeToAlloc maps !! op s = allocs maps !! keyOf s) /\
  (forall k a, allocs maps !! k = Some a ->
               exists id, a = OpResult id /\ nextId st0 <= id < nextId st) /\
  (forall k1 k2 a, allocs maps !! k1 = Some a -> allocs maps !! k2 = Some a ->
                   k1 = k2).

(** The stores whose descriptor [llvm::any_of] tests: up to and including
    the first device-side one. *)
Fixpoint tested `{Collaborators} (l : list TMAStore) : list TMAStore :=
  match l with
  | [] => []
  | s :: r => s :: (if isHostSideDescriptor (desc s) then tested r else [])
  end.

(** Whether some store's descriptor is device-side. *)
Definition anyDeviceSide `{Collaborators} (l : list TMAStore) : bool :=
  existsb (fun s => negb (isHostSideDescriptor (desc s))) l.

(** [Rewrites maps stores n l l']: the body [l'] arises from [l] by replacing
    the stores, in their order, each on the spot by the sequence that stages
    it into its buffer of [storeToAlloc], identities being drawn from [n]
    on. *)
Inductive Rewrites `{Collaborators} (maps : Allocations)
  : list TMAStore -> OpId -> list Operation -> list Operation -> Prop :=
| RewritesNil (n : OpId) (l : list Operation) : Rewrites maps [] n l l
| RewritesCons (s : TMAStore) (rest : list TMAStore) (n : OpId)
      (l l1 l' : list Operation) (k : OpKind) (alloc : Value) :
    storeToAlloc maps !! op s = Some alloc ->
    storeLike k = Some (desc s, src s) ->
    ReplacedBy (op s) k (asyncSequence s alloc k n) l l1 ->
    Rewrites maps rest (n + length (asyncSequence s alloc k n)) l1 l' ->
    Rewrites maps (s :: rest) n l l'.

(** [Reached id k l]: the region-free operation [Op id k] occurs in [l]
    outside every nested [scf.for], at any depth of other regions. *)
Inductive Reached (id : OpId) (k : OpKind) : list Operation -> Prop :=
| ReachedHere (l1 l2 : list Operation) : Reached id k (l1 ++ Op id k :: l2)
| ReachedInRegion (l1 l2 : list Operation) (rid : OpId) (name : string)
      (nested : list Operation) :
    Reached id k nested ->
    Reached id k (l1 ++ RegionOp rid name nested :: l2).

(** [InNestedLoop x l]: the operation identified by [x] lies in the body of
    an [scf.for] of [l], at any depth.  Loops of other kinds are region
    holders like any other and do not count. *)
Inductive InNestedLoop (x : OpId) : list Operation -> Prop :=
| InLoopBody (l1 l2 : list Operation) (id : OpId) (body : list Operation) :
    x ∈ allIds body -> InNestedLoop x (l1 ++ ForOp id body :: l2)
| InLoopRegion (l1 l2 : list Operation) (id : OpId) (name : string)
      (nested : list Operation) :
    InNestedLoop x nested ->
    InNestedLoop x (l1 ++ RegionOp id name nested :: l2).

(** The stores erased along a run, in order. *)
Definition erasures (l : list Event) : list OpId :=
  omap (fun e => match e with Erased t => Some t | _ => None end) l.

(** The schedules the descriptor-pipelining collaborator was called with. *)
Definition lowerings (l : list Event) : list CoarseSchedule :=
  omap (fun e => match e with
                 | LowerTMADescriptors sch => Some sch
                 | _ => None
                 end) l.

Definition isHostSideTest (e : Event) : bool :=
  match e with HostSideTest _ => true | _ => false end.

(** Along the events [l], no descriptor of a store is inspected once that
    store has been erased; [erased] holds the stores erased before [l]. *)
Fixpoint inspectsLive (erased : list OpId) (l : list Event) : Prop :=
  match l with
  | [] => True
  | EncodingFromDescriptor t :: r => (t ∉ erased) /\ inspectsLive erased r
  | HostSideTest t :: r => (t ∉ erased) /\ inspectsLive erased r
  | DescEncodingRead t :: r => (t ∉ erased) /\ inspectsLive erased r
  | Erased t :: r => inspectsLive (t :: erased) r
  | LowerTMADescriptors _ :: r => inspectsLive erased r
  end.

Definition isFence (k : OpKind) : bool :=
  match k with FenceAsyncSharedOp _ => true | _ => false end.

Definition isLocalStore (k : OpKind) : bool :=
  match k with LocalStoreOp _ _ => true | _ => false end.

Definition isLocalAlloc (k : OpKind) : bool :=
  match k with LocalAllocOp _ => true | _ => false end.

(** Some operation of [l] whose kind satisfies [p] has an immediate
    successor in [l] whose kind satisfies [q]. *)
Fixpoint directlyFollowed (p q : OpKind -> bool) (l : list Operation) : bool :=
  match l with
  | Op _ k1 :: ((Op _ k2 :: _) as r) =>
      (p k1 && q k2) || directlyFollowed p q r
  | _ :: r => directlyFollowed p q r
  | [] => false
  end.

(** The buffers deallocated by the operations of [l], in order. *)
Definition deallocated (l : list Operation) : list Value :=
  omap (fun o => match o with
                 | Op _ (LocalDeallocOp v) => Some v
                 | _ => None
                 end) l.

(** A plain store through a descriptor whose encoding (1) makes the sample
    index translation create operations. *)
Definition paddedStore : TMAStore :=
  {| op := 0; desc := hostDesc 0 1; src := tile 10 [64%Z; 64%Z] "f16" |}.

Definition paddedLoop : State :=
  stateOf [ Op 0 (DescriptorStoreOp (hostDesc 0 1)
                    (tile 10 [64%Z; 64%Z] "f16")
                    [BlockArgument 20; BlockArgument 21]) ] 1.

(** Two plain stores of tiles of one shape and element type. *)
Definition twinLoop : State :=
  stateOf [ Op 0 (DescriptorStoreOp (hostDesc 0 0)
                    (tile 10 [64%Z; 64%Z] "f16")
                    [BlockArgument 20; BlockArgument 21]);
            Op 1 (DescriptorStoreOp (hostDesc 1 0)
                    (tile 11 [64%Z; 64%Z] "f16")
                    [BlockArgument 22; BlockArgument 23]) ] 2.

(** The sample body as a state, and a body without any store outside its
    nested loop. *)
Definition sampleLoop : State := stateOf sampleBody 6.

Definition storelessLoop : State :=
  stateOf [ Op 0 (OtherOp "arith.addf" [BlockArgument 0; BlockArgument 1]);
            ForOp 1 [ Op 2 (DescriptorStoreOp (hostDesc 0 0)
                              (tile 10 [64%Z; 64%Z] "f16")
                              [BlockArgument 20; BlockArgument 21]) ] ] 3.

(** A store-like operation that is none of the three variants. *)
Definition foreignLoop : State :=
  stateOf [ Op 0 (OtherStoreLikeOp "tt.experimental_descriptor_store"
                    (hostDesc 0 0) (tile 10 [64%Z; 64%Z] "f16")) ] 1.

(** A plain store, a reduction through a descriptor made inside the loop,
    and a scatter. *)
Definition deviceLoop : State :=
  stateOf [ Op 0 (OtherOp "tt.make_tensor_descriptor" [BlockArgument 0]);
            Op 1 (DescriptorStoreOp (hostDesc 0 0)
                    (tile 10 [64%Z; 64%Z] "f16")
                    [BlockArgument 20; BlockArgument 21]);
            Op 2 (DescriptorReduceOp ADD (deviceDesc 0)
                    (tile 11 [64%Z; 64%Z] "f16")
                    [BlockArgument 22; BlockArgument 23]);
            Op 3 (DescriptorScatterOp (hostDesc 1 0) (BlockArgument 24)
                    (BlockArgument 25) (tile 12 [32%Z; 64%Z] "f16")) ] 4.

(** ** Vocabulary of the further properties *)

Definition isWaitForZero (k : OpKind) : bool :=
  match k with TMAStoreWaitOp p => bool_decide (p = 0%Z) | _ => false end.

(** The operations of a subtree whose identity does not satisfy [drop],
    each with its regions treated likewise. *)
Fixpoint dropFrom (drop : OpId -> bool) (o : Operation) : list Operation :=
  if drop (opId o) then [] else
  match o with
  | Op id k => [Op id k]
  | ForOp id body => [ForOp id (flat_map (dropFrom drop) body)]
  | RegionOp id name nested =>
      [RegionOp id name (flat_map (dropFrom drop) nested)]
  end.

Definition dropOps (drop : OpId -> bool) (l : list Operation)
  : list Operation :=
  flat_map (dropFrom drop) l.

(** The stores of [l] that are the first with their key, in order; [seen]
    holds the keys met before [l]. *)
Fixpoint leadersFrom (seen : list (list Z * string)) (l : list TMAStore)
  : list TMAStore :=
  match l with
  | [] => []
  | s :: r =>
      if decide (keyOf s ∈ seen) then leadersFrom seen r
      else s :: leadersFrom (keyOf s :: seen) r
  end.

Definition leaders (l : list TMAStore) : list TMAStore := leadersFrom [] l.

(** The type of the buffer that [createAlloc] makes for [store], whose
    operation a dereference finds to be [found]. *)
Definition bufferTypeFor `{Collaborators} (found : Operation)
    (store : TMAStore) : MemDescType :=
  {| memShape := getShape (getType (src store));
     memElementType := getElementType (getType (src store));
     memEncoding :=
       getEncodingFromDescriptor found (getType (src store)) (desc store);
     memMemorySpace := SharedMemorySpace;
     mutableMemory := true |}.

(** [o] allocates the buffer that [allocs] holds for the key of [store],
    with the type that [createAlloc] gives it for this very store, an
    operation of [body]. *)
Definition AllocatedBy `{Collaborators} (body : list Operation)
    (maps : Allocations) (store : TMAStore) (o : Operation) : Prop :=
  exists id k,
    findOp (op store) body = Some (Op (op store) k) /\
    o = Op id (LocalAllocOp (bufferTypeFor (Op (op store) k) store)) /\
    allocs maps !! keyOf store = Some (OpResult id).

(** After the allocation loop has gone through [seen], what it has put
    before the loop is one allocation per first store of a key, in order. *)
Definition ledBy `{Collaborators} (st0 : State) (seen : list TMAStore)
    (maps : Allocations) (st : State) : Prop :=
  exists created,
    beforeLoop st = beforeLoop st0 ++ created /\
    Forall2 (AllocatedBy (loopBody st0) maps) (leaders seen) created.

(** The buffers allocated by the operations of [l], in order. *)
Definition allocatedBuffers (l : list Operation) : list Value :=
  omap (fun o => match o with
                 | Op id (LocalAllocOp _) => Some (OpResult id)
                 | _ => None
                 end) l.

(** The store is a store-like operation of [body] that is none of the
    three variants the rewriter names. *)
Definition foreign (body : list Operation) (store : TMAStore) : bool :=
  match findOp (op store) body with
  | Some (Op _ k) => isUnknownStore k
  | _ => false
  end.

(** A plain store followed by a store-like operation that is none of the
    three variants. *)
Definition mixedLoop : State :=
  stateOf [ Op 0 (DescriptorStoreOp (hostDesc 0 0)
                    (tile 10 [64%Z; 64%Z] "f16")
                    [BlockArgument 20; BlockArgument 21]);
            Op 1 (OtherStoreLikeOp "tt.experimental_descriptor_store"
                    (hostDesc 1 0) (tile 11 [64%Z; 64%Z] "f16")) ] 2.

(** A plain store inside a nested [scf.while], a loop that is not an
    [scf.for]. *)
Definition whileLoop : State :=
  stateOf [ RegionOp 0 "scf.while"
              [ Op 1 (DescriptorStoreOp (hostDesc 0 0)
                        (tile 10 [64%Z; 64%Z] "f16")
                        [BlockArgument 20; BlockArgument 21]) ] ] 2.

(** Deciding a decidable proposition about a sample by evaluation. *)
Ltac decide_by_computation :=
  apply (bool_decide_unpack _); vm_compute; exact I.

Ltac solve_wellFormed := split; decide_by_computation.

(** * Properties *)

(** ** Lists of operations *)

Lemma flat_map_single {A : Type} (f : A -> list A) (l : list A) :
  Forall (fun x => f x = [x]) l -> flat_map f l = l.
Proof.
  induction 1 as [|x r Hx _ IH]; simpl; [done|]. by rewrite Hx, IH.
Qed.

Lemma flat_map_agree {A B : Type} (f g : A -> list B) (l : list A) :
  Forall (fun x => f x = g x) l -> flat_map f l = flat_map g l.
Proof.
  induction 1 as [|x r Hx _ IH]; simpl; [done|]. by rewrite Hx, IH.
Qed.

Lemma allIds_app (l1 l2 : list Operation) :
  allIds (l1 ++ l2) = allIds l1 ++ allIds l2.
Proof. apply flat_map_app. Qed.

Lemma allIds_cons (o : Operation) (l : list Operation) :
  allIds (o :: l) = opIds o ++ allIds l.
Proof. reflexivity. Qed.

Lemma countOps_app (p : OpKind -> bool) (l1 l2 : list Operation) :
  countOps p (l1 ++ l2) = countOps p l1 + countOps p l2.
Proof. unfold countOps. by rewrite map_app, list_sum_app. Qed.

Lemma countOutside_app (p : OpKind -> bool) (l1 l2 : list Operation) :
  countOutside p (l1 ++ l2) = countOutside p l1 + countOutside p l2.
Proof. unfold countOutside. by rewrite map_app, list_sum_app. Qed.

Lemma getTMAStores_app (l1 l2 : list Operation) :
  getTMAStores (l1 ++ l2) = getTMAStores l1 ++ getTMAStores l2.
Proof. apply flat_map_app. Qed.

(** ** Dereferencing *)

Lemma findIn_None (t : OpId) (o : Operation) :
  findIn t o = None <-> t ∉ opIds o.
Proof.
  induction o as [id k | id body IH | id name nested IH]
    using Operation_tree_ind; simpl.
  - case_decide; set_solver.
  - case_decide as Hid; [set_solver|].
    rewrite not_elem_of_cons. fold (allIds body).
    enough (firstSome (findIn t) body = None <-> t ∉ allIds body) by naive_solver.
    clear Hid. induction IH as [|x r Hx _ IHr]; [set_solver|].
    rewrite allIds_cons, not_elem_of_app, <- Hx, <- IHr. simpl.
    destruct (findIn t x); naive_solver.
  - case_decide as Hid; [set_solver|].
    rewrite not_elem_of_cons. fold (allIds nested).
    enough (firstSome (findIn t) nested = None <-> t ∉ allIds nested)
      by naive_solver.
    clear Hid. induction IH as [|x r Hx _ IHr]; [set_solver|].
    rewrite allIds_cons, not_elem_of_app, <- Hx, <- IHr. simpl.
    destruct (findIn t x); naive_solver.
Qed.

Lemma findOp_None (t : OpId) (l : list Operation) :
  findOp t l = None <-> t ∉ allIds l.
Proof.
  unfold findOp. induction l as [|x r IH]; [set_solver|].
  rewrite allIds_cons, not_elem_of_app, <- findIn_None, <- IH. simpl.
  destruct (findIn t x); naive_solver.
Qed.

Lemma findOp_cons (t : OpId) (o : Operation) (l : list Operation) :
  findOp t (o :: l) =
  match findIn t o with Some y => Some y | None => findOp t l end.
Proof. reflexivity. Qed.

(** ** Splicing *)

Lemma spliceOp_absent (t : OpId) (news : list Operation) (keep : bool)
    (o : Operation) :
  t ∉ opIds o -> spliceOp t news keep o = [o].
Proof.
  induction o as [id k | id body IH | id name nested IH]
    using Operation_tree_ind; simpl; intros Hni.
  - case_decide; [set_solver|done].
  - case_decide; [set_solver|]. do 2 f_equal.
    apply flat_map_single. apply not_elem_of_cons in Hni as [_ Hni].
    induction IH as [|x r Hx _ IHr]; [constructor|].
    simpl in Hni. apply not_elem_of_app in Hni as [? ?].
    constructor; auto.
  - case_decide; [set_solver|]. do 2 f_equal.
    apply flat_map_single. apply not_elem_of_cons in Hni as [_ Hni].
    induction IH as [|x r Hx _ IHr]; [constructor|].
    simpl in Hni. apply not_elem_of_app in Hni as [? ?].
    constructor; auto.
Qed.

Lemma splice_absent (t : OpId) (news : list Operation) (keep : bool)
    (l : list Operation) :
  t ∉ allIds l -> flat_map (spliceOp t news keep) l = l.
Proof.
  intros Hni. apply flat_map_single.
  induction l as [|x r IH]; [constructor|].
  rewrite allIds_cons in Hni. apply not_elem_of_app in Hni as [? ?].
  constructor; auto using spliceOp_absent.
Qed.

Lemma insertBefore_splice (t : OpId) (new o : Operation) :
  insertBefore t new o = spliceOp t [new] true o.
Proof.
  induction o as [id k | id body IH | id name nested IH]
    using Operation_tree_ind; simpl.
  - done.
  - by rewrite (flat_map_agree _ _ _ IH).
  - by rewrite (flat_map_agree _ _ _ IH).
Qed.

Lemma eraseFrom_splice (t : OpId) (o : Operation) :
  eraseFrom t o = spliceOp t [] false o.
Proof.
  induction o as [id k | id body IH | id name nested IH]
    using Operation_tree_ind; simpl.
  - done.
  - by rewrite (flat_map_agree _ _ _ IH).
  - by rewrite (flat_map_agree _ _ _ IH).
Qed.

Lemma flat_map_flat_map {A : Type} (f g h : A -> list A) (l : list A) :
  Forall (fun x => flat_map g (f x) = h x) l ->
  flat_map g (flat_map f l) = flat_map h l.
Proof.
  induction 1 as [|x r Hx _ IH]; simpl; [done|].
  by rewrite flat_map_app, Hx, IH.
Qed.

Lemma spliceOp_spliceOp (t : OpId) (pre1 pre2 : list Operation)
    (keep : bool) (o : Operation) :
  t ∉ allIds pre1 ->
  flat_map (spliceOp t pre2 keep) (spliceOp t pre1 true o) =
  spliceOp t (pre1 ++ pre2) keep o.
Proof.
  intros Hpre.
  induction o as [id k | id body IH | id name nested IH]
    using Operation_tree_ind; simpl.
  - case_decide as Hid.
    + rewrite flat_map_app, (splice_absent _ _ _ _ Hpre). simpl.
      rewrite decide_True by done. by rewrite app_nil_r, app_assoc.
    + simpl. rewrite decide_False by done. done.
  - rewrite <- (flat_map_flat_map _ _ _ _ IH). case_decide as Hid.
    + rewrite flat_map_app, (splice_absent _ _ _ _ Hpre). simpl.
      rewrite decide_True by done. by rewrite app_nil_r, app_assoc.
    + simpl. rewrite decide_False by done. done.
  - rewrite <- (flat_map_flat_map _ _ _ _ IH). case_decide as Hid.
    + rewrite flat_map_app, (splice_absent _ _ _ _ Hpre). simpl.
      rewrite decide_True by done. by rewrite app_nil_r, app_assoc.
    + simpl. rewrite decide_False by done. done.
Qed.

Lemma splice_splice (t : OpId) (pre1 pre2 : list Operation) (keep : bool)
    (l : list Operation) :
  t ∉ allIds pre1 ->
  flat_map (spliceOp t pre2 keep) (flat_map (spliceOp t pre1 true) l) =
  flat_map (spliceOp t (pre1 ++ pre2) keep) l.
Proof.
  intros Hpre. apply flat_map_flat_map.
  apply Forall_forall. intros o _. by apply spliceOp_spliceOp.
Qed.

Lemma allIds_splice_Forall (t : OpId) (news : list Operation) (keep : bool)
    (l : list Operation) (x : OpId) :
  Forall (fun o => x ∈ allIds (spliceOp t news keep o) ->
                   x ∈ opIds o \/ x ∈ allIds news) l ->
  x ∈ allIds (flat_map (spliceOp t news keep) l) ->
  x ∈ allIds l \/ x ∈ allIds news.
Proof.
  induction 1 as [|y r Hy _ IHr]; [set_solver|].
  simpl flat_map. rewrite allIds_app, allIds_cons. set_solver.
Qed.

Lemma opIds_spliceOp (t : OpId) (news : list Operation) (keep : bool)
    (o : Operation) (x : OpId) :
  x ∈ allIds (spliceOp t news keep o) -> x ∈ opIds o \/ x ∈ allIds news.
Proof.
  induction o as [id k | id body IH | id name nested IH]
    using Operation_tree_ind.
  - simpl. case_decide; destruct keep; rewrite ?allIds_app; simpl; set_solver.
  - pose proof (allIds_splice_Forall _ _ _ _ _ IH) as Hb. clear IH.
    revert Hb.
    cbn [spliceOp opId opIds]. fold (allIds body).
    case_decide; destruct keep; rewrite ?allIds_app, ?allIds_cons;
      cbn [opIds allIds flat_map];
      fold (allIds (flat_map (spliceOp t news true) body));
      fold (allIds (flat_map (spliceOp t news false) body));
      fold (allIds body); fold (allIds news); set_solver.
  - pose proof (allIds_splice_Forall _ _ _ _ _ IH) as Hb. clear IH.
    revert Hb.
    cbn [spliceOp opId opIds]. fold (allIds nested).
    case_decide; destruct keep; rewrite ?allIds_app, ?allIds_cons;
      cbn [opIds allIds flat_map];
      fold (allIds (flat_map (spliceOp t news true) nested));
      fold (allIds (flat_map (spliceOp t news false) nested));
      fold (allIds nested); fold (allIds news); set_solver.
Qed.

Lemma allIds_splice (t : OpId) (news : list Operation) (keep : bool)
    (l : list Operation) (x : OpId) :
  x ∈ allIds (flat_map (spliceOp t news keep) l) ->
  x ∈ allIds l \/ x ∈ allIds news.
Proof.
  apply allIds_splice_Forall, Forall_forall. intros o _.
  apply opIds_spliceOp.
Qed.

Lemma firstSome_app {A B : Type} (f : A -> option B) (l1 l2 : list A) :
  firstSome f (l1 ++ l2) =
  match firstSome f l1 with Some y => Some y | None => firstSome f l2 end.
Proof.
  induction l1 as [|x r IH]; simpl; [done|]. destruct (f x); [done|apply IH].
Qed.

Lemma findOp_app (t : OpId) (l1 l2 : list Operation) :
  findOp t (l1 ++ l2) =
  match findOp t l1 with Some y => Some y | None => findOp t l2 end.
Proof. apply firstSome_app. Qed.

Lemma findOp_splice_Forall (t x : OpId) (k : OpKind)
    (news l : list Operation) :
  x ∉ allIds news ->
  Forall (fun o => findIn x o = Some (Op x k) ->
                   findOp x (spliceOp t news true o) = Some (Op x k)) l ->
  findOp x l = Some (Op x k) ->
  findOp x (flat_map (spliceOp t news true) l) = Some (Op x k).
Proof.
  intros Hnews. induction 1 as [|y r Hy _ IHr]; [done|].
  rewrite findOp_cons. simpl flat_map. rewrite findOp_app.
  destruct (findIn x y) as [z|] eqn:Hz.
  - intros [= ->]. by rewrite Hy.
  - intros Hr. apply findIn_None in Hz.
    assert (findOp x (spliceOp t news true y) = None) as ->; [|auto].
    apply findOp_None. intros Hin. apply opIds_spliceOp in Hin. tauto.
Qed.

(** A region-free operation stays where a dereference finds it when
    operations with other identities are placed in front of [t]. *)
Lemma findOp_spliceOp (t x : OpId) (k : OpKind) (news : list Operation)
    (o : Operation) :
  x ∉ allIds news ->
  findIn x o = Some (Op x k) ->
  findOp x (spliceOp t news true o) = Some (Op x k).
Proof.
  intros Hnews.
  assert (Hn : findOp x news = None) by by apply findOp_None.
  assert (Hheld : forall o' : Operation,
            opId o' <> x ->
            findIn x o' = Some (Op x k) ->
            findOp x (if decide (opId o' = t) then news ++ [o'] else [o'])
            = Some (Op x k)).
  { intros o' Hne Hfind. case_decide.
    - rewrite findOp_app, Hn. unfold findOp. simpl. by rewrite Hfind.
    - unfold findOp. simpl. by rewrite Hfind. }
  induction o as [id k0 | id body IH | id name nested IH]
    using Operation_tree_ind; simpl.
  - case_decide as Hx; [|done]. intros Heq. injection Heq as _ <-. subst id.
    case_decide.
    + rewrite findOp_app, Hn. simpl. by rewrite decide_True.
    + simpl. by rewrite decide_True.
  - case_decide as Hx; [done|]. intros Hfind.
    apply (findOp_splice_Forall t x k news body Hnews IH) in Hfind.
    apply (Hheld (ForOp id (flat_map (spliceOp t news true) body))); [done|].
    simpl. by rewrite decide_False.
  - case_decide as Hx; [done|]. intros Hfind.
    apply (findOp_splice_Forall t x k news nested Hnews IH) in Hfind.
    apply (Hheld (RegionOp id name (flat_map (spliceOp t news true) nested)));
      [done|].
    simpl. by rewrite decide_False.
Qed.

Lemma findOp_splice (t x : OpId) (k : OpKind) (news l : list Operation) :
  x ∉ allIds news ->
  findOp x l = Some (Op x k) ->
  findOp x (flat_map (spliceOp t news true) l) = Some (Op x k).
Proof.
  intros Hnews. apply findOp_splice_Forall; [done|].
  apply Forall_forall. intros o _. by apply findOp_spliceOp.
Qed.

(** ** Replacing a collected store *)

Lemma ReplacedBy_frame (t : OpId) (k : OpKind) (news l l' a b : list Operation) :
  ReplacedBy t k news l l' ->
  t ∉ allIds a -> t ∉ allIds b ->
  ReplacedBy t k news (a ++ l ++ b) (a ++ l' ++ b).
Proof.
  intros Hr Ha Hb. destruct Hr as [l1 l2 H1 H2 | l1 l2 id name n n' H1 H2 Hid Hn].
  - replace (a ++ (l1 ++ Op t k :: l2) ++ b)
      with ((a ++ l1) ++ Op t k :: (l2 ++ b)) by by rewrite <- !app_assoc.
    replace (a ++ (l1 ++ news ++ l2) ++ b)
      with ((a ++ l1) ++ news ++ (l2 ++ b)) by by rewrite <- !app_assoc.
    constructor; rewrite allIds_app, not_elem_of_app; done.
  - replace (a ++ (l1 ++ RegionOp id name n :: l2) ++ b)
      with ((a ++ l1) ++ RegionOp id name n :: (l2 ++ b))
      by by rewrite <- !app_assoc.
    replace (a ++ (l1 ++ RegionOp id name n' :: l2) ++ b)
      with ((a ++ l1) ++ RegionOp id name n' :: (l2 ++ b))
      by by rewrite <- !app_assoc.
    constructor; rewrite ?allIds_app, ?not_elem_of_app; done.
Qed.

Lemma walk_opIds (s : TMAStore) (o : Operation) :
  s ∈ walk o -> op s ∈ opIds o.
Proof.
  induction o as [id k | id body IH | id name nested IH]
    using Operation_tree_ind; simpl.
  - destruct (storeLike k) as [[d s0]|]; [|set_solver].
    intros ->%list_elem_of_singleton. simpl. set_solver.
  - set_solver.
  - intros Hin. apply elem_of_cons. right.
    induction IH as [|y r Hy _ IHr]; simpl in *; [set_solver|].
    apply elem_of_app in Hin as [?|?]; set_solver.
Qed.

Lemma getTMAStores_allIds (s : TMAStore) (l : list Operation) :
  s ∈ getTMAStores l -> op s ∈ allIds l.
Proof.
  induction l as [|y r IH]; simpl; [set_solver|].
  intros [?%walk_opIds|?]%elem_of_app; set_solver.
Qed.

Lemma locate_Forall (s : TMAStore) (l : list Operation) :
  Forall (fun o => NoDup (opIds o) -> s ∈ walk o ->
            exists k, storeLike k = Some (desc s, src s) /\
              forall news, ReplacedBy (op s) k news [o]
                             (spliceOp (op s) news false o)) l ->
  NoDup (allIds l) -> s ∈ getTMAStores l ->
  exists k, storeLike k = Some (desc s, src s) /\
    forall news, ReplacedBy (op s) k news l
                   (flat_map (spliceOp (op s) news false) l).
Proof.
  induction 1 as [|o r Ho _ IHr]; [set_solver|].
  rewrite allIds_cons. intros [Hdo [Hdisj Hdr]]%NoDup_app.
  change (getTMAStores (o :: r)) with (walk o ++ getTMAStores r).
  intros [Hin|Hin]%elem_of_app.
  - destruct (Ho Hdo Hin) as (k & Hk & Hrep). exists k. split; [done|].
    intros news. simpl flat_map.
    assert (Hr : op s ∉ allIds r) by (apply Hdisj; by apply walk_opIds).
    rewrite (splice_absent _ _ _ _ Hr).
    apply (ReplacedBy_frame _ _ _ _ _ [] r (Hrep news)); [set_solver|done].
  - destruct (IHr Hdr Hin) as (k & Hk & Hrep). exists k. split; [done|].
    intros news. simpl flat_map.
    assert (Ho' : op s ∉ opIds o).
    { intros Hc. apply (Hdisj _ Hc). by apply getTMAStores_allIds. }
    rewrite (spliceOp_absent _ _ _ _ Ho').
    pose proof (ReplacedBy_frame _ _ _ _ _ [o] [] (Hrep news)) as Hf.
    rewrite !app_nil_r in Hf. apply Hf; [|set_solver].
    unfold allIds. simpl. by rewrite app_nil_r.
Qed.

Lemma locate_op (s : TMAStore) (o : Operation) :
  NoDup (opIds o) -> s ∈ walk o ->
  exists k, storeLike k = Some (desc s, src s) /\
    forall news, ReplacedBy (op s) k news [o] (spliceOp (op s) news false o).
Proof.
  induction o as [id k | id body IH | id name nested IH]
    using Operation_tree_ind; simpl.
  - intros _. destruct (storeLike k) as [[d s0]|] eqn:Hk; [|set_solver].
    intros ->%list_elem_of_singleton. simpl. exists k. split; [done|].
    intros news. rewrite decide_True by done.
    apply (ReplacedHere id k news [] []); set_solver.
  - set_solver.
  - intros [Hid Hd]%NoDup_cons Hin.
    destruct (locate_Forall _ _ IH Hd Hin) as (k & Hk & Hrep).
    exists k. split; [done|]. intros news.
    assert (Hne : id ≠ op s).
    { intros ->. apply Hid. by apply getTMAStores_allIds. }
    rewrite decide_False by done.
    apply (ReplacedInRegion (op s) k news [] []); [set_solver|set_solver|done|].
    apply Hrep.
Qed.

(** A collected store of a body with pairwise distinct identities is a
    region-free store-like operation outside nested loops, and erasing it
    after inserting [news] before it replaces it by [news]. *)
Lemma locate (s : TMAStore) (l : list Operation) :
  NoDup (allIds l) -> s ∈ getTMAStores l ->
  exists k, storeLike k = Some (desc s, src s) /\
    forall news, ReplacedBy (op s) k news l
                   (flat_map (spliceOp (op s) news false) l).
Proof.
  apply locate_Forall, Forall_forall. intros o _. apply locate_op.
Qed.

Lemma ReplacedBy_findOp (t : OpId) (k : OpKind) (news l l' : list Operation) :
  ReplacedBy t k news l l' -> findOp t l = Some (Op t k).
Proof.
  induction 1 as [l1 l2 H1 H2 | l1 l2 id name n n' H1 H2 Hid Hn IH].
  - rewrite findOp_app. apply findOp_None in H1 as ->.
    rewrite findOp_cons. simpl. by rewrite decide_True.
  - rewrite findOp_app. apply findOp_None in H1 as ->.
    rewrite findOp_cons. simpl. rewrite decide_False by done.
    fold (findOp t n). by rewrite IH.
Qed.

Lemma ReplacedBy_ids (t : OpId) (k : OpKind) (news l l' : list Operation) :
  ReplacedBy t k news l l' ->
  exists X, allIds l ≡ₚ t :: X /\ allIds l' ≡ₚ allIds news ++ X.
Proof.
  induction 1 as [l1 l2 H1 H2 | l1 l2 id name n n' H1 H2 Hid Hn IH].
  - exists (allIds l1 ++ allIds l2).
    rewrite !allIds_app, allIds_cons. simpl. split; solve_Permutation.
  - destruct IH as (X & HX & HX').
    exists (allIds l1 ++ id :: X ++ allIds l2).
    rewrite !allIds_app, !allIds_cons. simpl.
    fold (allIds n). fold (allIds n'). rewrite HX, HX'.
    split; solve_Permutation.
Qed.

Lemma ReplacedBy_NoDup (t : OpId) (k : OpKind) (news l l' : list Operation) :
  ReplacedBy t k news l l' ->
  NoDup (allIds l) -> NoDup (allIds news) ->
  (forall x, x ∈ allIds news -> x ∉ allIds l) ->
  NoDup (allIds l').
Proof.
  intros (X & HX & HX')%ReplacedBy_ids Hd Hn Hfresh.
  rewrite HX'. rewrite HX in Hd. apply NoDup_cons in Hd as [_ Hd].
  apply NoDup_app. split_and!; [done| |done].
  intros x Hx HxX. apply (Hfresh x Hx). rewrite HX. set_solver.
Qed.

Lemma ReplacedBy_bound (P : OpId -> Prop) (t : OpId) (k : OpKind)
    (news l l' : list Operation) :
  ReplacedBy t k news l l' ->
  Forall P (allIds l) -> Forall P (allIds news) -> Forall P (allIds l').
Proof.
  intros (X & HX & HX')%ReplacedBy_ids Hl Hn.
  rewrite HX'. rewrite HX in Hl. apply Forall_cons in Hl as [_ Hl].
  by apply Forall_app.
Qed.

Lemma ReplacedBy_gone (t : OpId) (k : OpKind) (news l l' : list Operation) :
  ReplacedBy t k news l l' ->
  NoDup (allIds l) -> t ∉ allIds news -> t ∉ allIds l'.
Proof.
  intros (X & HX & HX')%ReplacedBy_ids Hd Hn.
  rewrite HX'. rewrite HX in Hd. apply NoDup_cons in Hd as [? _].
  set_solver.
Qed.

Lemma ReplacedBy_stores (t : OpId) (k : OpKind) (news l l' : list Operation)
    (d : TypedValue TensorDescType) (s : TypedValue RankedTensorType) :
  ReplacedBy t k news l l' ->
  storeLike k = Some (d, s) -> getTMAStores news = [] ->
  exists A B, getTMAStores l = A ++ {| op := t; desc := d; src := s |} :: B /\
              getTMAStores l' = A ++ B.
Proof.
  intros Hr Hk Hnews.
  induction Hr as [l1 l2 H1 H2 | l1 l2 id name n n' H1 H2 Hid Hn IH].
  - exists (getTMAStores l1), (getTMAStores l2).
    rewrite !getTMAStores_app, Hnews. simpl. by rewrite Hk.
  - destruct IH as (A & B & HA & HB).
    exists (getTMAStores l1 ++ A), (B ++ getTMAStores l2).
    rewrite !getTMAStores_app. simpl.
    fold (getTMAStores n). fold (getTMAStores n').
    rewrite HA, HB. by rewrite <- !app_assoc.
Qed.

Lemma countOps_cons (p : OpKind -> bool) (o : Operation) (l : list Operation) :
  countOps p (o :: l) = countIn p o + countOps p l.
Proof. reflexivity. Qed.

Lemma countOutside_cons (p : OpKind -> bool) (o : Operation)
    (l : list Operation) :
  countOutside p (o :: l) = countOutsideIn p o + countOutside p l.
Proof. reflexivity. Qed.

Lemma ReplacedBy_countOps (p : OpKind -> bool) (t : OpId) (k : OpKind)
    (news l l' : list Operation) :
  ReplacedBy t k news l l' ->
  countOps p l' + (if p k then 1 else 0) = countOps p l + countOps p news.
Proof.
  induction 1 as [l1 l2 H1 H2 | l1 l2 id name n n' H1 H2 Hid Hn IH].
  - rewrite !countOps_app, countOps_cons. simpl. lia.
  - rewrite !countOps_app, !countOps_cons. simpl.
    fold (countOps p n). fold (countOps p n'). lia.
Qed.

Lemma ReplacedBy_countOutside (p : OpKind -> bool) (t : OpId) (k : OpKind)
    (news l l' : list Operation) :
  ReplacedBy t k news l l' ->
  countOutside p l' + (if p k then 1 else 0) =
  countOutside p l + countOutside p news.
Proof.
  induction 1 as [l1 l2 H1 H2 | l1 l2 id name n n' H1 H2 Hid Hn IH].
  - rewrite !countOutside_app, countOutside_cons. simpl. lia.
  - rewrite !countOutside_app, !countOutside_cons. simpl.
    fold (countOutside p n). fold (countOutside p n'). lia.
Qed.

(** ** Order of collection *)

Lemma walk_sublist_Forall (l : list Operation) :
  Forall (fun o => (op <$> walk o) `sublist_of` opIds o) l ->
  (op <$> getTMAStores l) `sublist_of` allIds l.
Proof.
  induction 1 as [|o r Ho _ IH]; [constructor|].
  change (getTMAStores (o :: r)) with (walk o ++ getTMAStores r).
  rewrite fmap_app, allIds_cons. by apply sublist_app.
Qed.

Lemma walk_sublist (o : Operation) : (op <$> walk o) `sublist_of` opIds o.
Proof.
  induction o as [id k | id body IH | id name nested IH]
    using Operation_tree_ind; simpl.
  - destruct (storeLike k) as [[d s]|]; simpl; repeat constructor.
  - apply sublist_nil_l.
  - apply sublist_cons. by apply walk_sublist_Forall.
Qed.

Lemma getTMAStores_sublist (l : list Operation) :
  (op <$> getTMAStores l) `sublist_of` allIds l.
Proof.
  apply walk_sublist_Forall, Forall_forall. intros o _. apply walk_sublist.
Qed.

Lemma getTMAStores_NoDup (l : list Operation) :
  NoDup (allIds l) -> NoDup (op <$> getTMAStores l).
Proof. intros Hd. eapply sublist_NoDup; [done|apply getTMAStores_sublist]. Qed.

(** ** Running the builder *)

Lemma create_BeforeOp (t : OpId) (k : OpKind) (st : State) :
  create (BeforeOp t) k st =
  Done (nextId st)
    (withBody st (flat_map (spliceOp t [Op (nextId st) k] true) (loopBody st))
       (S (nextId st)) (events st)).
Proof.
  unfold create, withBody. do 2 f_equal.
  apply flat_map_agree, Forall_forall. intros o _. apply insertBefore_splice.
Qed.

Lemma erase_run (t : OpId) (st : State) :
  erase t st =
  Done tt (withBody st (flat_map (spliceOp t [] false) (loopBody st))
             (nextId st) (events st ++ [Erased t])).
Proof.
  unfold erase, withBody. do 2 f_equal.
  apply flat_map_agree, Forall_forall. intros o _. apply eraseFrom_splice.
Qed.

Lemma withBody_withBody (st : State) (b b' : list Operation) (n n' : OpId)
    (e e' : list Event) :
  withBody (withBody st b n e) b' n' e' = withBody st b' n' e'.
Proof. reflexivity. Qed.

Lemma loopBody_withBody (st : State) (b : list Operation) (n : OpId)
    (e : list Event) : loopBody (withBody st b n e) = b.
Proof. reflexivity. Qed.

Lemma nextId_withBody (st : State) (b : list Operation) (n : OpId)
    (e : list Event) : nextId (withBody st b n e) = n.
Proof. reflexivity. Qed.

Lemma events_withBody (st : State) (b : list Operation) (n : OpId)
    (e : list Event) : events (withBody st b n e) = e.
Proof. reflexivity. Qed.

Lemma logEvent_run (e : Event) (st : State) :
  logEvent e st =
  Done tt (withBody st (loopBody st) (nextId st) (events st ++ [e])).
Proof. reflexivity. Qed.

Lemma withBody_id (st : State) :
  withBody st (loopBody st) (nextId st) (events st) = st.
Proof. by destruct st. Qed.

Lemma splice_nil_keep (t : OpId) (l : list Operation) :
  flat_map (spliceOp t [] true) l = l.
Proof.
  apply flat_map_single, Forall_forall. intros o _.
  induction o as [id k | id body IH | id name nested IH]
    using Operation_tree_ind; simpl.
  - by case_decide.
  - rewrite (flat_map_single _ _ IH). by case_decide.
  - rewrite (flat_map_single _ _ IH). by case_decide.
Qed.

Lemma allIds_imap_seq (f : nat -> string * list Value -> OpKind) (n : OpId)
    (l : list (string * list Value)) :
  allIds (imap (fun i c => Op (n + i) (f i c)) l) = seq n (length l).
Proof.
  revert n f. induction l as [|c r IH]; intros n f; [done|].
  cbn [imap length seq]. rewrite allIds_cons. cbn [opIds app].
  rewrite Nat.add_0_r. f_equal.
  rewrite (imap_ext _ (fun i c => Op (S n + i) (f (S i) c))).
  - apply (IH (S n) (fun i c => f (S i) c)).
  - intros i y _. simpl. f_equal. lia.
Qed.

Section Running.
Context `{Collaborators}.

Lemma forEach_create (t : OpId) (created : list (string * list Value))
    (st : State) :
  t < nextId st ->
  forEach created
    (fun c => create (BeforeOp t) (OtherOp (fst c) (snd c)) ;;; ret tt) st =
  Done tt
    (withBody st
       (flat_map
          (spliceOp t (imap (fun i c => Op (nextId st + i)
                                          (OtherOp (fst c) (snd c)))
                         created) true)
          (loopBody st))
       (nextId st + length created) (events st)).
Proof.
  revert st. induction created as [|c r IH]; intros st Hlt.
  - simpl. unfold ret. rewrite splice_nil_keep, Nat.add_0_r.
    by rewrite withBody_id.
  - cbn [forEach]. unfold bind at 1. unfold bind at 1.
    rewrite create_BeforeOp. unfold ret at 1.
    rewrite IH by (simpl; lia). simpl.
    unfold withBody. simpl. do 2 f_equal; [|lia].
    rewrite splice_splice by (unfold allIds; simpl; set_solver by lia).
    f_equal. simpl. rewrite Nat.add_0_r. do 2 f_equal.
    apply imap_ext. intros i y _. simpl. f_equal. lia.
Qed.

Lemma translateTMAIndicesM_run (t : OpId) (encoding : Attribute)
    (indices : list Value) (st : State) :
  t < nextId st ->
  translateTMAIndicesM (BeforeOp t) encoding indices st =
  Done (translated encoding indices (nextId st))
    (withBody st
       (flat_map
          (spliceOp t (translationOps encoding indices (nextId st)) true)
          (loopBody st))
       (nextId st + length (translationOps encoding indices (nextId st)))
       (events st)).
Proof.
  intros Hlt. unfold translateTMAIndicesM, translated, translationOps.
  destruct (translateTMAIndices encoding indices (nextId st))
    as [created out]. simpl fst. simpl snd.
  unfold bind at 1. rewrite forEach_create by done. unfold ret.
  by rewrite length_imap.
Qed.

Lemma translationFor_seq (k : OpKind) (n : OpId) :
  allIds (translationFor k n) = seq n (length (translationFor k n)).
Proof.
  destruct k; try done; simpl; unfold translationOps;
    rewrite length_imap;
    apply (allIds_imap_seq (fun _ c => OtherOp (fst c) (snd c))).
Qed.

Lemma translationFor_ids (k : OpKind) (n x : OpId) :
  x ∈ allIds (translationFor k n) ->
  n <= x < n + length (translationFor k n).
Proof. rewrite translationFor_seq. intros Hx%elem_of_seq. lia. Qed.

(** The rewriter on a store that a dereference finds, of one of the three
    variants: it ends normally, and the body it leaves has the whole
    sequence where the store was. *)
Lemma createTMAAsyncCopy_run (store : TMAStore) (alloc : Value)
    (k : OpKind) (st : State) :
  findOp (op store) (loopBody st) = Some (Op (op store) k) ->
  knownVariant k = true ->
  op store < nextId st ->
  createTMAAsyncCopy store alloc st =
  Done tt
    (withBody st
       (flat_map
          (spliceOp (op store)
             (asyncSequence store alloc k (nextId st)) false)
          (loopBody st))
       (nextId st + length (asyncSequence store alloc k (nextId st)))
       (events st ++ descReads k (op store) ++ [Erased (op store)])).
Proof.
  intros Hfind Hknown Hlt.
  set (t := op store) in *. set (n := nextId st).
  unfold createTMAAsyncCopy. fold t.
  unfold bind at 1. unfold builderAt, bind at 1, getOp at 1.
  rewrite Hfind. unfold ret at 1.
  unfold bind at 1. unfold bind at 1. rewrite create_BeforeOp.
  unfold bind at 1. unfold bind at 1. rewrite create_BeforeOp.
  unfold bind at 1. unfold bind at 1. rewrite create_BeforeOp.
  rewrite !withBody_withBody, !loopBody_withBody, !nextId_withBody,
    !events_withBody. fold n.
  rewrite !splice_splice by (unfold allIds; simpl; set_solver by lia).
  cbn [app].
  set (pre := [Op n (TMAStoreWaitOp 0);
               Op (S n) (LocalStoreOp (src store) alloc);
               Op (S (S n)) (FenceAsyncSharedOp false)]).
  assert (Hpre : t ∉ allIds pre)
    by (unfold allIds, pre; simpl; set_solver by lia).
  unfold bind at 1. unfold getOp at 1.
  rewrite loopBody_withBody, (findOp_splice _ _ _ _ _ Hpre Hfind).
  unfold bind at 1.
  destruct k as [d s0 idx | kind d s0 idx | d x y s0 | | | | | | | | | | ];
    try discriminate Hknown.
  - unfold bind, ret. rewrite logEvent_run. cbv beta iota.
    rewrite translateTMAIndicesM_run
      by (rewrite !nextId_withBody; unfold n; lia).
    cbv beta iota. rewrite create_BeforeOp. cbv beta iota.
    rewrite erase_run.
    rewrite !withBody_withBody, !loopBody_withBody, !nextId_withBody,
      !events_withBody.
    assert (Htr : t ∉ allIds (translationOps
                                (getEncoding (getBlockType (getType d)))
                                idx (S (S (S n))))).
    { intros Hin%(translationFor_ids (DescriptorStoreOp d s0 idx)). lia. }
    rewrite !splice_splice;
      [|first [done | unfold allIds, n; simpl; set_solver by lia] ..].
    unfold asyncSequence. cbn [translationFor issueFor descReads].
    unfold descEncoding. change (3 + n) with (S (S (S n))).
    rewrite !length_app. unfold pre. cbn [length app].
    rewrite <- !app_assoc. f_equal. f_equal; lia.
  - unfold bind, ret. rewrite logEvent_run. cbv beta iota.
    rewrite translateTMAIndicesM_run
      by (rewrite !nextId_withBody; unfold n; lia).
    cbv beta iota. rewrite create_BeforeOp. cbv beta iota.
    rewrite erase_run.
    rewrite !withBody_withBody, !loopBody_withBody, !nextId_withBody,
      !events_withBody.
    assert (Htr : t ∉ allIds (translationOps
                                (getEncoding (getBlockType (getType d)))
                                idx (S (S (S n))))).
    { intros Hin%(translationFor_ids (DescriptorReduceOp kind d s0 idx)).
      lia. }
    rewrite !splice_splice;
      [|first [done | unfold allIds, n; simpl; set_solver by lia] ..].
    unfold asyncSequence. cbn [translationFor issueFor descReads].
    unfold descEncoding. change (3 + n) with (S (S (S n))).
    rewrite !length_app. unfold pre. cbn [length app].
    rewrite <- !app_assoc. f_equal. f_equal; lia.
  - unfold bind, ret. rewrite create_BeforeOp. cbv beta iota.
    rewrite erase_run.
    rewrite !withBody_withBody, !loopBody_withBody, !nextId_withBody,
      !events_withBody.
    rewrite !splice_splice;
      [|first [done | unfold allIds, n; simpl; set_solver by lia] ..].
    unfold asyncSequence. cbn [translationFor issueFor descReads].
    unfold pre. cbn [length app]. rewrite <- ?app_assoc.
    replace (3 + n + 0) with (S (S (S n))) by lia.
    replace (n + 4) with (S (S (S (S n)))) by lia. done.
Qed.

Lemma asyncSequence_seq (store : TMAStore) (alloc : Value) (k : OpKind)
    (n : OpId) :
  allIds (asyncSequence store alloc k n) =
  seq n (length (asyncSequence store alloc k n)).
Proof.
  unfold asyncSequence. rewrite !allIds_app, !length_app, !seq_app.
  rewrite translationFor_seq. cbn [length]. unfold allIds. simpl.
  replace (n + 3) with (S (S (S n))) by lia. done.
Qed.

Lemma translationFor_other (k : OpKind) (n : OpId) :
  Forall (fun o => exists id name operands, o = Op id (OtherOp name operands))
         (translationFor k n).
Proof.
  assert (Hops : forall e idx,
    Forall (fun o => exists id name operands,
                       o = Op id (OtherOp name operands))
           (translationOps e idx n)).
  { intros e idx. unfold translationOps. apply Forall_forall.
    intros o (i & c & -> & _)%elem_of_lookup_imap. eauto. }
  destruct k; simpl; auto.
Qed.

Lemma countOps_other (p : OpKind -> bool) (l : list Operation) :
  (forall name operands, p (OtherOp name operands) = false) ->
  Forall (fun o => exists id name operands, o = Op id (OtherOp name operands))
         l ->
  countOps p l = 0.
Proof.
  intros Hp. induction 1 as [|o r (id & name & operands & ->) _ IH];
    [done|].
  rewrite countOps_cons, IH. simpl. by rewrite Hp.
Qed.

Lemma countOutside_other (p : OpKind -> bool) (l : list Operation) :
  (forall name operands, p (OtherOp name operands) = false) ->
  Forall (fun o => exists id name operands, o = Op id (OtherOp name operands))
         l ->
  countOutside p l = 0.
Proof.
  intros Hp. induction 1 as [|o r (id & name & operands & ->) _ IH];
    [done|].
  rewrite countOutside_cons, IH. simpl. by rewrite Hp.
Qed.

Lemma getTMAStores_other (l : list Operation) :
  Forall (fun o => exists id name operands, o = Op id (OtherOp name operands))
         l ->
  getTMAStores l = [].
Proof.
  induction 1 as [|o r (id & name & operands & ->) _ IH]; [done|].
  change (getTMAStores (Op id (OtherOp name operands) :: r))
    with (walk (Op id (OtherOp name operands)) ++ getTMAStores r).
  by rewrite IH.
Qed.

Lemma getTMAStores_asyncSequence (store : TMAStore) (alloc : Value)
    (k : OpKind) (n : OpId) :
  knownVariant k = true ->
  getTMAStores (asyncSequence store alloc k n) = [].
Proof.
  intros Hk. unfold asyncSequence. rewrite !getTMAStores_app.
  rewrite (getTMAStores_other _ (translationFor_other k _)).
  by destruct k.
Qed.

(** The count of [p] in the emitted sequence, for a predicate that holds
    of none of wait, stage, fence and the translation's operations. *)
Lemma countOps_asyncSequence (p : OpKind -> bool) (store : TMAStore)
    (alloc : Value) (k : OpKind) (n : OpId) :
  p (TMAStoreWaitOp 0) = false ->
  p (LocalStoreOp (src store) alloc) = false ->
  p (FenceAsyncSharedOp false) = false ->
  (forall name operands, p (OtherOp name operands) = false) ->
  countOps p (asyncSequence store alloc k n) =
  if p (issueFor store alloc k) then 1 else 0.
Proof.
  intros H1 H2 H3 H4. unfold asyncSequence. rewrite !countOps_app.
  rewrite (countOps_other p _ H4 (translationFor_other k _)).
  unfold countOps. simpl. rewrite H1, H2, H3. lia.
Qed.

Lemma countOutside_asyncSequence (p : OpKind -> bool) (store : TMAStore)
    (alloc : Value) (k : OpKind) (n : OpId) :
  p (TMAStoreWaitOp 0) = false ->
  p (LocalStoreOp (src store) alloc) = false ->
  p (FenceAsyncSharedOp false) = false ->
  (forall name operands, p (OtherOp name operands) = false) ->
  countOutside p (asyncSequence store alloc k n) =
  if p (issueFor store alloc k) then 1 else 0.
Proof.
  intros H1 H2 H3 H4. unfold asyncSequence. rewrite !countOutside_app.
  rewrite (countOutside_other p _ H4 (translationFor_other k _)).
  unfold countOutside. simpl. rewrite H1, H2, H3. lia.
Qed.

Lemma known_of_storeLike (k : OpKind) :
  isStoreLike k = true -> isUnknownStore k = false -> knownVariant k = true.
Proof. by destruct k. Qed.

(** A store found outside nested loops of a body without stores of other
    variants is of one of the three. *)
Lemma located_known (t : OpId) (k : OpKind) (l l' : list Operation)
    (d : TypedValue TensorDescType) (s : TypedValue RankedTensorType) :
  ReplacedBy t k [] l l' ->
  storeLike k = Some (d, s) ->
  countOutside isUnknownStore l = 0 ->
  knownVariant k = true.
Proof.
  intros Hrep Hk Hun.
  apply known_of_storeLike; [unfold isStoreLike; by rewrite Hk|].
  pose proof (ReplacedBy_countOutside isUnknownStore _ _ _ _ _ Hrep) as Hc.
  rewrite Hun in Hc. unfold countOutside in Hc at 2. simpl in Hc.
  destruct (isUnknownStore k); [lia|done].
Qed.

(** One iteration of the rewriting loop, on the first of the stores that
    the body still holds. *)
Lemma rewrite_step (s : TMAStore) (rest : list TMAStore) (alloc : Value)
    (st : State) :
  wellFormed st ->
  getTMAStores (loopBody st) = s :: rest ->
  countOutside isUnknownStore (loopBody st) = 0 ->
  exists k st',
    createTMAAsyncCopy s alloc st = Done tt st' /\
    storeLike k = Some (desc s, src s) /\ knownVariant k = true /\
    ReplacedBy (op s) k (asyncSequence s alloc k (nextId st))
      (loopBody st) (loopBody st') /\
    nextId st' = nextId st + length (asyncSequence s alloc k (nextId st)) /\
    events st' = events st ++ descReads k (op s) ++ [Erased (op s)] /\
    beforeLoop st' = beforeLoop st /\ afterLoop st' = afterLoop st /\
    wellFormed st' /\
    getTMAStores (loopBody st') = rest /\
    countOutside isUnknownStore (loopBody st') = 0 /\
    op s ∉ allIds (loopBody st').
Proof.
  intros [Hnd Hbd] Hst Hun.
  assert (Hin : s ∈ getTMAStores (loopBody st)) by (rewrite Hst; set_solver).
  destruct (locate s _ Hnd Hin) as (k & Hk & Hrep).
  assert (Hknown : knownVariant k = true)
    by exact (located_known _ _ _ _ _ _ (Hrep []) Hk Hun).
  set (news := asyncSequence s alloc k (nextId st)).
  specialize (Hrep news).
  assert (Hlt : op s < nextId st).
  { rewrite Forall_forall in Hbd. apply Hbd.
    by apply getTMAStores_allIds. }
  assert (Hfresh : forall x, x ∈ allIds news -> x ∉ allIds (loopBody st)).
  { intros x Hx Hx'. unfold news in Hx. rewrite asyncSequence_seq in Hx.
    apply elem_of_seq in Hx. rewrite Forall_forall in Hbd.
    apply Hbd in Hx'. lia. }
  exists k. eexists. split.
  { apply createTMAAsyncCopy_run; [by eapply ReplacedBy_findOp|done|done]. }
  rewrite loopBody_withBody, nextId_withBody, events_withBody. fold news.
  split_and!; try done.
  - split; rewrite ?loopBody_withBody, ?nextId_withBody.
    + eapply ReplacedBy_NoDup; [done|done| |done].
      unfold news. rewrite asyncSequence_seq. apply NoDup_seq.
    + eapply ReplacedBy_bound; [done| |].
      * eapply Forall_impl; [done|]. simpl. intros; lia.
      * unfold news. rewrite asyncSequence_seq. apply Forall_forall.
        intros x Hx%elem_of_seq. lia.
  - destruct (ReplacedBy_stores _ _ _ _ _ _ _ Hrep Hk) as (A & B & HA & HB).
    { by apply getTMAStores_asyncSequence. }
    rewrite HB. rewrite Hst in HA.
    pose proof (getTMAStores_NoDup _ Hnd) as Hnds. rewrite Hst in Hnds.
    destruct A as [|a A].
    + simpl in HA. by injection HA as _ ->.
    + exfalso. simpl in HA. injection HA as <- Hrest.
      rewrite Hrest, fmap_cons, fmap_app, fmap_cons in Hnds.
      apply NoDup_cons in Hnds as [Hni _]. apply Hni.
      simpl. set_solver.
  - pose proof (ReplacedBy_countOutside isUnknownStore _ _ _ _ _ Hrep) as Hc.
    rewrite Hun in Hc. unfold news in Hc.
    rewrite countOutside_asyncSequence in Hc by done.
    fold news in Hc.
    destruct k; try discriminate Hknown; simpl in Hc; lia.
  - eapply ReplacedBy_gone; [done|done|].
    intros Hx. apply (Hfresh _ Hx). by apply getTMAStores_allIds.
Qed.

Lemma countOutside_le (q : OpKind -> bool) (l : list Operation) :
  (forall k, q k = true -> isStoreLike k = true) ->
  countOutside q l <= countOutside isStoreLike l.
Proof.
  intros Hq.
  assert (Hlist : forall l0,
    Forall (fun o => countOutsideIn q o <= countOutsideIn isStoreLike o) l0 ->
    countOutside q l0 <= countOutside isStoreLike l0).
  { induction 1 as [|o r Ho _ IH]; [done|].
    rewrite !countOutside_cons. lia. }
  apply Hlist. apply Forall_forall. intros o _.
  induction o as [id k | id body IH | id name nested IH]
    using Operation_tree_ind; simpl.
  - destruct (q k) eqn:Hqk; [by rewrite (Hq _ Hqk)|lia].
  - lia.
  - apply Hlist, IH.
Qed.

Lemma countOutside_storeLike (l : list Operation) :
  countOutside isStoreLike l = length (getTMAStores l).
Proof.
  assert (Hlist : forall l0,
    Forall (fun o => countOutsideIn isStoreLike o = length (walk o)) l0 ->
    countOutside isStoreLike l0 = length (getTMAStores l0)).
  { induction 1 as [|o r Ho _ IH]; [done|].
    rewrite countOutside_cons.
    change (getTMAStores (o :: r)) with (walk o ++ getTMAStores r).
    rewrite length_app. lia. }
  apply Hlist. apply Forall_forall. intros o _.
  induction o as [id k | id body IH | id name nested IH]
    using Operation_tree_ind; simpl.
  - unfold isStoreLike. by destruct (storeLike k) as [[d s]|].
  - done.
  - apply Hlist, IH.
Qed.

Lemma descReads_known (k : OpKind) (t : OpId) :
  knownVariant k = true ->
  descReads k t =
  if negb (isScatterStore k) then [DescEncodingRead t] else [].
Proof. by destruct k. Qed.

Lemma issueFor_not_storeLike (s : TMAStore) (a : Value) (k : OpKind) :
  knownVariant k = true -> isStoreLike (issueFor s a k) = false.
Proof. by destruct k. Qed.

(** The rewriting loop of [pipelineTMAStores], from any state whose body
    still holds exactly the stores [rest], each with a buffer assigned. *)
Lemma rewrite_loop (maps : Allocations) (rest : list TMAStore) (st : State) :
  wellFormed st ->
  getTMAStores (loopBody st) = rest ->
  countOutside isUnknownStore (loopBody st) = 0 ->
  (forall s, s ∈ rest -> is_Some (storeToAlloc maps !! op s)) ->
  exists st' flags,
    forEach rest
      (fun store =>
         alloc <- allocOf maps store ;; createTMAAsyncCopy store alloc) st
    = Done tt st' /\
    wellFormed st' /\
    getTMAStores (loopBody st') = [] /\
    beforeLoop st' = beforeLoop st /\ afterLoop st' = afterLoop st /\
    nextId st <= nextId st' /\
    (forall x, x ∈ allIds (loopBody st') ->
               x ∈ allIds (loopBody st) \/ nextId st <= x) /\
    (forall s, s ∈ rest -> op s ∉ allIds (loopBody st')) /\
    length flags = length rest /\
    events st' = events st ++ rewriteEvents (zip rest flags) /\
    (forall p q, issuePair p q ->
       countOps p (loopBody st') + countOutside q (loopBody st') =
       countOps p (loopBody st) + countOutside q (loopBody st)) /\
    Rewrites maps rest (nextId st) (loopBody st) (loopBody st').
Proof.
  revert st. induction rest as [|s rest IH]; intros st Hwf Hst Hun Hmaps.
  - exists st, []. simpl. rewrite app_nil_r. split_and!; try done.
    + intros x Hx. by left.
    + set_solver.
    + constructor.
  - destruct (Hmaps s) as [alloc Halloc]; [set_solver|].
    destruct (rewrite_step s rest alloc st Hwf Hst Hun)
      as (k & st1 & Hrun & Hk & Hknown & Hrep & Hn1 & Hev1 & Hb1 & Ha1 &
          Hwf1 & Hst1 & Hun1 & Hgone1).
    destruct (IH st1 Hwf1 Hst1 Hun1) as
      (st' & flags & Hrun' & Hwf' & Hst' & Hb' & Ha' & Hn' & Hprov & Hgone' &
       Hlen & Hev' & Hcount' & Hchain); [set_solver|].
    exists st', (negb (isScatterStore k) :: flags).
    assert (Hids1 : forall x, x ∈ allIds (loopBody st1) ->
              x ∈ allIds (loopBody st) \/ nextId st <= x).
    { intros x Hx. destruct (ReplacedBy_ids _ _ _ _ _ Hrep) as (X & HX & HX').
      rewrite HX' in Hx. apply elem_of_app in Hx as [Hx|Hx].
      - right. rewrite asyncSequence_seq in Hx. apply elem_of_seq in Hx. lia.
      - left. rewrite HX. set_solver. }
    split_and!.
    + cbn [forEach]. unfold bind at 1. unfold bind at 1.
      unfold allocOf at 1. rewrite Halloc. unfold ret at 1.
      by rewrite Hrun.
    + done.
    + done.
    + congruence.
    + congruence.
    + lia.
    + intros x Hx. destruct (Hprov x Hx) as [Hx1|?]; [|right; lia].
      destruct (Hids1 x Hx1); [by left|by right].
    + intros s0 [->|Hs0]%elem_of_cons; [|by apply Hgone'].
      intros Hx. destruct (Hprov _ Hx) as [?|Hge]; [done|].
      destruct Hwf as [_ Hbd]. rewrite Forall_forall in Hbd.
      assert (op s < nextId st); [|lia].
      apply Hbd, getTMAStores_allIds. rewrite Hst. set_solver.
    + simpl. by rewrite Hlen.
    + rewrite Hev', Hev1. cbn [zip zip_with rewriteEvents flat_map fst snd].
      rewrite (descReads_known _ _ Hknown). by rewrite <- !app_assoc.
    + intros p q Hpq. rewrite (Hcount' p q Hpq).
      destruct Hpq as (Hpi & Hps & Hqs & Hpw & Hpl & Hpf & Hpo).
      pose proof (ReplacedBy_countOps p _ _ _ _ _ Hrep) as Hc1.
      pose proof (ReplacedBy_countOutside q _ _ _ _ _ Hrep) as Hc2.
      rewrite countOps_asyncSequence in Hc1 by auto.
      rewrite Hpi in Hc1 by done.
      rewrite Hps in Hc1 by (unfold isStoreLike; by rewrite Hk).
      assert (Hqn : forall k0, isStoreLike k0 = false -> q k0 = false).
      { intros k0 Hk0. destruct (q k0) eqn:Hq0; [|done].
        apply Hqs in Hq0. congruence. }
      rewrite countOutside_asyncSequence in Hc2
        by (intros; apply Hqn; done).
      rewrite (Hqn (issueFor s alloc k)) in Hc2
        by by apply issueFor_not_storeLike.
      lia.
    + econstructor; [exact Halloc|exact Hk|exact Hrep|]. by rewrite <- Hn1.
Qed.

(** ** The allocation loop *)

Lemma allocInv_start (st : State) :
  allocInv st [] {| storeToAlloc := ∅; allocs := ∅ |} st.
Proof.
  unfold allocInv. simpl. split_and!; try done.
  - exists []. by rewrite app_nil_r.
  - exists []. rewrite app_nil_r, map_size_empty. split_and!; try done.
Qed.

Lemma assignAlloc_step (st0 : State) (seen : list TMAStore)
    (maps : Allocations) (st : State) (s : TMAStore) :
  allocInv st0 seen maps st ->
  s ∈ getTMAStores (loopBody st0) ->
  op s ∉ (op <$> seen) ->
  exists maps' st',
    assignAlloc maps s st = Done maps' st' /\
    allocInv st0 (seen ++ [s]) maps' st'.
Proof.
  intros (Hbody & Hafter & (reads & Hev & Hreads) &
          (created & Hbefore & Hlen & Hcr & Hnext) &
          Hdom & Hdoms & Hagree & Hres & Hinj) Hin Hfresh.
  assert (Hreads' : Forall (fun e => exists s0, s0 ∈ seen ++ [s] /\
                              e = EncodingFromDescriptor (op s0)) reads).
  { eapply Forall_impl; [exact Hreads|]. intros e (s0 & ? & ->).
    exists s0. split; [set_solver|done]. }
  unfold assignAlloc. fold (keyOf s).
  destruct (allocs maps !! keyOf s) as [a|] eqn:Hlook.
  - eexists _, st. split; [reflexivity|].
    unfold allocInv. simpl. split_and!; try done.
    + by exists reads.
    + by exists created.
    + rewrite fmap_app, list_to_set_app_L, <- Hdom. simpl.
      apply (elem_of_dom_2 (D := gset (list Z * string))) in Hlook.
      set_solver.
    + rewrite dom_insert_L, fmap_app, list_to_set_app_L, <- Hdoms. simpl.
      set_solver.
    + intros s' [Hs'|Hs'%list_elem_of_singleton]%elem_of_app; [|subst s'].
      * rewrite lookup_insert_ne; [by apply Hagree|].
        intros Heq. apply Hfresh. rewrite Heq. by apply list_elem_of_fmap_2.
      * by rewrite lookup_insert_eq.
  - assert (Hfind : exists o, findOp (op s) (loopBody st) = Some o).
    { rewrite Hbody. destruct (findOp (op s) (loopBody st0)) eqn:Hf; [eauto|].
      apply findOp_None in Hf. destruct Hf. by apply getTMAStores_allIds. }
    destruct Hfind as [o Hfind].
    set (ty := {| memShape := getShape (getType (src s));
                  memElementType := getElementType (getType (src s));
                  memEncoding :=
                    getEncodingFromDescriptor o (getType (src s)) (desc s);
                  memMemorySpace := SharedMemorySpace;
                  mutableMemory := true |}).
    set (new := Op (nextId st) (LocalAllocOp ty)).
    exists {| storeToAlloc :=
                <[op s := OpResult (nextId st)]> (storeToAlloc maps);
              allocs := <[keyOf s := OpResult (nextId st)]> (allocs maps) |},
           (withBefore
              (withBody st (loopBody st) (nextId st)
                 (events st ++ [EncodingFromDescriptor (op s)]))
              (beforeLoop st ++ [new]) (S (nextId st))).
    split.
    { unfold bind, createAlloc, bind, getOp. rewrite Hfind.
      unfold logEvent, create, ret. reflexivity. }
    unfold allocInv. simpl. split_and!; try done.
    + exists (reads ++ [EncodingFromDescriptor (op s)]).
      rewrite Hev, <- app_assoc. split; [done|].
      apply Forall_app. split; [done|]. apply Forall_singleton.
      exists s. split; [set_solver|done].
    + exists (created ++ [new]).
      rewrite Hbefore, <- app_assoc, length_app,
        map_size_insert_None by done.
      simpl. split_and!; [done|lia| |lia].
      apply Forall_app. split.
      * eapply Forall_impl; [exact Hcr|].
        intros x (id & ty' & -> & Hm & Hsp & Hl).
        exists id, ty'. split_and!; try done. simpl.
        rewrite lookup_insert_ne; [done|]. intros Heq.
        rewrite <- Heq in Hl. congruence.
      * apply Forall_singleton. exists (nextId st), ty.
        split_and!; try done. simpl. fold (keyOf s).
        by rewrite lookup_insert_eq.
    + rewrite dom_insert_L, fmap_app, list_to_set_app_L, <- Hdom. simpl.
      set_solver.
    + rewrite dom_insert_L, fmap_app, list_to_set_app_L, <- Hdoms. simpl.
      set_solver.
    + intros s' [Hs'|Hs'%list_elem_of_singleton]%elem_of_app; [|subst s'].
      * rewrite lookup_insert_ne.
        2:{ intros Heq. apply Hfresh. rewrite Heq.
            by apply list_elem_of_fmap_2. }
        rewrite lookup_insert_ne; [by apply Hagree|].
        intros Heq. apply (not_elem_of_dom_2 (D := gset (list Z * string)))
          in Hlook. apply Hlook. rewrite Hdom, Heq.
        apply elem_of_list_to_set. by apply list_elem_of_fmap_2.
      * by rewrite !lookup_insert_eq.
    + intros k a. rewrite lookup_insert. case_decide as Hk.
      * intros [= <-]. exists (nextId st). split; [done|lia].
      * intros (id & -> & Hid)%Hres. exists id. split; [done|lia].
    + intros k1 k2 a. rewrite !lookup_insert.
      repeat case_decide; subst; try done.
      * intros [= <-] (id & [= ->] & ?)%Hres. lia.
      * intros (id & -> & ?)%Hres [= Heq]. lia.
      * apply Hinj.
Qed.

Lemma alloc_loop (st0 : State) (rest seen : list TMAStore)
    (maps : Allocations) (st : State) :
  allocInv st0 seen maps st ->
  NoDup (op <$> (seen ++ rest)) ->
  (forall s, s ∈ rest -> s ∈ getTMAStores (loopBody st0)) ->
  exists maps' st',
    forFold rest assignAlloc maps st = Done maps' st' /\
    allocInv st0 (seen ++ rest) maps' st'.
Proof.
  revert seen maps st. induction rest as [|s rest IH];
    intros seen maps st Hinv Hnd Hin.
  - exists maps, st. rewrite app_nil_r. by split.
  - destruct (assignAlloc_step st0 seen maps st s Hinv) as
      (maps1 & st1 & Hrun & Hinv1); [set_solver| |].
    { rewrite fmap_app, fmap_cons in Hnd.
      apply NoDup_app in Hnd as (_ & Hdisj & _). intros Hc.
      apply (Hdisj _ Hc). set_solver. }
    destruct (IH (seen ++ [s]) maps1 st1 Hinv1) as (maps' & st' & Hrun' & Hinv').
    { by rewrite <- app_assoc. }
    { set_solver. }
    exists maps', st'. split.
    + cbn [forFold]. unfold bind at 1. by rewrite Hrun.
    + by rewrite <- app_assoc in Hinv'.
Qed.

(** ** The trigger test and the epilogue *)

Lemma any_of_run (stores : list TMAStore) (st : State) :
  any_of stores
    (fun store =>
       logEvent (HostSideTest (op store)) ;;;
       ret (negb (isHostSideDescriptor (desc store)))) st =
  Done (anyDeviceSide stores)
    (withBody st (loopBody st) (nextId st)
       (events st ++ ((fun s => HostSideTest (op s)) <$> tested stores))).
Proof.
  revert st. induction stores as [|s r IH]; intros st.
  - simpl. unfold ret. by rewrite app_nil_r, withBody_id.
  - cbn [any_of]. unfold bind at 1. unfold bind at 1.
    rewrite logEvent_run. unfold ret at 1.
    cbn [anyDeviceSide existsb tested].
    destruct (isHostSideDescriptor (desc s)); cbn [negb orb].
    + rewrite IH. rewrite withBody_withBody, loopBody_withBody,
        nextId_withBody, events_withBody.
      fold (anyDeviceSide r). by rewrite fmap_cons, <- app_assoc.
    + unfold ret. done.
Qed.

Lemma insertAtTail_app (new orig : list Operation) (o : Operation) :
  insertAtTail (length orig) o (new ++ orig) = new ++ o :: orig.
Proof.
  unfold insertAtTail. rewrite length_app.
  replace (length new + length orig - length orig) with (length new) by lia.
  by rewrite take_app_length, drop_app_length.
Qed.

Lemma create_AfterLoop (new orig : list Operation) (k : OpKind) (st : State) :
  afterLoop st = new ++ orig ->
  create (AfterLoop (length orig)) k st =
  Done (nextId st)
    (withAfter st (new ++ Op (nextId st) k :: orig) (S (nextId st))).
Proof.
  intros Hafter. unfold create, withAfter.
  by rewrite Hafter, insertAtTail_app.
Qed.

Lemma forEach_dealloc (its : list (nat * Value)) (new orig : list Operation)
    (st : State) :
  afterLoop st = new ++ orig ->
  forEach its
    (fun it => create (AfterLoop (length orig)) (LocalDeallocOp (snd it)) ;;;
               ret tt) st =
  Done tt
    (withAfter st
       (new ++ imap (fun i it => Op (nextId st + i) (LocalDeallocOp (snd it)))
                 its ++ orig)
       (nextId st + length its)).
Proof.
  revert new st. induction its as [|it r IH]; intros new st Hafter.
  - simpl. unfold ret, withAfter. rewrite Nat.add_0_r, <- Hafter.
    by destruct st.
  - cbn [forEach]. unfold bind at 1. unfold bind at 1.
    rewrite (create_AfterLoop new orig) by done. unfold ret at 1.
    rewrite (IH (new ++ [Op (nextId st) (LocalDeallocOp (snd it))])).
    2:{ simpl. by rewrite <- app_assoc. }
    unfold withAfter. simpl. f_equal. f_equal; [|lia].
    rewrite <- !app_assoc. simpl. rewrite Nat.add_0_r. do 3 f_equal.
    apply imap_ext. intros i y _. simpl. f_equal. lia.
Qed.

(** ** The whole transform *)

Lemma pipeline_empty (st : State) :
  getTMAStores (loopBody st) = [] -> pipelineTMAStores st = Done false st.
Proof.
  intros Hst. unfold pipelineTMAStores, bind, getTMAStoresM. by rewrite Hst.
Qed.

(** The run of [pipelineTMAStores] on a well-formed loop that holds at
    least one store, all of the three variants: it ends normally with
    [true], and this is what it leaves. *)
Lemma pipeline_run (st : State) :
  wellFormed st ->
  getTMAStores (loopBody st) <> [] ->
  countOutside isUnknownStore (loopBody st) = 0 ->
  exists maps stA flags st' n,
    forFold (getTMAStores (loopBody st)) assignAlloc
      {| storeToAlloc := ∅; allocs := ∅ |} st = Done maps stA /\
    allocInv st (getTMAStores (loopBody st)) maps stA /\
    pipelineTMAStores st = Done true st' /\
    beforeLoop st' = beforeLoop stA /\
    wellFormed st' /\
    getTMAStores (loopBody st') = [] /\
    (forall x, x ∈ allIds (loopBody st') ->
               x ∈ allIds (loopBody st) \/ nextId st <= x) /\
    (forall s, s ∈ getTMAStores (loopBody st) ->
               op s ∉ allIds (loopBody st')) /\
    length flags = length (getTMAStores (loopBody st)) /\
    events st' =
      events stA ++
      ((fun s => HostSideTest (op s)) <$>
         tested (getTMAStores (loopBody st))) ++
      rewriteEvents (zip (getTMAStores (loopBody st)) flags) ++
      (if anyDeviceSide (getTMAStores (loopBody st))
       then [LowerTMADescriptors {| numStages := 3 |}] else []) /\
    (forall p q, issuePair p q ->
       countOps p (loopBody st') =
       countOps p (loopBody st) + countOutside q (loopBody st)) /\
    afterLoop st' =
      Op n (TMAStoreWaitOp 0) ::
      imap (fun i it => Op (S n + i) (LocalDeallocOp (snd it)))
        (map_to_list (storeToAlloc maps)) ++ afterLoop st /\
    Rewrites maps (getTMAStores (loopBody st)) (nextId stA)
      (loopBody st) (loopBody st').
Proof.
  intros Hwf Hne Hun.
  set (stores := getTMAStores (loopBody st)) in *.
  destruct (alloc_loop st stores [] _ st (allocInv_start st))
    as (maps & stA & HrunA & HinvA).
  { simpl. apply getTMAStores_NoDup, Hwf. }
  { done. }
  simpl in HinvA. pose proof HinvA as HinvA'.
  destruct HinvA' as (HbodyA & HafterA & HevA &
    (created & HbeforeA & HlenA & HcrA & HnextA) & Hdom & Hdoms & _).
  set (stB := withBody stA (loopBody stA) (nextId stA)
                (events stA ++
                 ((fun s => HostSideTest (op s)) <$> tested stores))).
  assert (HwfB : wellFormed stB).
  { destruct Hwf as [Hnd Hbd]. split; simpl; rewrite HbodyA; [done|].
    eapply Forall_impl; [done|]. simpl. intros; lia. }
  destruct (rewrite_loop maps stores stB HwfB) as
    (stC & flags & HrunC & HwfC & HstC & HbC & HaC & HnC & Hprov & Hgone &
     Hlen & HevC & Hcount & Hchain).
  { simpl. by rewrite HbodyA. }
  { simpl. by rewrite HbodyA. }
  { intros s Hs. apply (elem_of_dom (D := gset nat)). rewrite Hdoms.
    apply elem_of_list_to_set. by apply list_elem_of_fmap_2. }
  set (its := map_to_list (storeToAlloc maps)).
  set (stD := withAfter stC
                (Op (nextId stC) (TMAStoreWaitOp 0) ::
                 imap (fun i it => Op (S (nextId stC) + i)
                                     (LocalDeallocOp (snd it))) its ++
                 afterLoop stC)
                (S (nextId stC) + length its)).
  set (stE := if anyDeviceSide stores
              then withBody stD (loopBody stD) (nextId stD)
                     (events stD ++ [LowerTMADescriptors {| numStages := 3 |}])
              else stD).
  exists maps, stA, flags, stE, (nextId stC).
  assert (Hrun : pipelineTMAStores st = Done true stE).
  { unfold pipelineTMAStores. unfold bind at 1. unfold getTMAStoresM at 1.
    fold stores.
    assert (Hmatch : forall (A : Type) (x y : A),
              match stores with [] => x | _ :: _ => y end = y)
      by (intros; by destruct stores).
    rewrite Hmatch.
    unfold bind at 1. rewrite HrunA.
    unfold bind at 1. rewrite any_of_run. fold stB.
    unfold bind at 1. rewrite HrunC.
    unfold bind at 1. unfold setInsertionPointAfterLoop at 1.
    unfold bind at 1. unfold bind at 1.
    rewrite (create_AfterLoop [] (afterLoop stC)) by done.
    unfold bind at 1. unfold bind at 1.
    rewrite (forEach_dealloc _ [Op (nextId stC) (TMAStoreWaitOp 0)]
               (afterLoop stC)) by done.
    fold its. unfold ret. unfold lowerTMADescriptorCreation.
    unfold stE. destruct (anyDeviceSide stores).
    - rewrite logEvent_run. reflexivity.
    - reflexivity. }
  assert (HbodyE : loopBody stE = loopBody stC).
  { unfold stE. by destruct (anyDeviceSide stores). }
  assert (HnextE : nextId stE = S (nextId stC) + length its).
  { unfold stE. by destruct (anyDeviceSide stores). }
  split_and!; try done.
  - unfold stE. destruct (anyDeviceSide stores); simpl; by rewrite HbC.
  - destruct HwfC as [Hnd Hbd]. split; rewrite HbodyE; [done|].
    rewrite HnextE. eapply Forall_impl; [done|]. simpl. intros; lia.
  - by rewrite HbodyE.
  - rewrite HbodyE. intros x Hx. destruct (Hprov x Hx) as [Hx'|Hx'].
    + left. simpl in Hx'. by rewrite HbodyA in Hx'.
    + right. simpl in Hx'. lia.
  - rewrite HbodyE. done.
  - replace (events stE) with
      (events stC ++ (if anyDeviceSide stores
                      then [LowerTMADescriptors {| numStages := 3 |}]
                      else [])).
    2:{ unfold stE. destruct (anyDeviceSide stores); simpl; [done|].
        by rewrite app_nil_r. }
    rewrite HevC. simpl. by rewrite <- !app_assoc.
  - intros p q Hpq. rewrite HbodyE.
    pose proof (Hcount p q Hpq) as Hc. simpl in Hc. rewrite HbodyA in Hc.
    assert (countOutside q (loopBody stC) = 0); [|lia].
    destruct Hpq as (_ & _ & Hqs & _).
    pose proof (countOutside_le q (loopBody stC) Hqs) as Hle.
    rewrite countOutside_storeLike, HstC in Hle. simpl in Hle. lia.
  - unfold stE. destruct (anyDeviceSide stores); simpl;
      rewrite HaC; simpl; by rewrite HafterA.
  - rewrite HbodyE. simpl in Hchain. by rewrite HbodyA in Hchain.
Qed.
End Running.

(** ** Counting variants and reading the events *)

Lemma countOutside_split (l : list Operation) :
  countOutside isStoreLike l =
  countOutside knownVariant l + countOutside isUnknownStore l.
Proof.
  assert (Hlist : forall l0,
    Forall (fun o => countOutsideIn isStoreLike o =
                     countOutsideIn knownVariant o +
                     countOutsideIn isUnknownStore o) l0 ->
    countOutside isStoreLike l0 =
    countOutside knownVariant l0 + countOutside isUnknownStore l0).
  { induction 1 as [|o r Ho _ IH]; [done|].
    rewrite !countOutside_cons. lia. }
  apply Hlist. apply Forall_forall. intros o _.
  induction o as [id k | id body IH | id name nested IH]
    using Operation_tree_ind; simpl.
  - by destruct k.
  - done.
  - apply Hlist, IH.
Qed.

Lemma issuePair_copy : issuePair isAsyncCopy isPlainStore.
Proof. unfold issuePair. split_and!; try done; intros; by destruct k. Qed.

Lemma issuePair_reduce : issuePair isAsyncReduce isReduceStore.
Proof. unfold issuePair. split_and!; try done; intros; by destruct k. Qed.

Lemma issuePair_scatter : issuePair isAsyncScatter isScatterStore.
Proof. unfold issuePair. split_and!; try done; intros; by destruct k. Qed.

Lemma issuePair_issue : issuePair isIssue knownVariant.
Proof. unfold issuePair. split_and!; try done; intros; by destruct k. Qed.

Lemma erasures_app (l1 l2 : list Event) :
  erasures (l1 ++ l2) = erasures l1 ++ erasures l2.
Proof. apply omap_app. Qed.

Lemma lowerings_app (l1 l2 : list Event) :
  lowerings (l1 ++ l2) = lowerings l1 ++ lowerings l2.
Proof. apply omap_app. Qed.

Lemma erasures_tests (l : list TMAStore) :
  erasures ((fun s => HostSideTest (op s)) <$> l) = [].
Proof. induction l as [|s r IH]; [done|]. apply IH. Qed.

Lemma lowerings_tests (l : list TMAStore) :
  lowerings ((fun s => HostSideTest (op s)) <$> l) = [].
Proof. induction l as [|s r IH]; [done|]. apply IH. Qed.

Lemma erasures_rewriteEvents (stores : list TMAStore) (flags : list bool) :
  length flags = length stores ->
  erasures (rewriteEvents (zip stores flags)) = op <$> stores.
Proof.
  revert flags. induction stores as [|s r IH]; intros [|f flags] Hlen;
    try done.
  cbn [zip zip_with rewriteEvents flat_map fst snd].
  rewrite !erasures_app. fold (rewriteEvents (zip r flags)).
  rewrite IH by (simpl in Hlen; lia). by destruct f.
Qed.

Lemma lowerings_rewriteEvents (l : list (TMAStore * bool)) :
  lowerings (rewriteEvents l) = [].
Proof.
  induction l as [|[s f] r IH]; [done|].
  cbn [rewriteEvents flat_map fst snd]. rewrite !lowerings_app.
  fold (rewriteEvents r). rewrite IH. by destruct f.
Qed.

Lemma inspectsLive_mono (e e' : list OpId) (l : list Event) :
  (forall t, t ∈ e' -> t ∈ e) -> inspectsLive e l -> inspectsLive e' l.
Proof.
  revert e e'. induction l as [|[t|t|t|t|sch] r IH]; intros e e' Hsub; simpl;
    try done.
  - intros [? ?]. split; [set_solver|by eapply IH].
  - intros [? ?]. split; [set_solver|by eapply IH].
  - intros [? ?]. split; [set_solver|by eapply IH].
  - apply IH. set_solver.
  - by apply IH.
Qed.

Lemma inspectsLive_app (e : list OpId) (l1 l2 : list Event) :
  inspectsLive e l1 ->
  inspectsLive (erasures l1 ++ e) l2 ->
  inspectsLive e (l1 ++ l2).
Proof.
  revert e. induction l1 as [|[t|t|t|t|sch] r IH]; intros e; simpl; try done.
  - intros [? ?] ?. split; [done|by apply IH].
  - intros [? ?] ?. split; [done|by apply IH].
  - intros [? ?] ?. split; [done|by apply IH].
  - intros H1 H2. apply IH; [done|].
    eapply inspectsLive_mono; [|exact H2].
    unfold erasures. simpl. fold (erasures r). set_solver.
  - intros ? ?. by apply IH.
Qed.

Lemma inspectsLive_tests (e : list OpId) (l : list TMAStore) :
  (forall s, s ∈ l -> op s ∉ e) ->
  inspectsLive e ((fun s => HostSideTest (op s)) <$> l).
Proof.
  induction l as [|s r IH]; intros Hl; simpl; [done|].
  split; [apply Hl; set_solver|apply IH; intros; apply Hl; set_solver].
Qed.

Lemma inspectsLive_rewriteEvents (e : list OpId) (stores : list TMAStore)
    (flags : list bool) :
  NoDup (op <$> stores) ->
  (forall s, s ∈ stores -> op s ∉ e) ->
  inspectsLive e (rewriteEvents (zip stores flags)).
Proof.
  revert e flags. induction stores as [|s r IH]; intros e [|f flags] Hnd He;
    try done.
  cbn [zip zip_with rewriteEvents flat_map fst snd].
  fold (rewriteEvents (zip r flags)).
  rewrite fmap_cons in Hnd. apply NoDup_cons in Hnd as [Hs Hnd].
  assert (Hrest : inspectsLive (op s :: e) (rewriteEvents (zip r flags))).
  { apply IH; [done|]. intros s' Hs' [Heq|?]%elem_of_cons.
    - apply Hs. rewrite <- Heq. by apply list_elem_of_fmap_2.
    - apply (He s'); set_solver. }
  destruct f; simpl; [split; [apply He; set_solver|done]|done].
Qed.

Lemma erasures_reads (seen : list TMAStore) (reads : list Event) :
  Forall (fun e => exists s, s ∈ seen /\ e = EncodingFromDescriptor (op s))
         reads ->
  erasures reads = [].
Proof. induction 1 as [|e r (s & _ & ->) _ IH]; [done|]. apply IH. Qed.

Lemma lowerings_reads (seen : list TMAStore) (reads : list Event) :
  Forall (fun e => exists s, s ∈ seen /\ e = EncodingFromDescriptor (op s))
         reads ->
  lowerings reads = [].
Proof. induction 1 as [|e r (s & _ & ->) _ IH]; [done|]. apply IH. Qed.

Lemma inspectsLive_reads (seen : list TMAStore) (reads : list Event) :
  Forall (fun e => exists s, s ∈ seen /\ e = EncodingFromDescriptor (op s))
         reads ->
  inspectsLive [] reads.
Proof.
  induction 1 as [|e r (s & _ & ->) _ IH]; [done|]. simpl. split; [|done].
  set_solver.
Qed.

Lemma anyDeviceSide_true `{Collaborators} (l : list TMAStore) :
  anyDeviceSide l = true <->
  exists s, s ∈ l /\ isHostSideDescriptor (desc s) = false.
Proof.
  unfold anyDeviceSide. rewrite existsb_exists. split.
  - intros (s & Hs & Hd). exists s. split; [by apply list_elem_of_In|].
    by destruct (isHostSideDescriptor (desc s)).
  - intros (s & Hs & Hd). exists s. split; [by apply list_elem_of_In|].
    by rewrite Hd.
Qed.

(** ** What the collector reaches *)

Lemma Reached_frame (id : OpId) (k : OpKind) (l a b : list Operation) :
  Reached id k l -> Reached id k (a ++ l ++ b).
Proof.
  intros [l1 l2 | l1 l2 rid name nested Hn].
  - replace (a ++ (l1 ++ Op id k :: l2) ++ b)
      with ((a ++ l1) ++ Op id k :: (l2 ++ b)) by by rewrite <- !app_assoc.
    constructor.
  - replace (a ++ (l1 ++ RegionOp rid name nested :: l2) ++ b)
      with ((a ++ l1) ++ RegionOp rid name nested :: (l2 ++ b))
      by by rewrite <- !app_assoc.
    by constructor.
Qed.

Lemma reached_Forall (s : TMAStore) (l : list Operation) :
  Forall (fun o => s ∈ walk o ->
            exists k, Reached (op s) k [o] /\
                      storeLike k = Some (desc s, src s)) l ->
  s ∈ getTMAStores l ->
  exists k, Reached (op s) k l /\ storeLike k = Some (desc s, src s).
Proof.
  induction 1 as [|o r Ho _ IH]; [set_solver|].
  change (getTMAStores (o :: r)) with (walk o ++ getTMAStores r).
  intros [Hin|Hin]%elem_of_app.
  - destruct (Ho Hin) as (k & Hr & Hk). exists k. split; [|done].
    apply (Reached_frame _ _ _ [] r Hr).
  - destruct (IH Hin) as (k & Hr & Hk). exists k. split; [|done].
    pose proof (Reached_frame _ _ _ [o] [] Hr) as Hf.
    by rewrite app_nil_r in Hf.
Qed.

Lemma reached_of_walk (s : TMAStore) (o : Operation) :
  s ∈ walk o ->
  exists k, Reached (op s) k [o] /\ storeLike k = Some (desc s, src s).
Proof.
  induction o as [id k | id body IH | id name nested IH]
    using Operation_tree_ind; simpl.
  - destruct (storeLike k) as [[d s0]|] eqn:Hk; [|set_solver].
    intros ->%list_elem_of_singleton. exists k. split; [|done].
    apply (ReachedHere id k [] []).
  - set_solver.
  - intros Hin. destruct (reached_Forall _ _ IH Hin) as (k & Hr & Hk).
    exists k. split; [|done]. by apply (ReachedInRegion _ _ [] []).
Qed.

Lemma reached_of_collected (s : TMAStore) (l : list Operation) :
  s ∈ getTMAStores l ->
  exists k, Reached (op s) k l /\ storeLike k = Some (desc s, src s).
Proof.
  apply reached_Forall, Forall_forall. intros o _. apply reached_of_walk.
Qed.

Lemma collected_of_reached (id : OpId) (k : OpKind) (l : list Operation)
    (d : TypedValue TensorDescType) (s : TypedValue RankedTensorType) :
  Reached id k l -> storeLike k = Some (d, s) ->
  {| op := id; desc := d; src := s |} ∈ getTMAStores l.
Proof.
  intros Hr Hk. induction Hr as [l1 l2 | l1 l2 rid name nested Hn IH].
  - rewrite getTMAStores_app.
    change (getTMAStores (Op id k :: l2))
      with (walk (Op id k) ++ getTMAStores l2).
    simpl. rewrite Hk. set_solver.
  - rewrite getTMAStores_app.
    change (getTMAStores (RegionOp rid name nested :: l2))
      with (getTMAStores nested ++ getTMAStores l2).
    set_solver.
Qed.

Lemma InNestedLoop_allIds (x : OpId) (l : list Operation) :
  InNestedLoop x l -> x ∈ allIds l.
Proof.
  induction 1 as [l1 l2 id body Hx | l1 l2 id name nested Hn IH];
    rewrite allIds_app, allIds_cons; simpl.
  - fold (allIds body). set_solver.
  - fold (allIds nested). set_solver.
Qed.

Lemma nested_not_collected (x : OpId) (l : list Operation) (s : TMAStore) :
  NoDup (allIds l) -> InNestedLoop x l -> s ∈ getTMAStores l -> op s ≠ x.
Proof.
  intros Hnd Hin. revert Hnd.
  induction Hin as [l1 l2 id body Hx | l1 l2 id name nested Hn IH];
    rewrite allIds_app, allIds_cons, getTMAStores_app; simpl;
    intros (Hd1 & Hdisj & [Hid [Hdb [Hdisj2 Hd2]]%NoDup_app]%NoDup_cons)%NoDup_app.
  - fold (allIds body) in *.
    change (getTMAStores (ForOp id body :: l2)) with (getTMAStores l2).
    intros [Hs%getTMAStores_allIds|Hs%getTMAStores_allIds]%elem_of_app
      Heq; subst x.
    + apply (Hdisj _ Hs). set_solver.
    + by apply (Hdisj2 (op s)).
  - fold (allIds nested) in *.
    change (getTMAStores (RegionOp id name nested :: l2))
      with (getTMAStores nested ++ getTMAStores l2).
    pose proof (InNestedLoop_allIds _ _ Hn) as Hxn.
    intros [Hs|[Hs|Hs]%elem_of_app]%elem_of_app.
    + apply getTMAStores_allIds in Hs. intros Heq; subst x.
      apply (Hdisj _ Hs). set_solver.
    + by apply IH.
    + apply getTMAStores_allIds in Hs. intros Heq; subst x.
      by apply (Hdisj2 (op s)).
Qed.

Lemma size_list_to_set_remove_dups (l : list (list Z * string)) :
  size (list_to_set l : gset (list Z * string)) = length (remove_dups l).
Proof.
  rewrite <- (size_list_to_set (C := gset (list Z * string)) (remove_dups l))
    by apply NoDup_remove_dups.
  f_equal. apply set_eq. intros x.
  by rewrite !elem_of_list_to_set, elem_of_remove_dups.
Qed.

Lemma elem_of_lowerings (sch : CoarseSchedule) (l : list Event) :
  LowerTMADescriptors sch ∈ l <-> sch ∈ lowerings l.
Proof.
  unfold lowerings. rewrite list_elem_of_omap. split.
  - intros Hin. by exists (LowerTMADescriptors sch).
  - intros ([t|t|t|t|sch'] & Hin & Heq); try done. by injection Heq as ->.
Qed.

Lemma rewriteEvents_no_test (l : list (TMAStore * bool)) (e : Event) :
  e ∈ rewriteEvents l -> isHostSideTest e = false.
Proof.
  induction l as [|[s f] r IH]; [set_solver|].
  cbn [rewriteEvents flat_map fst snd]. fold (rewriteEvents r).
  rewrite !elem_of_app.
  intros [[He|He]|He]; [|by apply list_elem_of_singleton in He as ->|auto].
  destruct f; [by apply list_elem_of_singleton in He as ->|set_solver].
Qed.

(** * The properties of the specification *)

Section Specification.
Context `{Collaborators}.

(** C5. A loop without eligible stores is left exactly as it is: the
    transform returns [false] and its final state is its initial state, so
    nothing was allocated, inserted or erased before, inside or after the
    loop, no identity was consumed, and no descriptor was inspected nor the
    descriptor-pipelining collaborator called. *)
Theorem no_op_without_stores (st : State) :
  getTMAStores (loopBody st) = [] ->
  pipelineTMAStores st = Done false st.
Proof. apply pipeline_empty. Qed.

(** C9. When every collected store is a plain, reduction or scatter store,
    the transform ends normally: no dereference dangles and the rewriter's
    final cast to the scatter variant never fails; each collected store,
    rewritten on its own, ends normally as well. *)
Theorem closed_case_analysis (st : State) :
  wellFormed st ->
  countOutside isUnknownStore (loopBody st) = 0 ->
  (exists b st', pipelineTMAStores st = Done b st') /\
  (forall store alloc, store ∈ getTMAStores (loopBody st) ->
     exists st', createTMAAsyncCopy store alloc st = Done tt st').
Proof.
  intros Hwf Hun. split.
  - destruct (getTMAStores (loopBody st)) as [|s r] eqn:Hst.
    + exists false, st. by apply pipeline_empty.
    + destruct (pipeline_run st Hwf) as (maps & stA & flags & st' & n & _ & _ &
                                         Hrun & _); [by rewrite Hst|done|].
      by exists true, st'.
  - intros store alloc Hin. destruct Hwf as [Hnd Hbd].
    destruct (locate store _ Hnd Hin) as (k & Hk & Hrep).
    eexists. apply (createTMAAsyncCopy_run store alloc k).
    + by eapply ReplacedBy_findOp, (Hrep []).
    + exact (located_known _ _ _ _ _ _ (Hrep []) Hk Hun).
    + rewrite Forall_forall in Hbd. by apply Hbd, getTMAStores_allIds.
Qed.

(** C1, as amended.  For every collected store of a well-formed loop whose
    stores are of the three variants, the rewriter ends normally and the
    body it leaves is the old one with the store replaced on the spot by:
    the drain-wait for zero outstanding transfers, the stage of the source
    into the assigned buffer, the fence, the operations that the index
    translation creates through the builder (for the plain and reduction
    variants; none for a scatter), and the issue of the store's variant.
    Nothing else lies between stage and fence, nothing but the translation's
    operations between fence and issue, and the store itself is erased. *)
Theorem createTMAAsyncCopy_sequence (store : TMAStore) (alloc : Value)
    (st : State) :
  wellFormed st ->
  store ∈ getTMAStores (loopBody st) ->
  countOutside isUnknownStore (loopBody st) = 0 ->
  exists k st' translation n,
    createTMAAsyncCopy store alloc st = Done tt st' /\
    storeLike k = Some (desc store, src store) /\
    ReplacedBy (op store) k
      ([ Op (nextId st) (TMAStoreWaitOp 0);
         Op (S (nextId st)) (LocalStoreOp (src store) alloc);
         Op (S (S (nextId st))) (FenceAsyncSharedOp false) ] ++
       translation ++ [ Op n (issueFor store alloc k) ])
      (loopBody st) (loopBody st') /\
    translation = translationFor k (3 + nextId st) /\
    Forall (fun o => exists id name operands,
                       o = Op id (OtherOp name operands)) translation /\
    (isScatterStore k = true -> translation = []) /\
    isAsyncCopy (issueFor store alloc k) = isPlainStore k /\
    isAsyncReduce (issueFor store alloc k) = isReduceStore k /\
    isAsyncScatter (issueFor store alloc k) = isScatterStore k /\
    (op store ∉ allIds (loopBody st')) /\
    erasures (events st') = erasures (events st) ++ [op store] /\
    beforeLoop st' = beforeLoop st /\ afterLoop st' = afterLoop st.
Proof.
  intros [Hnd Hbd] Hin Hun.
  destruct (locate store _ Hnd Hin) as (k & Hk & Hrep).
  assert (Hknown : knownVariant k = true)
    by exact (located_known _ _ _ _ _ _ (Hrep []) Hk Hun).
  assert (Hlt : op store < nextId st).
  { rewrite Forall_forall in Hbd. by apply Hbd, getTMAStores_allIds. }
  specialize (Hrep (asyncSequence store alloc k (nextId st))).
  exists k. eexists. exists (translationFor k (3 + nextId st)).
  exists (3 + nextId st + length (translationFor k (3 + nextId st))).
  split.
  { apply (createTMAAsyncCopy_run store alloc k);
      [by eapply ReplacedBy_findOp|done|done]. }
  rewrite loopBody_withBody, events_withBody.
  split_and!; try done.
  - apply translationFor_other.
  - by destruct k.
  - by destruct k.
  - by destruct k.
  - by destruct k.
  - eapply ReplacedBy_gone; [exact Hrep|done|].
    rewrite asyncSequence_seq. intros Hx%elem_of_seq. lia.
  - rewrite !erasures_app. f_equal. by destruct k.
Qed.


(** C6. On a well-formed loop with N >= 1 eligible stores, all of the three
    variants, the transform returns [true]; no eligible store is left in the
    loop, no operation of the loop bears the identity of a collected store,
    each collected store was erased exactly once (the erasures, in order, are
    the collected stores, which are pairwise distinct); the loop holds N
    issue operations more than before, and for each variant as many more
    issue operations of that variant as stores of that variant were
    collected.  In particular a loop that held no issue operation holds
    exactly N. *)
Theorem exhaustive_replacement (st : State) :
  wellFormed st ->
  1 <= length (getTMAStores (loopBody st)) ->
  countOutside isUnknownStore (loopBody st) = 0 ->
  exists st',
    pipelineTMAStores st = Done true st' /\
    getTMAStores (loopBody st') = [] /\
    (forall s, s ∈ getTMAStores (loopBody st) ->
               op s ∉ allIds (loopBody st')) /\
    erasures (events st') =
      erasures (events st) ++ (op <$> getTMAStores (loopBody st)) /\
    NoDup (op <$> getTMAStores (loopBody st)) /\
    countOps isIssue (loopBody st') =
      countOps isIssue (loopBody st) + length (getTMAStores (loopBody st)) /\
    countOps isAsyncCopy (loopBody st') =
      countOps isAsyncCopy (loopBody st) +
      countOutside isPlainStore (loopBody st) /\
    countOps isAsyncReduce (loopBody st') =
      countOps isAsyncReduce (loopBody st) +
      countOutside isReduceStore (loopBody st) /\
    countOps isAsyncScatter (loopBody st') =
      countOps isAsyncScatter (loopBody st) +
      countOutside isScatterStore (loopBody st) /\
    (countOps isIssue (loopBody st) = 0 ->
     countOps isIssue (loopBody st') = length (getTMAStores (loopBody st))).
Proof.
  intros Hwf HN Hun.
  destruct (pipeline_run st Hwf) as
    (maps & stA & flags & st' & n & _ & Hinv & Hrun & _ & _ & Hst' & _ &
     Hgone & Hlen & Hev & Hcount & _); [|done|].
  { intros Hnil. rewrite Hnil in HN. simpl in HN. lia. }
  destruct Hinv as (_ & _ & (reads & HevA & Hreads) & _).
  assert (Hissue : countOps isIssue (loopBody st') =
                   countOps isIssue (loopBody st) +
                   length (getTMAStores (loopBody st))).
  { rewrite (Hcount _ _ issuePair_issue).
    rewrite <- countOutside_storeLike, countOutside_split, Hun. lia. }
  exists st'. split_and!; try done.
  - rewrite Hev, HevA, !erasures_app, (erasures_reads _ _ Hreads),
      erasures_tests, erasures_rewriteEvents by done.
    destruct (anyDeviceSide (getTMAStores (loopBody st))); simpl;
      by rewrite !app_nil_r.
  - apply getTMAStores_NoDup, Hwf.
  - apply (Hcount _ _ issuePair_copy).
  - apply (Hcount _ _ issuePair_reduce).
  - apply (Hcount _ _ issuePair_scatter).
  - intros H0. by rewrite Hissue, H0.
Qed.

(** C8. On a well-formed loop whose stores are of the three variants, the
    descriptor-pipelining collaborator is called if and only if the
    descriptor of at least one collected store is not host-side; it is then
    called once, with a schedule of three stages, and never with another. *)
Theorem trigger_condition (st : State) :
  wellFormed st ->
  countOutside isUnknownStore (loopBody st) = 0 ->
  exists b st' new,
    pipelineTMAStores st = Done b st' /\
    events st' = events st ++ new /\
    lowerings new =
      (if anyDeviceSide (getTMAStores (loopBody st))
       then [ {| numStages := 3 |} ] else []) /\
    (forall sch,
       LowerTMADescriptors sch ∈ new <->
       sch = {| numStages := 3 |} /\
       exists s, s ∈ getTMAStores (loopBody st) /\
                 isHostSideDescriptor (desc s) = false).
Proof.
  intros Hwf Hun.
  assert (Hgoal : exists b st' new,
    pipelineTMAStores st = Done b st' /\
    events st' = events st ++ new /\
    lowerings new =
      (if anyDeviceSide (getTMAStores (loopBody st))
       then [ {| numStages := 3 |} ] else [])).
  { destruct (getTMAStores (loopBody st)) as [|s r] eqn:Hst.
    - exists false, st, []. rewrite app_nil_r. split_and!; try done.
      by apply pipeline_empty.
    - destruct (pipeline_run st Hwf) as
        (maps & stA & flags & st' & n & _ & Hinv & Hrun & _ & _ & _ & _ & _ &
         _ & Hev & _); [by rewrite Hst|done|].
      destruct Hinv as (_ & _ & (reads & HevA & Hreads) & _).
      rewrite Hst, HevA, <- app_assoc in Hev.
      eexists true, st', _. split_and!; [done|done|].
      rewrite !lowerings_app, (lowerings_reads _ _ Hreads), lowerings_tests,
        lowerings_rewriteEvents.
      by destruct (anyDeviceSide (s :: r)). }
  destruct Hgoal as (b & st' & new & Hrun & Hev & Hlow).
  exists b, st', new. split_and!; try done.
  intros sch. rewrite elem_of_lowerings, Hlow, <- anyDeviceSide_true.
  destruct (anyDeviceSide (getTMAStores (loopBody st))).
  - rewrite list_elem_of_singleton. naive_solver.
  - split; [set_solver|]. by intros [_ ?].
Qed.

(** C10. On a well-formed loop whose stores are of the three variants, the
    events of the transform are, in this order: the derivations of a buffer
    encoding from a descriptor made while allocating; the host-side tests of
    the trigger (over the collected stores, up to the first device-side
    descriptor); and further events among which there is no host-side test.
    Nothing is erased before the tests are over; along the whole run no
    descriptor of a store is inspected once that store has been erased; and
    the collaborator is called according to the descriptors recorded at
    collection, before any rewriting. *)
Theorem trigger_test_precedes_erasure (st : State) :
  wellFormed st ->
  countOutside isUnknownStore (loopBody st) = 0 ->
  exists b st' reads tests rest,
    pipelineTMAStores st = Done b st' /\
    events st' = events st ++ reads ++ tests ++ rest /\
    Forall (fun e => exists s, s ∈ getTMAStores (loopBody st) /\
                               e = EncodingFromDescriptor (op s)) reads /\
    tests = ((fun s => HostSideTest (op s)) <$>
               tested (getTMAStores (loopBody st))) /\
    erasures (reads ++ tests) = [] /\
    (forall e, e ∈ rest -> isHostSideTest e = false) /\
    erasures rest = (op <$> getTMAStores (loopBody st)) /\
    inspectsLive [] (reads ++ tests ++ rest) /\
    lowerings rest =
      (if anyDeviceSide (getTMAStores (loopBody st))
       then [ {| numStages := 3 |} ] else []).
Proof.
  intros Hwf Hun.
  destruct (getTMAStores (loopBody st)) as [|s r] eqn:Hst.
  - exists false, st, [], [], []. rewrite !app_nil_r.
    split_and!; try done; [by apply pipeline_empty|set_solver].
  - destruct (pipeline_run st Hwf) as
      (maps & stA & flags & st' & n & _ & Hinv & Hrun & _ & _ & _ & _ & _ &
       Hlen & Hev & _); [by rewrite Hst|done|].
    destruct Hinv as (_ & _ & (reads & HevA & Hreads) & _).
    rewrite Hst in Hev, Hlen, Hreads. rewrite HevA, <- app_assoc in Hev.
    pose proof (getTMAStores_NoDup _ (proj1 Hwf)) as Hnd. rewrite Hst in Hnd.
    eexists true, st', reads, _, _.
    split_and!; [done|exact Hev|done|done| | | | |].
    + rewrite erasures_app, (erasures_reads _ _ Hreads). apply erasures_tests.
    + intros e [He|He]%elem_of_app.
      * by apply rewriteEvents_no_test in He.
      * destruct (anyDeviceSide (s :: r)); [|set_solver].
        by apply list_elem_of_singleton in He as ->.
    + rewrite erasures_app, erasures_rewriteEvents by done.
      destruct (anyDeviceSide (s :: r)); simpl; by rewrite app_nil_r.
    + apply inspectsLive_app; [by eapply inspectsLive_reads|].
      rewrite (erasures_reads _ _ Hreads), app_nil_r.
      apply inspectsLive_app; [apply inspectsLive_tests; set_solver|].
      rewrite erasures_tests, app_nil_r.
      apply inspectsLive_app;
        [apply inspectsLive_rewriteEvents; [done|set_solver]|].
      by destruct (anyDeviceSide (s :: r)).
    + rewrite lowerings_app, lowerings_rewriteEvents.
      by destruct (anyDeviceSide (s :: r)).
Qed.

(** C4. On a well-formed loop the allocation loop ends normally, leaving
    the body untouched and the new allocations right before the loop; every
    collected store is assigned the buffer that [allocs] holds for its
    (shape, element type) key; two collected stores are assigned the same
    buffer exactly when their keys are equal; [allocs] holds one buffer per
    key of a collected store, each created by one allocation (mutable, in
    shared memory), so that as many buffers are allocated as there are
    distinct keys; these are the allocations that the whole transform
    leaves before the loop.  In particular, for three stores of which the
    first two agree on the key and the third differs, two buffers are
    allocated, one shared by the first two stores and another for the
    third. *)
Theorem buffer_sharing (st : State) :
  wellFormed st ->
  exists maps st' created,
    forFold (getTMAStores (loopBody st)) assignAlloc
      {| storeToAlloc := ∅; allocs := ∅ |} st = Done maps st' /\
    beforeLoop st' = beforeLoop st ++ created /\
    loopBody st' = loopBody st /\
    Forall (allocatedFor maps) created /\
    length created = size (allocs maps) /\
    dom (allocs maps) = list_to_set (keyOf <$> getTMAStores (loopBody st)) /\
    length created =
      length (remove_dups (keyOf <$> getTMAStores (loopBody st))) /\
    (forall s, s ∈ getTMAStores (loopBody st) ->
       exists a, storeToAlloc maps !! op s = Some a /\
                 allocs maps !! keyOf s = Some a) /\
    (forall s1 s2 a1 a2,
       s1 ∈ getTMAStores (loopBody st) -> s2 ∈ getTMAStores (loopBody st) ->
       storeToAlloc maps !! op s1 = Some a1 ->
       storeToAlloc maps !! op s2 = Some a2 ->
       (a1 = a2 <-> keyOf s1 = keyOf s2)) /\
    (forall s1 s2 s3,
       getTMAStores (loopBody st) = [s1; s2; s3] ->
       keyOf s1 = keyOf s2 -> keyOf s3 <> keyOf s1 ->
       length created = 2 /\
       exists a b, a <> b /\ storeToAlloc maps !! op s1 = Some a /\
                   storeToAlloc maps !! op s2 = Some a /\
                   storeToAlloc maps !! op s3 = Some b) /\
    (getTMAStores (loopBody st) <> [] ->
     countOutside isUnknownStore (loopBody st) = 0 ->
     exists st'', pipelineTMAStores st = Done true st'' /\
                  beforeLoop st'' = beforeLoop st ++ created).
Proof.
  intros Hwf.
  destruct (alloc_loop st (getTMAStores (loopBody st)) [] _ st
              (allocInv_start st)) as (maps & st' & Hrun & Hinv).
  { simpl. apply getTMAStores_NoDup, Hwf. }
  { done. }
  simpl in Hinv.
  destruct Hinv as (Hbody & Hafter & _ & (created & Hbefore & Hlen & Hcr &
                    Hnext) & Hdom & Hdoms & Hagree & Hres & Hinj).
  assert (Hget : forall s, s ∈ getTMAStores (loopBody st) ->
            exists a, storeToAlloc maps !! op s = Some a /\
                      allocs maps !! keyOf s = Some a).
  { intros s Hs.
    assert (Hk : keyOf s ∈ dom (allocs maps)).
    { rewrite Hdom. apply elem_of_list_to_set. by apply list_elem_of_fmap_2. }
    apply elem_of_dom in Hk as [a Ha]. exists a. split; [|done].
    by rewrite Hagree. }
  assert (Hiff : forall s1 s2 a1 a2,
            s1 ∈ getTMAStores (loopBody st) ->
            s2 ∈ getTMAStores (loopBody st) ->
            storeToAlloc maps !! op s1 = Some a1 ->
            storeToAlloc maps !! op s2 = Some a2 ->
            (a1 = a2 <-> keyOf s1 = keyOf s2)).
  { intros s1 s2 a1 a2 H1 H2. rewrite (Hagree _ H1), (Hagree _ H2).
    intros Ha1 Ha2. split.
    - intros <-. by eapply Hinj.
    - intros Heq. rewrite Heq in Ha1. congruence. }
  assert (Hcount : length created =
            length (remove_dups (keyOf <$> getTMAStores (loopBody st)))).
  { rewrite Hlen, <- size_list_to_set_remove_dups, <- Hdom.
    symmetry. apply (size_dom (D := gset (list Z * string))). }
  exists maps, st', created. split_and!; try done.
  - intros s1 s2 s3 Hst H12 H31. rewrite Hst in *.
    split.
    + rewrite Hcount. simpl. rewrite <- H12.
      destruct (decide_rel elem_of (keyOf s1) [keyOf s1; keyOf s3])
        as [_|Hn]; [|set_solver].
      destruct (decide_rel elem_of (keyOf s1) [keyOf s3])
        as [Hy|_]; [|done].
      apply list_elem_of_singleton in Hy. congruence.
    + destruct (Hget s1) as (a & Ha & _); [set_solver|].
      destruct (Hget s2) as (a' & Ha' & _); [set_solver|].
      destruct (Hget s3) as (b & Hb & _); [set_solver|].
      assert (a = a') as <-.
      { apply (Hiff s1 s2); [set_solver|set_solver|done|done|done]. }
      exists a, b. split_and!; try done.
      intros ->. apply H31. symmetry.
      apply (Hiff s1 s3 b b); [set_solver|set_solver|done|done|done].
  - intros Hne Hun.
    destruct (pipeline_run st Hwf Hne Hun) as
      (maps' & stA & flags & st'' & n & HrunA & _ & Hrun' & Hb & _).
    rewrite Hrun in HrunA. injection HrunA as <- <-.
    exists st''. split; [done|]. by rewrite Hb.
Qed.

(** C7, as amended.  The collector records a store exactly when it is a
    store-like operation lying in the body outside every nested [scf.for];
    a nested [scf.for] contributes nothing, whatever its body holds, and in
    a body with pairwise distinct identities no recorded store is an
    operation from inside a nested [scf.for]; the stores are recorded in
    the order of the pre-order walk; collecting changes nothing in the
    state; and every other operation holding regions, a loop that is not
    an [scf.for] included, contributes the stores of its regions. *)
Theorem collector_skips_nested_loops :
  (forall body s,
     s ∈ getTMAStores body <->
     exists k, Reached (op s) k body /\
               storeLike k = Some (desc s, src s)) /\
  (forall l1 l2 id body,
     getTMAStores (l1 ++ ForOp id body :: l2) =
     getTMAStores l1 ++ getTMAStores l2) /\
  (forall body x s,
     NoDup (allIds body) -> InNestedLoop x body ->
     s ∈ getTMAStores body -> op s <> x) /\
  (forall body, (op <$> getTMAStores body) `sublist_of` allIds body) /\
  (forall l1 l2, getTMAStores (l1 ++ l2) =
                 getTMAStores l1 ++ getTMAStores l2) /\
  (forall st, getTMAStoresM st = Done (getTMAStores (loopBody st)) st) /\
  (forall l1 l2 id name nested,
     getTMAStores (l1 ++ RegionOp id name nested :: l2) =
     getTMAStores l1 ++ getTMAStores nested ++ getTMAStores l2).
Proof.
  split_and!.
  - intros body s. split; [apply reached_of_collected|].
    intros (k & Hr & Hk). destruct s as [t d s0]. simpl in *.
    by eapply collected_of_reached.
  - intros l1 l2 id body. by rewrite getTMAStores_app.
  - intros body x s Hnd Hin Hs. by eapply nested_not_collected.
  - apply getTMAStores_sublist.
  - apply getTMAStores_app.
  - done.
  - intros l1 l2 id name nested. by rewrite getTMAStores_app.
Qed.

(** What the epilogue leaves after the loop, on a well-formed loop with at
    least one store, all of the three variants: one wait for zero
    outstanding transfers, then one deallocation per entry of
    [storeToAlloc], that is one per collected store. *)
Lemma epilogue_per_store (st : State) :
  wellFormed st ->
  getTMAStores (loopBody st) <> [] ->
  countOutside isUnknownStore (loopBody st) = 0 ->
  exists st' n deallocs,
    pipelineTMAStores st = Done true st' /\
    afterLoop st' = Op n (TMAStoreWaitOp 0) :: deallocs ++ afterLoop st /\
    Forall (fun o => exists id v, o = Op id (LocalDeallocOp v)) deallocs /\
    length deallocs = length (getTMAStores (loopBody st)).
Proof.
  intros Hwf Hne Hun.
  destruct (pipeline_run st Hwf Hne Hun) as
    (maps & stA & flags & st' & n & _ & Hinv & Hrun & _ & _ & _ & _ & _ & _ &
     _ & _ & Hafter & _).
  destruct Hinv as (_ & _ & _ & _ & _ & Hdoms & _).
  eexists st', n, _. split_and!; [done|exact Hafter| |].
  - apply Forall_forall. intros o (i & it & -> & _)%elem_of_lookup_imap. eauto.
  - rewrite length_imap, length_map_to_list.
    rewrite <- (size_dom (D := gset nat)), Hdoms.
    rewrite size_list_to_set by apply getTMAStores_NoDup, Hwf.
    by rewrite length_fmap.
Qed.

(** X8. The loop body that the transform leaves, on a well-formed loop
    with at least one store, all of the three variants: the collected
    stores have been replaced one after the other, in the order of
    collection, each on the spot by the sequence that stages it into the
    buffer assigned to its key. *)
Lemma pipeline_rewrites_in_order (st : State) :
  wellFormed st ->
  getTMAStores (loopBody st) <> [] ->
  countOutside isUnknownStore (loopBody st) = 0 ->
  exists maps stA st',
    forFold (getTMAStores (loopBody st)) assignAlloc
      {| storeToAlloc := ∅; allocs := ∅ |} st = Done maps stA /\
    pipelineTMAStores st = Done true st' /\
    (forall s, s ∈ getTMAStores (loopBody st) ->
               storeToAlloc maps !! op s = allocs maps !! keyOf s) /\
    Rewrites maps (getTMAStores (loopBody st)) (nextId stA)
      (loopBody st) (loopBody st').
Proof.
  intros Hwf Hne Hun.
  destruct (pipeline_run st Hwf Hne Hun) as
    (maps & stA & flags & st' & n & HrunA & Hinv & Hrun & _ & _ & _ & _ & _ &
     _ & _ & _ & _ & Hchain).
  destruct Hinv as (_ & _ & _ & _ & _ & _ & Hagree & _).
  by exists maps, stA, st'.
Qed.
End Specification.

(** * The properties on sample loops *)

(** C5 on a loop whose only store lies in a nested loop. *)
Lemma no_op_without_stores_witness :
  getTMAStores (loopBody storelessLoop) = [] /\
  @pipelineTMAStores sampleCollaborators storelessLoop =
  Done false storelessLoop.
Proof.
  split; [reflexivity|].
  apply (@no_op_without_stores sampleCollaborators). reflexivity.
Defined.

(** C9 on a loop with a store of each variant. *)
Lemma closed_case_analysis_witness :
  wellFormed deviceLoop /\
  countOutside isUnknownStore (loopBody deviceLoop) = 0 /\
  (exists b st', @pipelineTMAStores sampleCollaborators deviceLoop =
                 Done b st') /\
  (forall store alloc, store ∈ getTMAStores (loopBody deviceLoop) ->
     exists st', @createTMAAsyncCopy sampleCollaborators store alloc deviceLoop
                 = Done tt st').
Proof.
  split; [solve_wellFormed|]. split; [reflexivity|].
  apply (@closed_case_analysis sampleCollaborators);
    [solve_wellFormed|reflexivity].
Defined.

(** Without the precondition of C9 the rewriter's last cast does fail. *)
Example foreign_store_fails_cast :
  @pipelineTMAStores sampleCollaborators foreignLoop = Crash (FailedCast 0).
Proof. reflexivity. Qed.

(** C1 as stated fails where the index translation creates operations: for
    a plain store through a descriptor of encoding 1 the sample translation
    puts a constant and a multiplication between the fence and the issue, so
    that the fence is not directly followed by the issue. *)
Lemma createTMAAsyncCopy_interleaved :
  exists st',
    @createTMAAsyncCopy sampleCollaborators paddedStore (OpResult 9) paddedLoop
    = Done tt st' /\
    loopBody st' =
      [ Op 1 (TMAStoreWaitOp 0);
        Op 2 (LocalStoreOp (tile 10 [64%Z; 64%Z] "f16") (OpResult 9));
        Op 3 (FenceAsyncSharedOp false);
        Op 4 (OtherOp "arith.constant" []);
        Op 5 (OtherOp "arith.muli" [BlockArgument 21; OpResult 4]);
        Op 6 (AsyncTMACopyLocalToGlobalOp (hostDesc 0 1)
                [BlockArgument 20; BlockArgument 21] (OpResult 9)) ] /\
    directlyFollowed isLocalStore isFence (loopBody st') = true /\
    directlyFollowed isFence isIssue (loopBody st') = false.
Proof.
  eexists. split; [vm_compute; reflexivity|]. by split_and!.
Qed.

(** C1, as amended, on the store whose index translation creates
    operations. *)
Lemma createTMAAsyncCopy_sequence_witness :
  wellFormed paddedLoop /\
  paddedStore ∈ getTMAStores (loopBody paddedLoop) /\
  countOutside isUnknownStore (loopBody paddedLoop) = 0 /\
  exists k st' translation n,
    @createTMAAsyncCopy sampleCollaborators paddedStore (OpResult 9) paddedLoop
    = Done tt st' /\
    storeLike k = Some (desc paddedStore, src paddedStore) /\
    ReplacedBy (op paddedStore) k
      ([ Op (nextId paddedLoop) (TMAStoreWaitOp 0);
         Op (S (nextId paddedLoop))
           (LocalStoreOp (src paddedStore) (OpResult 9));
         Op (S (S (nextId paddedLoop))) (FenceAsyncSharedOp false) ] ++
       translation ++ [ Op n (issueFor paddedStore (OpResult 9) k) ])
      (loopBody paddedLoop) (loopBody st') /\
    translation =
      @translationFor sampleCollaborators k (3 + nextId paddedLoop) /\
    Forall (fun o => exists id name operands,
                       o = Op id (OtherOp name operands)) translation /\
    (isScatterStore k = true -> translation = []) /\
    isAsyncCopy (issueFor paddedStore (OpResult 9) k) = isPlainStore k /\
    isAsyncReduce (issueFor paddedStore (OpResult 9) k) = isReduceStore k /\
    isAsyncScatter (issueFor paddedStore (OpResult 9) k) = isScatterStore k /\
    (op paddedStore ∉ allIds (loopBody st')) /\
    erasures (events st') = erasures (events paddedLoop) ++ [op paddedStore] /\
    beforeLoop st' = beforeLoop paddedLoop /\
    afterLoop st' = afterLoop paddedLoop.
Proof.
  split; [solve_wellFormed|].
  split; [vm_compute; left|].
  split; [reflexivity|].
  apply (@createTMAAsyncCopy_sequence sampleCollaborators);
    [solve_wellFormed|vm_compute; left|reflexivity].
Defined.

(** C2 fails on the code.  For two stores of tiles of one shape and element
    type the transform allocates a single buffer, and the epilogue, which
    walks [storeToAlloc], deallocates that buffer twice after the wait. *)
Theorem epilogue_deallocates_per_store :
  exists st',
    @pipelineTMAStores sampleCollaborators twinLoop = Done true st' /\
    countOps isLocalAlloc (beforeLoop st') = 1 /\
    afterLoop st' =
      [ Op 11 (TMAStoreWaitOp 0);
        Op 12 (LocalDeallocOp (OpResult 2));
        Op 13 (LocalDeallocOp (OpResult 2)) ] /\
    deallocated (afterLoop st') = [OpResult 2; OpResult 2].
Proof.
  eexists. split; [vm_compute; reflexivity|]. by split_and!.
Qed.

(** C3 fails on the code.  For a plain store through a descriptor of
    encoding 1 the sample translation yields the indices with the last one
    replaced by the product it creates, yet the issued copy carries the
    store's own indices; the translation's operations stay in the loop. *)
Theorem issue_uses_untranslated_indices :
  exists st',
    @createTMAAsyncCopy sampleCollaborators paddedStore (OpResult 9) paddedLoop
    = Done tt st' /\
    @translated sampleCollaborators 1 [BlockArgument 20; BlockArgument 21] 4
    = [BlockArgument 20; OpResult 5] /\
    last (loopBody st') =
      Some (Op 6 (AsyncTMACopyLocalToGlobalOp (hostDesc 0 1)
                    [BlockArgument 20; BlockArgument 21] (OpResult 9))) /\
    countOps isAsyncCopy (loopBody st') = 1 /\
    countOps isOtherOp (loopBody st') = 2.
Proof.
  eexists. split; [vm_compute; reflexivity|]. by split_and!.
Qed.

(** C4 on the sample body: two 64x64 tiles and one 32x64 tile. *)
Lemma buffer_sharing_witness :
  wellFormed sampleLoop /\
  exists maps st' created,
    forFold (getTMAStores (loopBody sampleLoop))
      (@assignAlloc sampleCollaborators)
      {| storeToAlloc := ∅; allocs := ∅ |} sampleLoop = Done maps st' /\
    beforeLoop st' = beforeLoop sampleLoop ++ created /\
    loopBody st' = loopBody sampleLoop /\
    Forall (allocatedFor maps) created /\
    length created = size (allocs maps) /\
    dom (allocs maps) =
      list_to_set (keyOf <$> getTMAStores (loopBody sampleLoop)) /\
    length created =
      length (remove_dups (keyOf <$> getTMAStores (loopBody sampleLoop))) /\
    (forall s, s ∈ getTMAStores (loopBody sampleLoop) ->
       exists a, storeToAlloc maps !! op s = Some a /\
                 allocs maps !! keyOf s = Some a) /\
    (forall s1 s2 a1 a2,
       s1 ∈ getTMAStores (loopBody sampleLoop) ->
       s2 ∈ getTMAStores (loopBody sampleLoop) ->
       storeToAlloc maps !! op s1 = Some a1 ->
       storeToAlloc maps !! op s2 = Some a2 ->
       (a1 = a2 <-> keyOf s1 = keyOf s2)) /\
    (forall s1 s2 s3,
       getTMAStores (loopBody sampleLoop) = [s1; s2; s3] ->
       keyOf s1 = keyOf s2 -> keyOf s3 <> keyOf s1 ->
       length created = 2 /\
       exists a b, a <> b /\ storeToAlloc maps !! op s1 = Some a /\
                   storeToAlloc maps !! op s2 = Some a /\
                   storeToAlloc maps !! op s3 = Some b) /\
    (getTMAStores (loopBody sampleLoop) <> [] ->
     countOutside isUnknownStore (loopBody sampleLoop) = 0 ->
     exists st'', @pipelineTMAStores sampleCollaborators sampleLoop
                  = Done true st'' /\
                  beforeLoop st'' = beforeLoop sampleLoop ++ created).
Proof.
  split; [solve_wellFormed|].
  apply (@buffer_sharing sampleCollaborators). solve_wellFormed.
Defined.

(** C6 on a loop with a store of each variant. *)
Lemma exhaustive_replacement_witness :
  wellFormed deviceLoop /\
  1 <= length (getTMAStores (loopBody deviceLoop)) /\
  countOutside isUnknownStore (loopBody deviceLoop) = 0 /\
  exists st',
    @pipelineTMAStores sampleCollaborators deviceLoop = Done true st' /\
    getTMAStores (loopBody st') = [] /\
    (forall s, s ∈ getTMAStores (loopBody deviceLoop) ->
               op s ∉ allIds (loopBody st')) /\
    erasures (events st') =
      erasures (events deviceLoop) ++
      (op <$> getTMAStores (loopBody deviceLoop)) /\
    NoDup (op <$> getTMAStores (loopBody deviceLoop)) /\
    countOps isIssue (loopBody st') =
      countOps isIssue (loopBody deviceLoop) +
      length (getTMAStores (loopBody deviceLoop)) /\
    countOps isAsyncCopy (loopBody st') =
      countOps isAsyncCopy (loopBody deviceLoop) +
      countOutside isPlainStore (loopBody deviceLoop) /\
    countOps isAsyncReduce (loopBody st') =
      countOps isAsyncReduce (loopBody deviceLoop) +
      countOutside isReduceStore (loopBody deviceLoop) /\
    countOps isAsyncScatter (loopBody st') =
      countOps isAsyncScatter (loopBody deviceLoop) +
      countOutside isScatterStore (loopBody deviceLoop) /\
    (countOps isIssue (loopBody deviceLoop) = 0 ->
     countOps isIssue (loopBody st') =
     length (getTMAStores (loopBody deviceLoop))).
Proof.
  split; [solve_wellFormed|]. split; [vm_compute; lia|].
  split; [reflexivity|].
  apply (@exhaustive_replacement sampleCollaborators);
    [solve_wellFormed|vm_compute; lia|reflexivity].
Defined.

(** C7 as stated fails for a nested loop that is not an [scf.for]: the
    walk skips [scf.for] only, so the store inside a nested [scf.while] is
    collected, and the transform rewrites it inside that loop. *)
Lemma collector_enters_nested_while :
  getTMAStores (loopBody whileLoop) =
    [ {| op := 1; desc := hostDesc 0 0;
         src := tile 10 [64%Z; 64%Z] "f16" |} ] /\
  exists st',
    @pipelineTMAStores sampleCollaborators whileLoop = Done true st' /\
    loopBody st' =
      [ RegionOp 0 "scf.while"
          [ Op 3 (TMAStoreWaitOp 0);
            Op 4 (LocalStoreOp (tile 10 [64%Z; 64%Z] "f16") (OpResult 2));
            Op 5 (FenceAsyncSharedOp false);
            Op 6 (AsyncTMACopyLocalToGlobalOp (hostDesc 0 0)
                    [BlockArgument 20; BlockArgument 21] (OpResult 2)) ] ].
Proof.
  split; [reflexivity|]. eexists. split; [vm_compute; reflexivity|done].
Qed.

(** C7, as amended, on the sample body, for the store inside its nested
    [scf.for]. *)
Lemma collector_skips_nested_loops_witness :
  NoDup (allIds sampleBody) /\ InNestedLoop 4 sampleBody /\
  forall s, s ∈ getTMAStores sampleBody -> op s <> 4.
Proof.
  assert (Hin : InNestedLoop 4 sampleBody).
  { apply (InLoopBody 4
             [ Op 0 (DescriptorStoreOp (hostDesc 0 0)
                       (tile 10 [64%Z; 64%Z] "f16")
                       [BlockArgument 20; BlockArgument 21]);
               RegionOp 1 "scf.if"
                 [ Op 2 (DescriptorStoreOp (hostDesc 1 0)
                           (tile 11 [64%Z; 64%Z] "f16")
                           [BlockArgument 22; BlockArgument 23]) ] ]
             [ Op 5 (DescriptorScatterOp (hostDesc 2 0) (BlockArgument 26)
                       (BlockArgument 27) (tile 13 [32%Z; 64%Z] "f16")) ]
             3).
    vm_compute. left. }
  split; [decide_by_computation|]. split; [exact Hin|].
  intros s. destruct collector_skips_nested_loops as (_ & _ & Hex & _).
  apply Hex; [decide_by_computation|exact Hin].
Defined.

(** C8 on a loop one of whose descriptors is made inside the loop. *)
Lemma trigger_condition_witness :
  wellFormed deviceLoop /\
  countOutside isUnknownStore (loopBody deviceLoop) = 0 /\
  exists b st' new,
    @pipelineTMAStores sampleCollaborators deviceLoop = Done b st' /\
    events st' = events deviceLoop ++ new /\
    lowerings new =
      (if @anyDeviceSide sampleCollaborators
            (getTMAStores (loopBody deviceLoop))
       then [ {| numStages := 3 |} ] else []) /\
    (forall sch,
       LowerTMADescriptors sch ∈ new <->
       sch = {| numStages := 3 |} /\
       exists s, s ∈ getTMAStores (loopBody deviceLoop) /\
                 @isHostSideDescriptor sampleCollaborators (desc s) = false).
Proof.
  split; [solve_wellFormed|]. split; [reflexivity|].
  apply (@trigger_condition sampleCollaborators);
    [solve_wellFormed|reflexivity].
Defined.

(** C10 on a loop one of whose descriptors is made inside the loop. *)
Lemma trigger_test_precedes_erasure_witness :
  wellFormed deviceLoop /\
  countOutside isUnknownStore (loopBody deviceLoop) = 0 /\
  exists b st' reads tests rest,
    @pipelineTMAStores sampleCollaborators deviceLoop = Done b st' /\
    events st' = events deviceLoop ++ reads ++ tests ++ rest /\
    Forall (fun e => exists s, s ∈ getTMAStores (loopBody deviceLoop) /\
                               e = EncodingFromDescriptor (op s)) reads /\
    tests = ((fun s => HostSideTest (op s)) <$>
               @tested sampleCollaborators
                 (getTMAStores (loopBody deviceLoop))) /\
    erasures (reads ++ tests) = [] /\
    (forall e, e ∈ rest -> isHostSideTest e = false) /\
    erasures rest = (op <$> getTMAStores (loopBody deviceLoop)) /\
    inspectsLive [] (reads ++ tests ++ rest) /\
    lowerings rest =
      (if @anyDeviceSide sampleCollaborators
            (getTMAStores (loopBody deviceLoop))
       then [ {| numStages := 3 |} ] else []).
Proof.
  split; [solve_wellFormed|]. split; [reflexivity|].
  apply (@trigger_test_precedes_erasure sampleCollaborators);
    [solve_wellFormed|reflexivity].
Defined.

(** * Further properties of the transform *)

(** ** Counting what the rewriter emits *)

Section Further.
Context `{Collaborators}.

Lemma countOps_asyncSequence_parts (p : OpKind -> bool) (s : TMAStore)
    (a : Value) (k : OpKind) (n : OpId) :
  (forall name operands, p (OtherOp name operands) = false) ->
  countOps p (asyncSequence s a k n) =
  (if p (TMAStoreWaitOp 0) then 1 else 0) +
  (if p (LocalStoreOp (src s) a) then 1 else 0) +
  (if p (FenceAsyncSharedOp false) then 1 else 0) +
  (if p (issueFor s a k) then 1 else 0).
Proof.
  intros Hp. unfold asyncSequence. rewrite !countOps_app.
  rewrite (countOps_other p _ Hp (translationFor_other k _)).
  unfold countOps. simpl. lia.
Qed.

(** A predicate that holds of [c] operations of every emitted sequence,
    the store's own kind apart, gains [c] operations per rewritten store. *)
Lemma Rewrites_countOps (p : OpKind -> bool) (c : nat) (maps : Allocations)
    (stores : list TMAStore) (n : OpId) (l l' : list Operation) :
  (forall s a k m, isStoreLike k = true ->
     countOps p (asyncSequence s a k m) = c + (if p k then 1 else 0)) ->
  Rewrites maps stores n l l' ->
  countOps p l' = countOps p l + c * length stores.
Proof.
  intros Hc. induction 1 as [n l | s rest n l l1 l' k a Ha Hk Hrep _ IH].
  - simpl. lia.
  - pose proof (ReplacedBy_countOps p _ _ _ _ _ Hrep) as Hstep.
    rewrite Hc in Hstep by (unfold isStoreLike; by rewrite Hk).
    rewrite IH. simpl. lia.
Qed.

(** ** What the transform leaves alone *)

Lemma dropOps_app (P : OpId -> bool) (l1 l2 : list Operation) :
  dropOps P (l1 ++ l2) = dropOps P l1 ++ dropOps P l2.
Proof. apply flat_map_app. Qed.

Lemma dropOps_cons (P : OpId -> bool) (o : Operation) (l : list Operation) :
  dropOps P (o :: l) = dropFrom P o ++ dropOps P l.
Proof. reflexivity. Qed.

Lemma dropOps_ext_Forall (P Q : OpId -> bool) (l : list Operation) :
  Forall (fun o => (forall x, x ∈ opIds o -> P x = Q x) ->
                   dropFrom P o = dropFrom Q o) l ->
  (forall x, x ∈ allIds l -> P x = Q x) -> dropOps P l = dropOps Q l.
Proof.
  induction 1 as [|o r Ho _ IH]; intros Hx; [done|].
  rewrite !dropOps_cons. rewrite allIds_cons in Hx.
  rewrite Ho, IH; [done| |]; intros x Hin; apply Hx; set_solver.
Qed.

Lemma dropFrom_ext (P Q : OpId -> bool) (o : Operation) :
  (forall x, x ∈ opIds o -> P x = Q x) -> dropFrom P o = dropFrom Q o.
Proof.
  induction o as [id k | id body IH | id name nested IH]
    using Operation_tree_ind; intros Hx; simpl.
  - rewrite (Hx id) by (simpl; set_solver). done.
  - rewrite (Hx id) by (simpl; set_solver).
    destruct (Q id); [done|]. f_equal. f_equal.
    apply (dropOps_ext_Forall P Q body IH).
    intros x Hin. apply Hx. simpl. set_solver.
  - rewrite (Hx id) by (simpl; set_solver).
    destruct (Q id); [done|]. f_equal. f_equal.
    apply (dropOps_ext_Forall P Q nested IH).
    intros x Hin. apply Hx. simpl. set_solver.
Qed.

Lemma dropOps_ext (P Q : OpId -> bool) (l : list Operation) :
  (forall x, x ∈ allIds l -> P x = Q x) -> dropOps P l = dropOps Q l.
Proof.
  apply dropOps_ext_Forall, Forall_forall. intros o _. apply dropFrom_ext.
Qed.

Lemma opId_opIds (o : Operation) : opId o ∈ opIds o.
Proof. destruct o; simpl; set_solver. Qed.

Lemma dropOps_all (P : OpId -> bool) (l : list Operation) :
  (forall x, x ∈ allIds l -> P x = true) -> dropOps P l = [].
Proof.
  induction l as [|o r IH]; intros Hx; [done|].
  rewrite dropOps_cons, IH.
  - destruct o; simpl; rewrite Hx; try done; rewrite allIds_cons; simpl;
      set_solver.
  - intros x Hin. apply Hx. rewrite allIds_cons. set_solver.
Qed.

(** Dropping the replacement from the new body gives what dropping the
    replaced operation from the old body gives. *)
Lemma ReplacedBy_dropOps (P : OpId -> bool) (t : OpId) (k : OpKind)
    (news l l' : list Operation) :
  ReplacedBy t k news l l' ->
  (forall x, x ∈ allIds news -> P x = true) ->
  dropOps P l' = dropOps (fun x => P x || bool_decide (x = t)) l.
Proof.
  intros Hrep Hnews.
  assert (Hsame : forall l0, t ∉ allIds l0 ->
            dropOps (fun x => P x || bool_decide (x = t)) l0 = dropOps P l0).
  { intros l0 Hl0. apply dropOps_ext. intros x Hx.
    rewrite bool_decide_eq_false_2; [by rewrite orb_false_r|].
    intros ->. done. }
  induction Hrep as [l1 l2 H1 H2 | l1 l2 id name n n' H1 H2 Hid Hn IH].
  - rewrite !dropOps_app, dropOps_cons, (dropOps_all P news Hnews).
    rewrite !Hsame by done. simpl.
    rewrite bool_decide_eq_true_2 by done. by rewrite orb_true_r.
  - rewrite !dropOps_app, !dropOps_cons, !Hsame by done. simpl.
    rewrite (bool_decide_eq_false_2 (id = t)) by done.
    rewrite orb_false_r. destruct (P id); [done|].
    fold (dropOps P n'). fold (dropOps (fun x => P x || bool_decide (x = t)) n).
    by rewrite IH.
Qed.

Lemma Rewrites_dropOps (n0 : OpId) (maps : Allocations)
    (stores : list TMAStore) (n : OpId) (l l' : list Operation) :
  Rewrites maps stores n l l' ->
  n0 <= n ->
  dropOps (fun x => n0 <=? x) l' =
  dropOps (fun x => (n0 <=? x) || bool_decide (x ∈ op <$> stores)) l.
Proof.
  induction 1 as [n l | s rest n l l1 l' k a Ha Hk Hrep _ IH]; intros Hn.
  - apply dropOps_ext. intros x _. simpl. by rewrite orb_false_r.
  - rewrite IH by lia.
    rewrite (ReplacedBy_dropOps _ _ _ _ _ _ Hrep).
    + apply dropOps_ext. intros x _. rewrite fmap_cons.
      rewrite <- orb_assoc. f_equal.
      repeat case_bool_decide; set_solver.
    + intros x Hx. rewrite asyncSequence_seq in Hx. apply elem_of_seq in Hx.
      apply orb_true_iff. left. apply Nat.leb_le. lia.
Qed.

Lemma countOps_deallocs (p : OpKind -> bool) (l : list Operation) :
  (forall v, p (LocalDeallocOp v) = false) ->
  Forall (fun o => exists id v, o = Op id (LocalDeallocOp v)) l ->
  countOps p l = 0.
Proof.
  intros Hp. induction 1 as [|o r (id & v & ->) _ IH]; [done|].
  rewrite countOps_cons, IH. simpl. by rewrite Hp.
Qed.

Lemma imap_deallocs (f : nat -> OpId) (its : list (nat * Value)) :
  Forall (fun o => exists id v, o = Op id (LocalDeallocOp v))
         (imap (fun i it => Op (f i) (LocalDeallocOp (snd it))) its).
Proof.
  apply Forall_forall. intros o (i & it & -> & _)%elem_of_lookup_imap. eauto.
Qed.

(** X1. On a well-formed loop whose collected stores are all of the three
    variants the transform ends normally, and per collected store the loop
    body gains exactly one wait for zero outstanding transfers, one staging
    store and one fence; a run that rewrote something leaves one more such
    wait after the loop, a run that found no store leaves none. *)
Theorem wait_stage_fence_per_store (st : State) :
  wellFormed st ->
  countOutside isUnknownStore (loopBody st) = 0 ->
  exists b st',
    pipelineTMAStores st = Done b st' /\
    countOps isWaitForZero (loopBody st') =
      countOps isWaitForZero (loopBody st) +
      length (getTMAStores (loopBody st)) /\
    countOps isLocalStore (loopBody st') =
      countOps isLocalStore (loopBody st) +
      length (getTMAStores (loopBody st)) /\
    countOps isFence (loopBody st') =
      countOps isFence (loopBody st) + length (getTMAStores (loopBody st)) /\
    countOps isWaitForZero (afterLoop st') =
      countOps isWaitForZero (afterLoop st) + (if b then 1 else 0).
Proof.
  intros Hwf Hun.
  destruct (decide (getTMAStores (loopBody st) = [])) as [He|Hne].
  - exists false, st. rewrite (pipeline_empty st He), He. simpl.
    split_and!; [done|lia..].
  - destruct (pipeline_run st Hwf Hne Hun) as
      (maps & stA & flags & st' & n & _ & _ & Hrun & _ & _ & _ & _ & _ & _ &
       _ & _ & Hafter & Hchain).
    exists true, st'. split; [done|].
    assert (Hone : forall p,
      (forall name operands, p (OtherOp name operands) = false) ->
      (forall k, isStoreLike k = true -> p k = false) ->
      (forall s a,
         (if p (TMAStoreWaitOp 0) then 1 else 0) +
         (if p (LocalStoreOp (src s) a) then 1 else 0) +
         (if p (FenceAsyncSharedOp false) then 1 else 0) = 1) ->
      (forall s a k, isStoreLike k = true -> p (issueFor s a k) = false) ->
      countOps p (loopBody st') =
      countOps p (loopBody st) + length (getTMAStores (loopBody st))).
    { intros p Hother Hstore Hthree Hissue.
      assert (Hseq : forall s a k m, isStoreLike k = true ->
                countOps p (asyncSequence s a k m) =
                1 + (if p k then 1 else 0)).
      { intros s a k m Hk. rewrite countOps_asyncSequence_parts by done.
        rewrite (Hissue s a k Hk), (Hstore k Hk). specialize (Hthree s a).
        lia. }
      rewrite (Rewrites_countOps p 1 _ _ _ _ _ Hseq Hchain). lia. }
    split_and!.
    + apply Hone; [done|by intros []|done|by intros s a []].
    + apply Hone; [done|by intros []|done|by intros s a []].
    + apply Hone; [done|by intros []|done|by intros s a []].
    + rewrite Hafter, countOps_cons, countOps_app.
      rewrite (countOps_deallocs isWaitForZero) by (done || apply imap_deallocs).
      simpl. lia.
Qed.

(** X2. On a well-formed loop whose collected stores are all of the three
    variants the transform returns [true] exactly when it collected a store,
    and leaves the state as it was otherwise; what it leaves is again such
    a loop, without any store to collect, so that running the transform a
    second time returns [false] and changes nothing. *)
Theorem second_run_changes_nothing (st : State) :
  wellFormed st ->
  countOutside isUnknownStore (loopBody st) = 0 ->
  exists b st',
    pipelineTMAStores st = Done b st' /\
    (b = true <-> getTMAStores (loopBody st) <> []) /\
    (b = false -> st' = st) /\
    wellFormed st' /\
    countOutside isUnknownStore (loopBody st') = 0 /\
    pipelineTMAStores st' = Done false st'.
Proof.
  intros Hwf Hun.
  destruct (decide (getTMAStores (loopBody st) = [])) as [He|Hne].
  - exists false, st. rewrite (pipeline_empty st He).
    by split_and!.
  - destruct (pipeline_run st Hwf Hne Hun) as
      (maps & stA & flags & st' & n & _ & _ & Hrun & _ & Hwf' & Hst' & _).
    exists true, st'. split_and!; try done.
    + pose proof (countOutside_le isUnknownStore (loopBody st')) as Hle.
      rewrite countOutside_storeLike, Hst' in Hle. simpl in Hle.
      assert (countOutside isUnknownStore (loopBody st') <= 0); [|lia].
      apply Hle. by intros [].
    + by apply pipeline_empty.
Qed.

(** X3. On a well-formed loop whose collected stores are all of the three
    variants and all go through host-side descriptors, the transform does
    not call the descriptor-pipelining pass, and it touches nothing but the
    collected stores: the loop body it leaves, with the operations it
    created taken out, is the original body with the collected stores
    taken out (nested loops and their stores included, in place and in
    order); what preceded the loop still precedes it, before the new
    operations, and what followed the loop still follows it, after the new
    ones. *)
Theorem only_collected_stores_are_touched (st : State) :
  wellFormed st ->
  countOutside isUnknownStore (loopBody st) = 0 ->
  anyDeviceSide (getTMAStores (loopBody st)) = false ->
  exists b st' prologue epilogue,
    pipelineTMAStores st = Done b st' /\
    lowerings (events st') = lowerings (events st) /\
    dropOps (fun x => nextId st <=? x) (loopBody st') =
      dropOps (fun x => bool_decide (x ∈ op <$> getTMAStores (loopBody st)))
        (loopBody st) /\
    beforeLoop st' = beforeLoop st ++ prologue /\
    afterLoop st' = epilogue ++ afterLoop st.
Proof.
  intros Hwf Hun Hhost.
  assert (Hold : forall l (P : OpId -> bool),
            Forall (fun id => id < nextId st) (allIds l) ->
            dropOps (fun x => (nextId st <=? x) || P x) l = dropOps P l).
  { intros l P Hl. apply dropOps_ext. intros x Hx.
    rewrite Forall_forall in Hl. apply Hl in Hx.
    apply Nat.leb_gt in Hx. by rewrite Hx. }
  destruct (decide (getTMAStores (loopBody st) = [])) as [He|Hne].
  - exists false, st, [], []. rewrite (pipeline_empty st He), He, app_nil_r.
    split_and!; try done. simpl.
    rewrite <- (Hold _ (fun _ => false)) by apply Hwf.
    apply dropOps_ext. intros x _. by rewrite orb_false_r.
  - destruct (pipeline_run st Hwf Hne Hun) as
      (maps & stA & flags & st' & n & _ & Hinv & Hrun & Hbefore & _ & _ & _ &
       _ & _ & Hev & _ & Hafter & Hchain).
    destruct Hinv as (_ & _ & (reads & HevA & Hreads) &
                      (created & Hcr & _ & _ & Hnext) & _).
    eexists true, st', created, (_ :: _). split_and!.
    + done.
    + rewrite Hev, HevA, Hhost, !lowerings_app, lowerings_tests,
        lowerings_rewriteEvents, (lowerings_reads _ _ Hreads).
      by rewrite !app_nil_r.
    + rewrite (Rewrites_dropOps (nextId st) _ _ _ _ _ Hchain) by lia.
      apply Hold, Hwf.
    + by rewrite Hbefore.
    + rewrite Hafter. by rewrite app_comm_cons.
Qed.

(** ** Which store a buffer is made for *)

Lemma leadersFrom_snoc (acc : list (list Z * string)) (l : list TMAStore)
    (s : TMAStore) :
  leadersFrom acc (l ++ [s]) =
  leadersFrom acc l ++
  (if decide (keyOf s ∈ acc ++ (keyOf <$> l)) then [] else [s]).
Proof.
  assert (Hdec : forall (P Q : Prop) (dP : Decision P) (dQ : Decision Q),
            (P <-> Q) ->
            (if dP then [] else [s]) = (if dQ then [] else [s])).
  { intros P Q [?|?] [?|?] HPQ; tauto. }
  revert acc. induction l as [|x r IH]; intros acc.
  - simpl. rewrite app_nil_r. by destruct (decide (keyOf s ∈ acc)).
  - rewrite fmap_cons. cbn [app leadersFrom].
    destruct (decide (keyOf x ∈ acc)) as [Hx|Hx]; rewrite IH.
    + f_equal. apply Hdec.
      rewrite !elem_of_app, elem_of_cons.
      split; [tauto|]. intros [?|[Heq|?]]; [tauto|left; by rewrite Heq|tauto].
    + cbn [app]. f_equal. f_equal. apply Hdec.
      rewrite ?elem_of_app, ?elem_of_cons, ?elem_of_app. tauto.
Qed.

Lemma leadersFrom_sublist (acc : list (list Z * string)) (l : list TMAStore) :
  leadersFrom acc l `sublist_of` l.
Proof.
  revert acc. induction l as [|x r IH]; intros acc; simpl; [done|].
  destruct (decide (keyOf x ∈ acc)).
  - by apply sublist_cons.
  - by apply sublist_skip.
Qed.

Lemma leadersFrom_cover (acc : list (list Z * string)) (l : list TMAStore)
    (s : TMAStore) :
  s ∈ l ->
  keyOf s ∈ acc \/ exists s', s' ∈ leadersFrom acc l /\ keyOf s' = keyOf s.
Proof.
  revert acc. induction l as [|x r IH]; intros acc; [set_solver|].
  simpl. intros [->|Hin]%elem_of_cons.
  - destruct (decide (keyOf x ∈ acc)); [by left|].
    right. exists x. split; [set_solver|done].
  - destruct (decide (keyOf x ∈ acc)); [by apply IH|].
    destruct (IH (keyOf x :: acc) Hin) as [[Heq|?]%elem_of_cons|(s' & ? & ?)].
    + right. exists x. split; [set_solver|done].
    + by left.
    + right. exists s'. split; [set_solver|done].
Qed.

(** One iteration of the allocation loop keeps the allocations in step with
    the first stores of the keys. *)
Lemma assignAlloc_leaders (st0 : State) (seen : list TMAStore)
    (maps : Allocations) (st : State) (s : TMAStore) :
  NoDup (allIds (loopBody st0)) ->
  allocInv st0 seen maps st ->
  ledBy st0 seen maps st ->
  s ∈ getTMAStores (loopBody st0) ->
  op s ∉ (op <$> seen) ->
  exists maps' st',
    assignAlloc maps s st = Done maps' st' /\
    allocInv st0 (seen ++ [s]) maps' st' /\
    ledBy st0 (seen ++ [s]) maps' st'.
Proof.
  intros Hnd Hinv (created & Hbefore & Hled) Hin Hfresh.
  destruct (assignAlloc_step st0 seen maps st s Hinv Hin Hfresh)
    as (maps' & st' & Hrun & Hinv').
  exists maps', st'. split_and!; [done|done|].
  destruct Hinv as (Hbody & _ & _ & _ & Hdom & _).
  unfold ledBy, leaders. rewrite leadersFrom_snoc. simpl app.
  unfold assignAlloc in Hrun. fold (keyOf s) in Hrun.
  destruct (allocs maps !! keyOf s) as [a|] eqn:Hlook.
  - injection Hrun as <- <-.
    rewrite decide_True.
    2:{ apply (elem_of_dom_2 (D := gset (list Z * string))) in Hlook.
        rewrite Hdom in Hlook. by apply elem_of_list_to_set in Hlook. }
    rewrite app_nil_r. exists created. split; [done|].
    eapply Forall2_impl; [exact Hled|]. intros s0 o (id & k & ? & ? & ?).
    by exists id, k.
  - rewrite decide_False.
    2:{ apply (not_elem_of_dom_2 (D := gset (list Z * string))) in Hlook.
        rewrite Hdom in Hlook. by rewrite elem_of_list_to_set in Hlook. }
    destruct (locate s _ Hnd Hin) as (k & Hk & Hrep).
    pose proof (ReplacedBy_findOp _ _ _ _ _ (Hrep [])) as Hfind.
    unfold bind, createAlloc, bind, getOp in Hrun.
    rewrite Hbody, Hfind in Hrun.
    unfold logEvent, create, ret in Hrun. simpl in Hrun.
    injection Hrun as <- <-. simpl.
    exists (created ++
            [Op (nextId st)
               (LocalAllocOp (bufferTypeFor (Op (op s) k) s))]).
    split; [by rewrite Hbefore, <- app_assoc|].
    apply Forall2_app.
    + eapply Forall2_impl; [exact Hled|].
      intros s0 o (id & k0 & ? & ? & Hl0).
      exists id, k0. split_and!; [done|done|]. simpl.
      rewrite lookup_insert_ne; [done|]. intros Heq.
      rewrite <- Heq in Hl0. congruence.
    + constructor; [|constructor].
      exists (nextId st), k. split_and!; [done|done|]. simpl.
      by rewrite lookup_insert_eq.
Qed.

Lemma alloc_loop_leaders (st0 : State) (rest seen : list TMAStore)
    (maps : Allocations) (st : State) :
  NoDup (allIds (loopBody st0)) ->
  allocInv st0 seen maps st ->
  ledBy st0 seen maps st ->
  NoDup (op <$> (seen ++ rest)) ->
  (forall s, s ∈ rest -> s ∈ getTMAStores (loopBody st0)) ->
  exists maps' st',
    forFold rest assignAlloc maps st = Done maps' st' /\
    allocInv st0 (seen ++ rest) maps' st' /\
    ledBy st0 (seen ++ rest) maps' st'.
Proof.
  intros Hbody. revert seen maps st. induction rest as [|s rest IH];
    intros seen maps st Hinv Hled Hnd Hin.
  - exists maps, st. rewrite app_nil_r. by split_and!.
  - destruct (assignAlloc_leaders st0 seen maps st s Hbody Hinv Hled) as
      (maps1 & st1 & Hrun & Hinv1 & Hled1); [set_solver| |].
    { rewrite fmap_app, fmap_cons in Hnd.
      apply NoDup_app in Hnd as (_ & Hdisj & _). intros Hc.
      apply (Hdisj _ Hc). set_solver. }
    destruct (IH (seen ++ [s]) maps1 st1 Hinv1 Hled1)
      as (maps' & st' & Hrun' & Hinv' & Hled').
    { by rewrite <- app_assoc. }
    { set_solver. }
    exists maps', st'. split_and!.
    + cbn [forFold]. unfold bind at 1. by rewrite Hrun.
    + by rewrite <- app_assoc in Hinv'.
    + by rewrite <- app_assoc in Hled'.
Qed.

(** The allocation loop from the start, with both of its invariants. *)
Lemma alloc_run (st : State) :
  wellFormed st ->
  exists maps stA,
    forFold (getTMAStores (loopBody st)) assignAlloc
      {| storeToAlloc := ∅; allocs := ∅ |} st = Done maps stA /\
    allocInv st (getTMAStores (loopBody st)) maps stA /\
    ledBy st (getTMAStores (loopBody st)) maps stA.
Proof.
  intros [Hnd _].
  apply (alloc_loop_leaders st (getTMAStores (loopBody st)) []);
    [done|apply allocInv_start| | |done].
  - exists []. rewrite app_nil_r. split; [done|constructor].
  - simpl. by apply getTMAStores_NoDup.
Qed.

(** The buffers allocated by allocations that follow the first stores of
    the keys are the buffers that [allocs] holds for those stores. *)
Lemma allocatedBuffers_leaders (body : list Operation) (maps : Allocations)
    (ls : list TMAStore) (created : list Operation) :
  Forall2 (AllocatedBy body maps) ls created ->
  Some <$> allocatedBuffers created =
  (fun s => allocs maps !! keyOf s) <$> ls.
Proof.
  induction 1 as [|s o ls created (id & k & _ & -> & Hl) _ IH]; [done|].
  change (allocatedBuffers (Op id (LocalAllocOp
            (bufferTypeFor (Op (op s) k) s)) :: created))
    with (OpResult id :: allocatedBuffers created).
  by rewrite !fmap_cons, IH, Hl.
Qed.

(** ** What the epilogue deallocates *)

Lemma deallocated_imap (f : nat -> OpId) (its : list (nat * Value)) :
  deallocated (imap (fun i it => Op (f i) (LocalDeallocOp (snd it))) its) =
  its.*2.
Proof.
  revert f. induction its as [|it r IH]; intros f; [done|].
  unfold deallocated in *. simpl. f_equal. apply (IH (f ∘ S)).
Qed.

(** The values of a map whose keys are the stores' operations, listed
    once per store. *)
Lemma map_to_list_per_store (m : gmap nat Value) (stores : list TMAStore) :
  NoDup (op <$> stores) ->
  dom m = list_to_set (op <$> stores) ->
  Some <$> (map_to_list m).*2 ≡ₚ (fun s => m !! op s) <$> stores.
Proof.
  intros Hnd Hdom.
  assert (Hkeys : (map_to_list m).*1 ≡ₚ op <$> stores).
  { apply NoDup_Permutation; [apply NoDup_fst_map_to_list|done|].
    intros x. split.
    - intros ([i v] & -> & Hiv%elem_of_map_to_list)%list_elem_of_fmap.
      apply (elem_of_list_to_set (C := gset nat)). rewrite <- Hdom.
      apply elem_of_dom. by exists v.
    - intros Hx%(elem_of_list_to_set (C := gset nat)).
      rewrite <- Hdom in Hx. apply elem_of_dom in Hx as [v Hv].
      apply list_elem_of_fmap. exists (x, v). split; [done|].
      by apply elem_of_map_to_list. }
  transitivity ((fun i => m !! i) <$> (map_to_list m).*1).
  - rewrite <- !list_fmap_compose.
    assert (Heq : Some ∘ snd <$> map_to_list m =
                  (fun i => m !! i) ∘ fst <$> map_to_list m); [|by rewrite Heq].
    apply Forall_fmap_ext, Forall_forall.
    intros [i v] Hiv%elem_of_map_to_list. simpl. by rewrite Hiv.
  - rewrite Hkeys. by rewrite <- list_fmap_compose.
Qed.

(** The buffers of a whole run: what is allocated before the loop and
    what is deallocated after it. *)
Lemma pipeline_buffers (st : State) :
  wellFormed st ->
  getTMAStores (loopBody st) <> [] ->
  countOutside isUnknownStore (loopBody st) = 0 ->
  exists maps stA st' n created deallocs,
    forFold (getTMAStores (loopBody st)) assignAlloc
      {| storeToAlloc := ∅; allocs := ∅ |} st = Done maps stA /\
    pipelineTMAStores st = Done true st' /\
    beforeLoop st' = beforeLoop st ++ created /\
    Forall2 (AllocatedBy (loopBody st) maps)
      (leaders (getTMAStores (loopBody st))) created /\
    afterLoop st' = Op n (TMAStoreWaitOp 0) :: deallocs ++ afterLoop st /\
    Forall (fun o => exists id v, o = Op id (LocalDeallocOp v)) deallocs /\
    Some <$> deallocated deallocs ≡ₚ
      (fun s => allocs maps !! keyOf s) <$> getTMAStores (loopBody st).
Proof.
  intros Hwf Hne Hun.
  destruct (pipeline_run st Hwf Hne Hun) as
    (maps & stA & flags & st' & n & HrunA & Hinv & Hrun & Hbefore & _ & _ &
     _ & _ & _ & _ & _ & Hafter & _).
  destruct (alloc_run st Hwf) as (maps' & stA' & HrunA' & _ & Hled).
  rewrite HrunA in HrunA'. injection HrunA' as <- <-.
  destruct Hled as (created & Hcr & Hled).
  destruct Hinv as (_ & _ & _ & _ & _ & Hdoms & Hagree & _).
  eexists maps, stA, st', n, created, _.
  split_and!; [done|done|by rewrite Hbefore|done|exact Hafter| |].
  - apply imap_deallocs.
  - rewrite deallocated_imap.
    rewrite (map_to_list_per_store _ (getTMAStores (loopBody st)));
      [|apply getTMAStores_NoDup, Hwf|done].
    assert (Heq : (fun s => storeToAlloc maps !! op s) <$>
                    getTMAStores (loopBody st) =
                  (fun s => allocs maps !! keyOf s) <$>
                    getTMAStores (loopBody st)); [|by rewrite Heq].
    apply Forall_fmap_ext, Forall_forall. intros s Hs. by apply Hagree.
Qed.

(** X4. On a well-formed loop the allocation loop ends normally, and what
    it puts before the loop is, in the order of collection, one allocation
    for every collected store that is the first with its (shape, element
    type) key: a mutable buffer in shared memory of the shape and element
    type of that store's source, with the encoding derived from that very
    store and its descriptor; every other collected store is assigned the
    buffer of the first store with its key, whatever its own descriptor.
    These are the allocations the whole transform leaves before the
    loop. *)
Theorem buffer_made_for_first_store (st : State) :
  wellFormed st ->
  exists maps stA created,
    forFold (getTMAStores (loopBody st)) assignAlloc
      {| storeToAlloc := ∅; allocs := ∅ |} st = Done maps stA /\
    beforeLoop stA = beforeLoop st ++ created /\
    Forall2 (AllocatedBy (loopBody st) maps)
      (leaders (getTMAStores (loopBody st))) created /\
    leaders (getTMAStores (loopBody st)) `sublist_of`
      getTMAStores (loopBody st) /\
    (forall s, s ∈ getTMAStores (loopBody st) ->
       exists s', s' ∈ leaders (getTMAStores (loopBody st)) /\
                  keyOf s' = keyOf s /\
                  storeToAlloc maps !! op s = allocs maps !! keyOf s') /\
    (getTMAStores (loopBody st) <> [] ->
     countOutside isUnknownStore (loopBody st) = 0 ->
     exists st', pipelineTMAStores st = Done true st' /\
                 beforeLoop st' = beforeLoop st ++ created).
Proof.
  intros Hwf.
  destruct (alloc_run st Hwf) as (maps & stA & HrunA & Hinv & Hled).
  destruct Hled as (created & Hcr & Hled).
  destruct Hinv as (_ & _ & _ & _ & _ & _ & Hagree & _).
  exists maps, stA, created. split_and!; [done|done|done| | |].
  - apply leadersFrom_sublist.
  - intros s Hs.
    destruct (leadersFrom_cover [] _ s Hs) as [?|(s' & Hs' & Hk)];
      [set_solver|].
    exists s'. split_and!; [done|done|]. rewrite Hk. by apply Hagree.
  - intros Hne Hun.
    destruct (pipeline_run st Hwf Hne Hun) as
      (maps' & stA' & flags & st' & n & HrunA' & _ & Hrun & Hbefore & _).
    rewrite HrunA in HrunA'. injection HrunA' as <- <-.
    exists st'. split; [done|]. by rewrite Hbefore.
Qed.

(** X5. On a well-formed loop with at least one store, all of the three
    variants, what the transform puts after the loop is one wait for zero
    outstanding transfers followed by deallocations only, and the buffers
    these deallocate are, up to their order, the buffers of the collected
    stores, one deallocation per store: a buffer shared by several stores
    is deallocated once for each of them. *)
Theorem epilogue_deallocates_once_per_store (st : State) :
  wellFormed st ->
  getTMAStores (loopBody st) <> [] ->
  countOutside isUnknownStore (loopBody st) = 0 ->
  exists maps stA st' n deallocs,
    forFold (getTMAStores (loopBody st)) assignAlloc
      {| storeToAlloc := ∅; allocs := ∅ |} st = Done maps stA /\
    pipelineTMAStores st = Done true st' /\
    afterLoop st' = Op n (TMAStoreWaitOp 0) :: deallocs ++ afterLoop st /\
    Forall (fun o => exists id v, o = Op id (LocalDeallocOp v)) deallocs /\
    Some <$> deallocated deallocs ≡ₚ
      (fun s => allocs maps !! keyOf s) <$> getTMAStores (loopBody st).
Proof.
  intros Hwf Hne Hun.
  destruct (pipeline_buffers st Hwf Hne Hun) as
    (maps & stA & st' & n & created & deallocs & HrunA & Hrun & _ & _ &
     Hafter & Hde & Hperm).
  by exists maps, stA, st', n, deallocs.
Qed.

(** X6. On a well-formed loop with at least one store, all of the three
    variants, the buffers deallocated after the loop are exactly the
    buffers allocated before it: no allocated buffer is left without a
    deallocation, and nothing else is deallocated. *)
Theorem deallocated_buffers_are_the_allocated (st : State) :
  wellFormed st ->
  getTMAStores (loopBody st) <> [] ->
  countOutside isUnknownStore (loopBody st) = 0 ->
  exists st' n created deallocs,
    pipelineTMAStores st = Done true st' /\
    beforeLoop st' = beforeLoop st ++ created /\
    afterLoop st' = Op n (TMAStoreWaitOp 0) :: deallocs ++ afterLoop st /\
    length (allocatedBuffers created) = length created /\
    length (deallocated deallocs) = length deallocs /\
    (forall v, v ∈ deallocated deallocs <-> v ∈ allocatedBuffers created).
Proof.
  intros Hwf Hne Hun.
  destruct (pipeline_buffers st Hwf Hne Hun) as
    (maps & stA & st' & n & created & deallocs & HrunA & Hrun & Hbefore &
     Hled & Hafter & Hde & Hperm).
  pose proof (allocatedBuffers_leaders _ _ _ _ Hled) as Hal.
  assert (Hin : forall (l : list Value) v, v ∈ l <-> Some v ∈ Some <$> l).
  { intros l v. rewrite list_elem_of_fmap. split.
    - intros Hv. by exists v.
    - by intros (v' & [= ->] & Hv). }
  exists st', n, created, deallocs. split_and!; [done|done|done| | |].
  - rewrite <- (length_fmap Some), Hal, length_fmap.
    by eapply Forall2_length.
  - clear Hperm Hafter. induction Hde as [|o r (id & v & ->) _ IH]; [done|].
    change (deallocated (Op id (LocalDeallocOp v) :: r))
      with (v :: deallocated r).
    simpl. by rewrite IH.
  - intros v. rewrite !Hin, Hperm, Hal, !list_elem_of_fmap. split.
    + intros (s & Hv & Hs).
      destruct (leadersFrom_cover [] _ s Hs) as [?|(s' & Hs' & Hk)];
        [set_solver|].
      exists s'. split; [|done]. by rewrite Hk.
    + intros (s' & Hv & Hs'). exists s'. split; [done|].
      eapply elem_of_sublist; [done|apply leadersFrom_sublist].
Qed.

(** ** A store of another variant *)

(** Replacing one operation leaves every other region-free operation where
    a dereference finds it. *)
Lemma ReplacedBy_findOp_other (t x : OpId) (k kx : OpKind)
    (news l l' : list Operation) :
  ReplacedBy t k news l l' ->
  x <> t -> x ∉ allIds news ->
  findOp x l = Some (Op x kx) -> findOp x l' = Some (Op x kx).
Proof.
  intros Hrep Hxt Hnews. apply findOp_None in Hnews.
  induction Hrep as [l1 l2 H1 H2 | l1 l2 id name n n' H1 H2 Hid Hn IH].
  - rewrite !findOp_app, findOp_cons, Hnews. simpl.
    rewrite decide_False by done. done.
  - rewrite !findOp_app, !findOp_cons.
    destruct (findOp x l1) as [y|]; [done|]. simpl.
    destruct (decide (id = x)) as [->|Hne]; [done|].
    fold (findOp x n). fold (findOp x n').
    destruct (findOp x n) as [y|] eqn:Hy.
    + intros [= ->]. by rewrite IH.
    + intros Hl2.
      assert (findOp x n' = None) as ->; [|done].
      apply findOp_None. apply findOp_None in Hy. apply findOp_None in Hnews.
      destruct (ReplacedBy_ids _ _ _ _ _ Hn) as (X & HX & HX').
      rewrite HX'. rewrite HX in Hy. set_solver.
Qed.

(** A collected store is a store-like operation that a dereference
    finds. *)
Lemma collected_findOp (s : TMAStore) (l : list Operation) :
  NoDup (allIds l) -> s ∈ getTMAStores l ->
  exists k, findOp (op s) l = Some (Op (op s) k) /\
            storeLike k = Some (desc s, src s).
Proof.
  intros Hnd Hin. destruct (locate s l Hnd Hin) as (k & Hk & Hrep).
  exists k. split; [|done]. exact (ReplacedBy_findOp _ _ _ _ _ (Hrep [])).
Qed.

Lemma foreign_false_known (s : TMAStore) (l : list Operation) :
  NoDup (allIds l) -> s ∈ getTMAStores l -> foreign l s = false ->
  exists k, findOp (op s) l = Some (Op (op s) k) /\
            storeLike k = Some (desc s, src s) /\ knownVariant k = true.
Proof.
  intros Hnd Hin Hf. destruct (collected_findOp s l Hnd Hin) as (k & Hk & Hs).
  exists k. split_and!; [done|done|]. unfold foreign in Hf. rewrite Hk in Hf.
  apply known_of_storeLike; [|done]. unfold isStoreLike. by rewrite Hs.
Qed.

(** The rewriter on a store-like operation that is none of the three
    variants: the last cast fails. *)
Lemma createTMAAsyncCopy_foreign (store : TMAStore) (alloc : Value)
    (k : OpKind) (st : State) :
  findOp (op store) (loopBody st) = Some (Op (op store) k) ->
  isUnknownStore k = true ->
  op store < nextId st ->
  createTMAAsyncCopy store alloc st = Crash (FailedCast (op store)).
Proof.
  intros Hfind Hk Hlt.
  set (t := op store) in *. set (n := nextId st).
  unfold createTMAAsyncCopy. fold t.
  unfold bind at 1. unfold builderAt, bind at 1, getOp at 1.
  rewrite Hfind. unfold ret at 1.
  unfold bind at 1. unfold bind at 1. rewrite create_BeforeOp.
  unfold bind at 1. unfold bind at 1. rewrite create_BeforeOp.
  unfold bind at 1. unfold bind at 1. rewrite create_BeforeOp.
  rewrite !withBody_withBody, !loopBody_withBody, !nextId_withBody,
    !events_withBody. fold n.
  rewrite !splice_splice by (unfold allIds; simpl; set_solver by lia).
  cbn [app].
  set (pre := [Op n (TMAStoreWaitOp 0);
               Op (S n) (LocalStoreOp (src store) alloc);
               Op (S (S n)) (FenceAsyncSharedOp false)]).
  assert (Hpre : t ∉ allIds pre)
    by (unfold allIds, pre; simpl; set_solver by lia).
  unfold bind at 1. unfold getOp at 1.
  rewrite loopBody_withBody, (findOp_splice _ _ _ _ _ Hpre Hfind).
  unfold bind at 1. by destruct k.
Qed.

(** One iteration of the rewriting loop, on the first of the stores that
    the body still holds, known to be of one of the three variants. *)
Lemma rewrite_step_known (s : TMAStore) (rest : list TMAStore)
    (alloc : Value) (k : OpKind) (st : State) :
  wellFormed st ->
  getTMAStores (loopBody st) = s :: rest ->
  findOp (op s) (loopBody st) = Some (Op (op s) k) ->
  knownVariant k = true ->
  exists st',
    createTMAAsyncCopy s alloc st = Done tt st' /\
    ReplacedBy (op s) k (asyncSequence s alloc k (nextId st))
      (loopBody st) (loopBody st') /\
    nextId st' = nextId st + length (asyncSequence s alloc k (nextId st)) /\
    wellFormed st' /\
    getTMAStores (loopBody st') = rest.
Proof.
  intros [Hnd Hbd] Hst Hfind Hknown.
  assert (Hin : s ∈ getTMAStores (loopBody st)) by (rewrite Hst; set_solver).
  destruct (locate s _ Hnd Hin) as (k' & Hk & Hrep).
  assert (k' = k) as ->.
  { pose proof (ReplacedBy_findOp _ _ _ _ _ (Hrep [])) as Hf. congruence. }
  set (news := asyncSequence s alloc k (nextId st)).
  specialize (Hrep news).
  assert (Hlt : op s < nextId st).
  { rewrite Forall_forall in Hbd. apply Hbd.
    by apply getTMAStores_allIds. }
  assert (Hfresh : forall x, x ∈ allIds news -> x ∉ allIds (loopBody st)).
  { intros x Hx Hx'. unfold news in Hx. rewrite asyncSequence_seq in Hx.
    apply elem_of_seq in Hx. rewrite Forall_forall in Hbd.
    apply Hbd in Hx'. lia. }
  eexists. split.
  { by apply createTMAAsyncCopy_run. }
  rewrite ?loopBody_withBody, ?nextId_withBody. fold news.
  split_and!; try done.
  - split; rewrite ?loopBody_withBody, ?nextId_withBody.
    + eapply ReplacedBy_NoDup; [done|done| |done].
      unfold news. rewrite asyncSequence_seq. apply NoDup_seq.
    + eapply ReplacedBy_bound; [done| |].
      * eapply Forall_impl; [done|]. simpl. intros; lia.
      * unfold news. rewrite asyncSequence_seq. apply Forall_forall.
        intros x Hx%elem_of_seq. lia.
  - destruct (ReplacedBy_stores _ _ _ _ _ _ _ Hrep Hk) as (A & B & HA & HB).
    { by apply getTMAStores_asyncSequence. }
    rewrite HB. rewrite Hst in HA.
    pose proof (getTMAStores_NoDup _ Hnd) as Hnds. rewrite Hst in Hnds.
    destruct A as [|a A].
    + simpl in HA. by injection HA as _ ->.
    + exfalso. simpl in HA. injection HA as <- Hrest.
      rewrite Hrest, fmap_cons, fmap_app, fmap_cons in Hnds.
      apply NoDup_cons in Hnds as [Hni _]. apply Hni.
      simpl. set_solver.
Qed.

Lemma forEach_app {A : Type} (l1 l2 : list A) (f : A -> M unit) (st : State) :
  forEach (l1 ++ l2) f st =
  match forEach l1 f st with
  | Done _ st' => forEach l2 f st'
  | Crash e => Crash e
  end.
Proof.
  revert st. induction l1 as [|x r IH]; intros st; [done|].
  cbn [app forEach]. unfold bind. destruct (f x st) as [[] st1|e]; [|done].
  apply IH.
Qed.

(** The rewriting loop over the collected stores that precede the first
    store of another variant. *)
Lemma rewrite_prefix (maps : Allocations) (pre rest : list TMAStore)
    (st : State) :
  wellFormed st ->
  getTMAStores (loopBody st) = pre ++ rest ->
  (forall s, s ∈ pre -> foreign (loopBody st) s = false) ->
  (forall s, s ∈ pre -> is_Some (storeToAlloc maps !! op s)) ->
  exists st',
    forEach pre
      (fun store =>
         alloc <- allocOf maps store ;; createTMAAsyncCopy store alloc) st
    = Done tt st' /\
    wellFormed st' /\
    getTMAStores (loopBody st') = rest /\
    (forall s k, s ∈ rest ->
       findOp (op s) (loopBody st) = Some (Op (op s) k) ->
       findOp (op s) (loopBody st') = Some (Op (op s) k)) /\
    Rewrites maps pre (nextId st) (loopBody st) (loopBody st').
Proof.
  revert st. induction pre as [|s pre IH]; intros st Hwf Hst Hknown Hmaps.
  - exists st. split_and!; try done. constructor.
  - destruct (Hmaps s) as [alloc Halloc]; [set_solver|].
    pose proof Hwf as [Hnd Hbd].
    change ((s :: pre) ++ rest) with (s :: (pre ++ rest)) in Hst.
    assert (Hall : forall s', s' ∈ getTMAStores (loopBody st) ->
              op s' < nextId st).
    { intros s' Hs'. rewrite Forall_forall in Hbd.
      by apply Hbd, getTMAStores_allIds. }
    destruct (foreign_false_known s (loopBody st) Hnd)
      as (k & Hfind & Hlike & Hk).
    { rewrite Hst. set_solver. }
    { apply Hknown. set_solver. }
    destruct (rewrite_step_known s (pre ++ rest) alloc k st Hwf Hst Hfind Hk)
      as (st1 & Hrun & Hrep & Hn1 & Hwf1 & Hst1).
    assert (Hkeep : forall s' k', s' ∈ pre ++ rest ->
              findOp (op s') (loopBody st) = Some (Op (op s') k') ->
              findOp (op s') (loopBody st1) = Some (Op (op s') k')).
    { intros s' k' Hs'. eapply ReplacedBy_findOp_other; [exact Hrep| |].
      - pose proof (getTMAStores_NoDup _ Hnd) as Hnds.
        rewrite Hst, fmap_cons in Hnds. apply NoDup_cons in Hnds as [Hni _].
        intros Heq. apply Hni. rewrite <- Heq. by apply list_elem_of_fmap_2.
      - rewrite asyncSequence_seq. intros Hx%elem_of_seq.
        assert (op s' < nextId st); [|lia].
        apply Hall. rewrite Hst. set_solver. }
    destruct (IH st1 Hwf1 Hst1)
      as (st' & Hrun' & Hwf' & Hst' & Hkeep' & Hchain).
    { intros s' Hs'.
      destruct (collected_findOp s' (loopBody st) Hnd) as (k' & Hf' & _).
      { rewrite Hst. set_solver. }
      pose proof (Hknown s' ltac:(set_solver)) as Hfalse.
      unfold foreign in *. rewrite Hf' in Hfalse.
      rewrite (Hkeep s' k') by (done || set_solver). done. }
    { intros s' Hs'. apply Hmaps. set_solver. }
    exists st'. split_and!; [|done|done| |].
    + cbn [forEach]. unfold bind at 1. unfold bind at 1.
      unfold allocOf at 1. rewrite Halloc. unfold ret at 1.
      by rewrite Hrun.
    + intros s' k' Hs' Hf'. apply Hkeep'; [done|].
      apply Hkeep; [set_solver|done].
    + econstructor; [exact Halloc|exact Hlike|exact Hrep|].
      by rewrite <- Hn1.
Qed.

Lemma countOutside_Reached (p : OpKind -> bool) (l : list Operation) :
  countOutside p l <> 0 -> exists id k, Reached id k l /\ p k = true.
Proof.
  assert (Hlist : forall l0,
    Forall (fun o => countOutsideIn p o <> 0 ->
                     exists id k, Reached id k [o] /\ p k = true) l0 ->
    countOutside p l0 <> 0 -> exists id k, Reached id k l0 /\ p k = true).
  { induction 1 as [|o r Ho _ IH]; [done|].
    rewrite countOutside_cons. intros Hc.
    destruct (decide (countOutsideIn p o = 0)) as [Hz|Hnz].
    - destruct IH as (id & k & Hr & Hp); [lia|]. exists id, k.
      split; [|done]. pose proof (Reached_frame _ _ _ [o] [] Hr) as Hf.
      by rewrite app_nil_r in Hf.
    - destruct (Ho Hnz) as (id & k & Hr & Hp). exists id, k.
      split; [|done]. apply (Reached_frame _ _ _ [] r Hr). }
  apply Hlist. apply Forall_forall. intros o _.
  induction o as [id k | id body IH | id name nested IH]
    using Operation_tree_ind; simpl.
  - destruct (p k) eqn:Hp; [|done]. intros _. exists id, k.
    split; [|done]. apply (ReachedHere id k [] []).
  - done.
  - intros Hc. destruct (Hlist nested IH Hc) as (id' & k & Hr & Hp).
    exists id', k. split; [|done]. by apply (ReachedInRegion _ _ [] []).
Qed.

Lemma Reached_allIds (id : OpId) (k : OpKind) (l : list Operation) :
  Reached id k l -> id ∈ allIds l.
Proof.
  induction 1 as [l1 l2 | l1 l2 rid name nested Hn IH];
    rewrite allIds_app, allIds_cons; simpl.
  - set_solver.
  - fold (allIds nested). set_solver.
Qed.

Lemma Reached_findOp (id : OpId) (k : OpKind) (l : list Operation) :
  NoDup (allIds l) -> Reached id k l -> findOp id l = Some (Op id k).
Proof.
  intros Hnd Hr. induction Hr as [l1 l2 | l1 l2 rid name nested Hn IH].
  - rewrite allIds_app, allIds_cons in Hnd. simpl in Hnd.
    apply NoDup_app in Hnd as (_ & Hdisj & _).
    rewrite findOp_app.
    assert (findOp id l1 = None) as ->.
    { apply findOp_None. intros Hin. apply (Hdisj _ Hin). set_solver. }
    rewrite findOp_cons. simpl. by rewrite decide_True.
  - rewrite allIds_app, allIds_cons in Hnd. simpl in Hnd.
    fold (allIds nested) in Hnd.
    pose proof (Reached_allIds _ _ _ Hn) as Hin.
    apply NoDup_app in Hnd as (_ & Hdisj & Hnd2).
    apply NoDup_cons in Hnd2 as [Hrid Hnd2].
    apply NoDup_app in Hnd2 as (Hnd3 & _ & _).
    rewrite findOp_app.
    assert (findOp id l1 = None) as ->.
    { apply findOp_None. intros Hin1. apply (Hdisj _ Hin1). set_solver. }
    rewrite findOp_cons. simpl.
    rewrite decide_False by (intros ->; apply Hrid; set_solver).
    fold (findOp id nested). by rewrite IH.
Qed.

Lemma first_satisfying {A : Type} (P : A -> bool) (l : list A) (x : A) :
  x ∈ l -> P x = true ->
  exists pre u post, l = pre ++ u :: post /\ P u = true /\
                     forall y, y ∈ pre -> P y = false.
Proof.
  intros Hin Hx. induction l as [|y r IH]; [set_solver|].
  destruct (P y) eqn:Hy.
  - exists [], y, r. split_and!; [done|done|set_solver].
  - destruct IH as (pre & u & post & -> & Hu & Hpre).
    { apply elem_of_cons in Hin as [->|?]; [congruence|done]. }
    exists (y :: pre), u, post. split_and!; [done|done|].
    intros z [->|?]%elem_of_cons; [done|by apply Hpre].
Qed.

(** X7. On a well-formed loop that holds, outside its nested [scf.for]
    loops, a store-like operation that is none of the three variants the
    rewriter names, the transform does not end normally.  The allocation
    loop and the host-side tests end normally; the rewriting loop replaces,
    in the order of collection, the stores collected before the first such
    store, which are of the three variants, leaving that store first among
    the stores still to collect; on it the rewriter's last cast fails (the
    abort of [llvm::cast] where its assertion is compiled in), and so does
    the transform. *)
Theorem foreign_store_fails_the_cast (st : State) :
  wellFormed st ->
  countOutside isUnknownStore (loopBody st) <> 0 ->
  exists pre u post name d s maps stA flag stB st1 buffer,
    getTMAStores (loopBody st) = pre ++ u :: post /\
    (forall s', s' ∈ pre -> foreign (loopBody st) s' = false) /\
    Reached (op u) (OtherStoreLikeOp name d s) (loopBody st) /\
    forFold (getTMAStores (loopBody st)) assignAlloc
      {| storeToAlloc := ∅; allocs := ∅ |} st = Done maps stA /\
    any_of (getTMAStores (loopBody st))
      (fun store =>
         logEvent (HostSideTest (op store)) ;;;
         ret (negb (isHostSideDescriptor (desc store)))) stA
    = Done flag stB /\
    forEach pre
      (fun store =>
         alloc <- allocOf maps store ;; createTMAAsyncCopy store alloc) stB
    = Done tt st1 /\
    Rewrites maps pre (nextId stA) (loopBody st) (loopBody st1) /\
    getTMAStores (loopBody st1) = u :: post /\
    storeToAlloc maps !! op u = Some buffer /\
    createTMAAsyncCopy u buffer st1 = Crash (FailedCast (op u)) /\
    pipelineTMAStores st = Crash (FailedCast (op u)).
Proof.
  intros Hwf Hun. pose proof Hwf as [Hnd Hbd].
  destruct (countOutside_Reached _ _ Hun) as (id & k & Hr & Hk).
  destruct k as [| | |name0 d0 s0| | | | | | | | |]; try discriminate Hk.
  pose proof (collected_of_reached _ _ _ d0 s0 Hr eq_refl) as Hin.
  destruct (first_satisfying (foreign (loopBody st)) _ _ Hin)
    as (pre & u & post & Hsplit & Hu & Hpre).
  { unfold foreign. simpl. by rewrite (Reached_findOp _ _ _ Hnd Hr). }
  assert (Huin : u ∈ getTMAStores (loopBody st))
    by (rewrite Hsplit; set_solver).
  destruct (collected_findOp u _ Hnd Huin) as (ku & Hfu & Hsu).
  assert (Hku : isUnknownStore ku = true).
  { unfold foreign in Hu. by rewrite Hfu in Hu. }
  destruct (reached_of_collected u _ Huin) as (ku' & Hru & _).
  assert (ku' = ku) as ->.
  { pose proof (Reached_findOp _ _ _ Hnd Hru). congruence. }
  destruct ku as [| | |name d s| | | | | | | | |]; try discriminate Hku.
  set (stores := getTMAStores (loopBody st)) in *.
  destruct (alloc_loop st stores [] _ st (allocInv_start st))
    as (maps & stA & HrunA & HinvA).
  { simpl. by apply getTMAStores_NoDup. }
  { done. }
  simpl in HinvA.
  destruct HinvA as (HbodyA & _ & _ & (created & _ & _ & _ & HnextA) & _ &
                     Hdoms & _).
  assert (Hmaps : forall s', s' ∈ stores ->
            is_Some (storeToAlloc maps !! op s')).
  { intros s' Hs'. apply (elem_of_dom (D := gset nat)). rewrite Hdoms.
    apply elem_of_list_to_set. by apply list_elem_of_fmap_2. }
  set (stB := withBody stA (loopBody stA) (nextId stA)
                (events stA ++
                 ((fun s => HostSideTest (op s)) <$> tested stores))).
  assert (HwfB : wellFormed stB).
  { split; simpl; rewrite HbodyA; [done|].
    eapply Forall_impl; [done|]. simpl. intros; lia. }
  destruct (rewrite_prefix maps pre (u :: post) stB HwfB)
    as (st1 & Hrun1 & Hwf1 & Hst1 & Hkeep & Hchain).
  { simpl. by rewrite HbodyA. }
  { intros s' Hs'. simpl. rewrite HbodyA. by apply Hpre. }
  { intros s' Hs'. apply Hmaps. rewrite Hsplit. set_solver. }
  destruct (Hmaps u Huin) as [buffer Hbuffer].
  assert (Hcast : createTMAAsyncCopy u buffer st1 = Crash (FailedCast (op u))).
  { apply (createTMAAsyncCopy_foreign u buffer (OtherStoreLikeOp name d s));
      [|done|].
    - apply Hkeep; [set_solver|]. simpl. by rewrite HbodyA.
    - destruct Hwf1 as [_ Hbd1]. rewrite Forall_forall in Hbd1.
      apply Hbd1, getTMAStores_allIds. rewrite Hst1. set_solver. }
  exists pre, u, post, name, d, s, maps, stA, (anyDeviceSide stores), stB,
    st1, buffer.
  split_and!; try done.
  - apply any_of_run.
  - simpl in Hchain. by rewrite HbodyA in Hchain.
  - unfold pipelineTMAStores. unfold bind at 1. unfold getTMAStoresM at 1.
    fold stores.
    assert (Hmatch : forall (A : Type) (x y : A),
              match stores with [] => x | _ :: _ => y end = y).
    { intros. rewrite Hsplit. by destruct pre. }
    rewrite Hmatch.
    unfold bind at 1. rewrite HrunA.
    unfold bind at 1. rewrite any_of_run. fold stB.
    unfold bind at 1. rewrite Hsplit, forEach_app, Hrun1.
    cbn [forEach]. unfold bind at 1. unfold bind at 1.
    unfold allocOf at 1. rewrite Hbuffer. unfold ret at 1.
    by rewrite Hcast.
Qed.
End Further.

(** * The further properties on sample loops *)

(** X1 on a loop with a store of each variant. *)
Lemma wait_stage_fence_per_store_witness :
  wellFormed deviceLoop /\
  countOutside isUnknownStore (loopBody deviceLoop) = 0 /\
  exists b st',
    @pipelineTMAStores sampleCollaborators deviceLoop = Done b st' /\
    countOps isWaitForZero (loopBody st') =
      countOps isWaitForZero (loopBody deviceLoop) +
      length (getTMAStores (loopBody deviceLoop)) /\
    countOps isLocalStore (loopBody st') =
      countOps isLocalStore (loopBody deviceLoop) +
      length (getTMAStores (loopBody deviceLoop)) /\
    countOps isFence (loopBody st') =
      countOps isFence (loopBody deviceLoop) +
      length (getTMAStores (loopBody deviceLoop)) /\
    countOps isWaitForZero (afterLoop st') =
      countOps isWaitForZero (afterLoop deviceLoop) + (if b then 1 else 0).
Proof.
  split; [solve_wellFormed|]. split; [reflexivity|].
  apply (@wait_stage_fence_per_store sampleCollaborators);
    [solve_wellFormed|reflexivity].
Defined.

(** X2 on a loop with a store of each variant. *)
Lemma second_run_changes_nothing_witness :
  wellFormed deviceLoop /\
  countOutside isUnknownStore (loopBody deviceLoop) = 0 /\
  exists b st',
    @pipelineTMAStores sampleCollaborators deviceLoop = Done b st' /\
    (b = true <-> getTMAStores (loopBody deviceLoop) <> []) /\
    (b = false -> st' = deviceLoop) /\
    wellFormed st' /\
    countOutside isUnknownStore (loopBody st') = 0 /\
    @pipelineTMAStores sampleCollaborators st' = Done false st'.
Proof.
  split; [solve_wellFormed|]. split; [reflexivity|].
  apply (@second_run_changes_nothing sampleCollaborators);
    [solve_wellFormed|reflexivity].
Defined.

(** X3 on the sample body, which holds a store inside a nested loop and
    whose descriptors are all host-side. *)
Lemma only_collected_stores_are_touched_witness :
  wellFormed sampleLoop /\
  countOutside isUnknownStore (loopBody sampleLoop) = 0 /\
  @anyDeviceSide sampleCollaborators (getTMAStores (loopBody sampleLoop))
  = false /\
  exists b st' prologue epilogue,
    @pipelineTMAStores sampleCollaborators sampleLoop = Done b st' /\
    lowerings (events st') = lowerings (events sampleLoop) /\
    dropOps (fun x => nextId sampleLoop <=? x) (loopBody st') =
      dropOps (fun x => bool_decide
                          (x ∈ op <$> getTMAStores (loopBody sampleLoop)))
        (loopBody sampleLoop) /\
    beforeLoop st' = beforeLoop sampleLoop ++ prologue /\
    afterLoop st' = epilogue ++ afterLoop sampleLoop.
Proof.
  split; [solve_wellFormed|]. split; [reflexivity|]. split; [reflexivity|].
  apply (@only_collected_stores_are_touched sampleCollaborators);
    [solve_wellFormed|reflexivity|reflexivity].
Defined.

(** X4 on the sample body: two 64x64 tiles, stored through different
    descriptors, and one 32x64 tile. *)
Lemma buffer_made_for_first_store_witness :
  wellFormed sampleLoop /\
  exists maps stA created,
    forFold (getTMAStores (loopBody sampleLoop))
      (@assignAlloc sampleCollaborators)
      {| storeToAlloc := ∅; allocs := ∅ |} sampleLoop = Done maps stA /\
    beforeLoop stA = beforeLoop sampleLoop ++ created /\
    Forall2 (@AllocatedBy sampleCollaborators (loopBody sampleLoop) maps)
      (leaders (getTMAStores (loopBody sampleLoop))) created /\
    leaders (getTMAStores (loopBody sampleLoop)) `sublist_of`
      getTMAStores (loopBody sampleLoop) /\
    (forall s, s ∈ getTMAStores (loopBody sampleLoop) ->
       exists s', s' ∈ leaders (getTMAStores (loopBody sampleLoop)) /\
                  keyOf s' = keyOf s /\
                  storeToAlloc maps !! op s = allocs maps !! keyOf s') /\
    (getTMAStores (loopBody sampleLoop) <> [] ->
     countOutside isUnknownStore (loopBody sampleLoop) = 0 ->
     exists st', @pipelineTMAStores sampleCollaborators sampleLoop
                 = Done true st' /\
                 beforeLoop st' = beforeLoop sampleLoop ++ created).
Proof.
  split; [solve_wellFormed|].
  apply (@buffer_made_for_first_store sampleCollaborators). solve_wellFormed.
Defined.

(** X5 on two stores that share their buffer. *)
Lemma epilogue_deallocates_once_per_store_witness :
  wellFormed twinLoop /\
  getTMAStores (loopBody twinLoop) <> [] /\
  countOutside isUnknownStore (loopBody twinLoop) = 0 /\
  exists maps stA st' n deallocs,
    forFold (getTMAStores (loopBody twinLoop))
      (@assignAlloc sampleCollaborators)
      {| storeToAlloc := ∅; allocs := ∅ |} twinLoop = Done maps stA /\
    @pipelineTMAStores sampleCollaborators twinLoop = Done true st' /\
    afterLoop st' =
      Op n (TMAStoreWaitOp 0) :: deallocs ++ afterLoop twinLoop /\
    Forall (fun o => exists id v, o = Op id (LocalDeallocOp v)) deallocs /\
    Some <$> deallocated deallocs ≡ₚ
      (fun s => allocs maps !! keyOf s) <$> getTMAStores (loopBody twinLoop).
Proof.
  split; [solve_wellFormed|]. split; [discriminate|]. split; [reflexivity|].
  apply (@epilogue_deallocates_once_per_store sampleCollaborators);
    [solve_wellFormed|discriminate|reflexivity].
Defined.

(** X6 on the sample body. *)
Lemma deallocated_buffers_are_the_allocated_witness :
  wellFormed sampleLoop /\
  getTMAStores (loopBody sampleLoop) <> [] /\
  countOutside isUnknownStore (loopBody sampleLoop) = 0 /\
  exists st' n created deallocs,
    @pipelineTMAStores sampleCollaborators sampleLoop = Done true st' /\
    beforeLoop st' = beforeLoop sampleLoop ++ created /\
    afterLoop st' =
      Op n (TMAStoreWaitOp 0) :: deallocs ++ afterLoop sampleLoop /\
    length (allocatedBuffers created) = length created /\
    length (deallocated deallocs) = length deallocs /\
    (forall v, v ∈ deallocated deallocs <-> v ∈ allocatedBuffers created).
Proof.
  split; [solve_wellFormed|]. split; [discriminate|]. split; [reflexivity|].
  apply (@deallocated_buffers_are_the_allocated sampleCollaborators);
    [solve_wellFormed|discriminate|reflexivity].
Defined.

(** X7 on a plain store followed by a store of another variant. *)
Lemma foreign_store_fails_the_cast_witness :
  wellFormed mixedLoop /\
  countOutside isUnknownStore (loopBody mixedLoop) <> 0 /\
  exists pre u post name d s maps stA flag stB st1 buffer,
    getTMAStores (loopBody mixedLoop) = pre ++ u :: post /\
    (forall s', s' ∈ pre -> foreign (loopBody mixedLoop) s' = false) /\
    Reached (op u) (OtherStoreLikeOp name d s) (loopBody mixedLoop) /\
    forFold (getTMAStores (loopBody mixedLoop))
      (@assignAlloc sampleCollaborators)
      {| storeToAlloc := ∅; allocs := ∅ |} mixedLoop = Done maps stA /\
    any_of (getTMAStores (loopBody mixedLoop))
      (fun store =>
         logEvent (HostSideTest (op store)) ;;;
         ret (negb (@isHostSideDescriptor sampleCollaborators (desc store))))
      stA
    = Done flag stB /\
    forEach pre
      (fun store =>
         alloc <- allocOf maps store ;;
         @createTMAAsyncCopy sampleCollaborators store alloc) stB
    = Done tt st1 /\
    @Rewrites sampleCollaborators maps pre (nextId stA)
      (loopBody mixedLoop) (loopBody st1) /\
    getTMAStores (loopBody st1) = u :: post /\
    storeToAlloc maps !! op u = Some buffer /\
    @createTMAAsyncCopy sampleCollaborators u buffer st1 =
    Crash (FailedCast (op u)) /\
    @pipelineTMAStores sampleCollaborators mixedLoop =
    Crash (FailedCast (op u)).
Proof.
  split; [solve_wellFormed|]. split; [discriminate|].
  apply (@foreign_store_fails_the_cast sampleCollaborators);
    [solve_wellFormed|discriminate].
Defined.

(** X8 on a loop with a store of each variant. *)
Lemma pipeline_rewrites_in_order_witness :
  wellFormed deviceLoop /\
  getTMAStores (loopBody deviceLoop) <> [] /\
  countOutside isUnknownStore (loopBody deviceLoop) = 0 /\
  exists maps stA st',
    forFold (getTMAStores (loopBody deviceLoop))
      (@assignAlloc sampleCollaborators)
      {| storeToAlloc := ∅; allocs := ∅ |} deviceLoop = Done maps stA /\
    @pipelineTMAStores sampleCollaborators deviceLoop = Done true st' /\
    (forall s, s ∈ getTMAStores (loopBody deviceLoop) ->
               storeToAlloc maps !! op s = allocs maps !! keyOf s) /\
    @Rewrites sampleCollaborators maps (getTMAStores (loopBody deviceLoop))
      (nextId stA) (loopBody deviceLoop) (loopBody st').
Proof.
  split; [solve_wellFormed|]. split; [discriminate|]. split; [reflexivity|].
  apply (@pipeline_rewrites_in_order sampleCollaborators);
    [solve_wellFormed|discriminate|reflexivity].
Defined.
